(** * dot-printer-studio: timeline interpolation and grid pathfinding

    A shallow embedding of the player's per-frame compute path
    ([src/player/renderer.ts], [src/player/utils.ts],
    [src/lib/pathfinding.ts], [src/lib/easing.ts]) together with the
    properties the specification states about it.

    Conventions of the embedding.

    - A JavaScript [number] of the data (a time, a duration, a canvas
      coordinate) is a rational [Q]; arithmetic is exact.  The data
      reaching the renderer went through [validatePlayerData], which keeps
      finite numbers only.  What the renderer computes from the eased
      time, or by a division whose divisor can be 0, can be [Infinity] or
      [NaN] and is a [num].
    - A render that ends with a [TypeError] is an [Outcome] of its own,
      with the calls made until then.
    - Grid coordinates, connection [order] values and frame indices are
      integers [Z].
    - [Map<string, T>] is [gmap string T] and [Set<string>] is
      [gset string].
    - The canvas context is a log of the calls made on it ([CanvasCmd]);
      a render function returns the calls it makes, in order.
    - The module-level [colorCache] of [utils.ts] is threaded explicitly
      through everything that reaches [parseColor] (monad [Cached]).
    - Built-ins of the JavaScript runtime whose values are not rationals
      computed by the program ([Math.sqrt], [Math.hypot], number
      formatting, string trimming and parsing) are fields of the class
      [JsRuntime]; every definition and theorem is parametric in them. *)

From Stdlib Require Import ZArith QArith Qminmax Qround Lqa Lia.
From Stdlib Require Import String Ascii List Sorted Permutation.
From stdpp Require Import base option list gmap strings pretty.

Local Open Scope string_scope.
Local Open Scope list_scope.
Local Open Scope Z_scope.

(* ================================================================== *)
(** * Math utilities ([utils.ts]) *)

(** [clamp(value, min, max) = Math.min(max, Math.max(min, value))]. *)
Definition clamp (value lo hi : Q) : Q := Qmin hi (Qmax lo value).

(* ================================================================== *)
(** * Position utilities ([utils.ts]) *)

(** [createPositionKey(x, y) = `${x}:${y}`]; on integers the template
    literal prints the decimal representation. *)
Definition createPositionKey (x y : Z) : string :=
  pretty x +:+ ":" +:+ pretty y.

Record DotPlayerDot := {
  dot_id : string;
  dot_x : Z;
  dot_y : Z;
  dot_color : Z;
  dot_fadeInDuration : option Q;
  dot_fadeOutDuration : option Q;
}.

Record DotPlayerConnection := {
  conn_id : string;
  conn_from : string;
  conn_to : string;
  conn_color : Z;
  conn_order : Z;
  conn_revealDuration : option Q;
}.

(** [deriveDotMap]: a later dot with the same id replaces an earlier one. *)
Definition deriveDotMap (dots : list DotPlayerDot) : gmap string DotPlayerDot :=
  fold_left (fun m dot => <[dot_id dot := dot]> m) dots ∅.

Definition deriveDotPositionSet (dots : list DotPlayerDot) : gset string :=
  fold_left (fun s dot => {[createPositionKey (dot_x dot) (dot_y dot)]} ∪ s)
            dots ∅.

(* ================================================================== *)
(** * Connection utilities ([utils.ts]) *)

Definition isSamePoint (a b : DotPlayerDot) : bool :=
  (dot_x a =? dot_x b) && (dot_y a =? dot_y b).

(** [a < b ? `${a}-${b}` : `${b}-${a}`] on the two position keys; [<] on
    strings is the lexicographic order on code units. *)
Definition deriveConnectionKey (from to : DotPlayerDot) : string :=
  let a := createPositionKey (dot_x from) (dot_y from) in
  let b := createPositionKey (dot_x to) (dot_y to) in
  if String.ltb a b then a +:+ "-" +:+ b else b +:+ "-" +:+ a.

(* ================================================================== *)
(** * Numbers that are not rationals *)

(** The data is finite and so is most of what the renderer computes from
    it.  Three things are not: [Infinity] is the default of the stay and
    trace-out ends of an auto-connection; the fade-out of a connection
    divides by a duration that can be 0; and the eased time is [NaN] when
    the value found under the easing name is not an easing.  A value that
    can be one of these is a [num], with the arithmetic and the
    comparisons of IEEE 754 (a quotient by 0 takes the zero for +0;
    rounding is not modelled). *)
Inductive num := Fin (q : Q) | PosInf | NegInf | NaN.

Section Numbers.
Local Open Scope Q_scope.

Definition nopp (a : num) : num :=
  match a with
  | Fin x => Fin (- x)
  | PosInf => NegInf
  | NegInf => PosInf
  | NaN => NaN
  end.

Definition nadd (a b : num) : num :=
  match a, b with
  | Fin x, Fin y => Fin (x + y)
  | NaN, _ | _, NaN => NaN
  | PosInf, NegInf | NegInf, PosInf => NaN
  | PosInf, _ | _, PosInf => PosInf
  | NegInf, _ | _, NegInf => NegInf
  end.

Definition nsub (a b : num) : num := nadd a (nopp b).

(** An infinity times a rational. *)
Definition scaleInf (positive : bool) (x : Q) : num :=
  match (x ?= 0)%Q with
  | Gt => if positive then PosInf else NegInf
  | Lt => if positive then NegInf else PosInf
  | Eq => NaN
  end.

Definition nmul (a b : num) : num :=
  match a, b with
  | Fin x, Fin y => Fin (x * y)
  | NaN, _ | _, NaN => NaN
  | Fin x, PosInf | PosInf, Fin x => scaleInf true x
  | Fin x, NegInf | NegInf, Fin x => scaleInf false x
  | PosInf, PosInf | NegInf, NegInf => PosInf
  | PosInf, NegInf | NegInf, PosInf => NegInf
  end.

Definition ndiv (a b : num) : num :=
  match a, b with
  | Fin x, Fin y =>
      match (y ?= 0)%Q with
      | Eq => scaleInf true x
      | _ => Fin (x / y)
      end
  | NaN, _ | _, NaN => NaN
  | Fin _, _ => Fin 0
  | PosInf, Fin y => match (y ?= 0)%Q with Lt => NegInf | _ => PosInf end
  | NegInf, Fin y => match (y ?= 0)%Q with Lt => PosInf | _ => NegInf end
  | _, _ => NaN
  end.

(** [a <= b] and [a < b]; both are false when a side is [NaN]. *)
Definition nle (a b : num) : bool :=
  match a, b with
  | NaN, _ | _, NaN => false
  | Fin x, Fin y => Qle_bool x y
  | NegInf, _ | _, PosInf => true
  | _, _ => false
  end.

Definition nlt (a b : num) : bool :=
  match a, b with
  | NaN, _ | _, NaN => false
  | Fin x, Fin y => negb (Qle_bool y x)
  | PosInf, _ | _, NegInf => false
  | _, _ => true
  end.

(** [Math.min] and [Math.max] of two numbers: [NaN] when one is. *)
Definition nmin (a b : num) : num :=
  match a, b with
  | NaN, _ | _, NaN => NaN
  | Fin x, Fin y => Fin (Qmin x y)
  | _, _ => if nle a b then a else b
  end.

Definition nmax (a b : num) : num :=
  match a, b with
  | NaN, _ | _, NaN => NaN
  | Fin x, Fin y => Fin (Qmax x y)
  | _, _ => if nle a b then b else a
  end.

(** [clamp] of [utils.ts] on such a number. *)
Definition nclamp (value lo hi : num) : num := nmin hi (nmax lo value).

End Numbers.

(* ================================================================== *)
(** * Data model ([player/types.ts]) *)

Record DotPlayerGroupAnimationOverrides := {
  ov_fadeInDuration : option Q;
  ov_fadeOutDuration : option Q;
  ov_connectionAnimationDuration : option Q;
  ov_connectionStagger : option Q;
}.

Record DotPlayerGroup := {
  group_id : string;
  group_name : string;
  group_color : string;
  group_dotIds : list string;
  group_connectionIds : list string;
  group_visible : bool;
  group_locked : bool;
  group_animationOverrides : option DotPlayerGroupAnimationOverrides;
}.

(** The two colour-transition fields are read with [??] by the renderer,
    so they are optional here. *)
Record DotPlayerFrame := {
  frame_id : string;
  frame_name : string;
  frame_dots : list DotPlayerDot;
  frame_connections : list DotPlayerConnection;
  frame_groups : list DotPlayerGroup;
  frame_duration : Q;
  frame_easing : string;
  frame_dotFadeInDuration : Q;
  frame_dotFadeOutDuration : Q;
  frame_dotColorTransitionDuration : option Q;
  frame_dotColorTransitionEasing : option string;
  frame_connectionAnimationDuration : Q;
  frame_connectionStagger : Q;
  frame_dotStagger : Q;
  frame_animateDots : bool;
  frame_animateConnections : bool;
}.

Record DotPlayerSettings := {
  loopPlayback : bool;
  fadeInOnStart : bool;
  fadeOutOnEnd : bool;
  connectionFadeInOnStart : bool;
  connectionFadeOutOnEnd : bool;
}.

Record AutoConnection := {
  ac_id : string;
  ac_fromX : Z;
  ac_fromY : Z;
  ac_toX : Z;
  ac_toY : Z;
  ac_color : Z;
  ac_traceInDuration : Q;
  ac_traceOutDuration : option Q;
  ac_traceInReverse : bool;
  ac_traceOutReverse : bool;
  ac_stayDuration : option Q;
  ac_startTime : Q;
}.

Record RgbaColor := { rgba_r : Q; rgba_g : Q; rgba_b : Q; rgba_a : Q }.

Record ConnectionSegment := {
  seg_connection : DotPlayerConnection;
  seg_from : DotPlayerDot;
  seg_to : DotPlayerDot;
  seg_key : string;
  seg_length : Q;
}.

(** The calls the renderer makes on the 2D context; [RenderContext.ctx]
    is the log of these calls.  The arguments that the eased time reaches
    (an opacity, the end of a revealed line, the centre and the radius of
    an arc) are [num]s. *)
Inductive CanvasCmd :=
| ClearRect (x y w h : Q)
| Save
| Restore
| Translate (x y : Q)
| FillRect (x y w h : Q)
| SetFillStyle (style : string)
| SetStrokeStyle (style : string)
| SetLineWidth (w : Q)
| SetLineCap (cap : string)
| SetGlobalAlpha (alpha : num)
| SetShadowColor (color : string)
| SetShadowBlur (blur : Q)
| BeginPath
| MoveTo (x y : Q)
| LineTo (x y : num)
| Arc (x y radius : num) (startAngle endAngle : Q)
| Stroke
| Fill.

Record RenderContext := {
  canvasSize : Q;
  gridOffset : Q;
  dotGap : Q;
  dotRadius : Q;
  gridSize : Z;
  gridColor : string;
  gridDotSize : Q;
  showGrid : bool;
  colors : list string;
  connectionStrokeScale : Q;
  penTipRadiusOffset : Q;
  penTipShadowBlur : Q;
  penTipColor : string;
}.

Record FrameRenderState := {
  st_frame : DotPlayerFrame;
  st_frameIndex : Z;
  st_totalFrames : Z;
  st_playhead : Q;
  st_settings : DotPlayerSettings;
  st_frames : list DotPlayerFrame;
}.

(** Constants of [lib/constants]. *)
Definition DEFAULT_DOT_COLOR : string := "#0f1f1c".
Definition DEFAULT_CONNECTION_COLOR : string := "#f97316".
Definition DEFAULT_DOT_COLOR_TRANSITION : Q := 240.
Definition DEFAULT_DOT_COLOR_TRANSITION_EASING : string := "easeInOut".

(** [Math.PI] and [Math.SQRT2] are the doubles nearest to the reals. *)
Definition Math_PI : Q := 884279719003555 # 281474976710656.
Definition SQRT2 : Q := 6369051672525773 # 4503599627370496.

(** [Math.round]: the nearest integer, halves towards plus infinity. *)
Definition Math_round (x : Q) : Z := Qfloor (x + (1 # 2)).

(** Built-ins of the runtime the program calls but does not define. *)
Class JsRuntime := {
  Math_sqrt : Q -> Q;
  Math_hypot : Q -> Q -> Q;
  (** [String(n)] for a finite number. *)
  numberToString : Q -> string;
  String_trim : string -> string;
  (** [Number.parseInt(s, 16)]; [None] is [NaN]. *)
  parseInt16 : string -> option Z;
  (** [Number(s)] when it is finite; [None] is [NaN] or an infinity. *)
  Number_finite : string -> option Q;
  (** [s.match(/^rgba?\((.+)\)$/i)]: the first capture group. *)
  match_rgb : string -> option string;
}.

(* ================================================================== *)
(** * Easing ([lib/easing.ts]) *)

(** The outcome of a call [ease(t)]: the number that the arithmetic
    applied to the value returned makes of it, or the [TypeError] the call
    ends the render with. *)
Inductive Called :=
| Number (value : num)
| TypeError.

Module Easing.
Local Open Scope Q_scope.

Definition clamp (value : Q) : Q := Qmin 1 (Qmax 0 value).

Definition linear (t : Q) : Q := clamp t.
Definition easeIn (t : Q) : Q := clamp (t * t).
Definition easeOut (t : Q) : Q := clamp (1 - (1 - t) * (1 - t)).
Definition easeInOut (t : Q) : Q :=
  let clamped := clamp t in
  if Qlt_le_dec clamped (1 # 2)
  then 2 * clamped * clamped
  else 1 - ((-2 * clamped + 2) * (-2 * clamped + 2)) / 2.
Definition cubic (t : Q) : Q := clamp (t * t * t).
Definition backIn (t : Q) : Q :=
  let s := 170158 # 100000 in
  let clamped := clamp t in
  clamped * clamped * ((s + 1) * clamped - s).
Definition backOut (t : Q) : Q :=
  let s := 170158 # 100000 in
  let clamped := clamp t - 1 in
  clamp (1 + clamped * clamped * ((s + 1) * clamped + s)).
Definition backInOut (t : Q) : Q :=
  let s := (170158 # 100000) * (1525 # 1000) in
  let clamped := clamp t * 2 in
  if Qlt_le_dec clamped 1
  then clamp ((1 # 2) * (clamped * clamped * ((s + 1) * clamped - s)))
  else
    let shifted := clamped - 2 in
    clamp ((1 # 2) * (shifted * shifted * ((s + 1) * shifted + s) + 2)).

(** What [easingFunctions[name]] finds.  The table is an object literal:
    under one of its eight keys it holds an easing, and under any other
    name the lookup goes on to [Object.prototype], whose properties every
    object inherits; only a name that is found in neither is
    [undefined]. *)
Inductive Looked :=
| Own (ease : Q -> Q)
| Inherited
| Undefined.

(** The properties of [Object.prototype]. *)
Definition objectPrototypeNames : list string :=
  [ "constructor"; "hasOwnProperty"; "isPrototypeOf"; "propertyIsEnumerable";
    "toLocaleString"; "toString"; "valueOf"; "__proto__";
    "__defineGetter__"; "__defineSetter__"; "__lookupGetter__";
    "__lookupSetter__" ].

Definition easingFunctions (name : string) : Looked :=
  if String.eqb name "linear" then Own linear
  else if String.eqb name "easeIn" then Own easeIn
  else if String.eqb name "easeOut" then Own easeOut
  else if String.eqb name "easeInOut" then Own easeInOut
  else if String.eqb name "cubic" then Own cubic
  else if String.eqb name "backIn" then Own backIn
  else if String.eqb name "backOut" then Own backOut
  else if String.eqb name "backInOut" then Own backInOut
  else if existsb (String.eqb name) objectPrototypeNames then Inherited
  else Undefined.

(** The call of an inherited property with a number, as the plain
    function call [ease(t)] makes it (its [this] is [undefined]):
    [constructor] is [Object], which wraps the number; [isPrototypeOf]
    answers [false], which counts as 0; [toString] answers the string
    [[object Undefined]], which counts as [NaN]; [__proto__] is an object
    and no function; the others start by converting [this] to an object
    and throw. *)
Definition callInherited (name : string) (t : Q) : Called :=
  if String.eqb name "constructor" then Number (Fin t)
  else if String.eqb name "isPrototypeOf" then Number (Fin 0)
  else if String.eqb name "toString" then Number NaN
  else TypeError.

(** [(easingFunctions[name] ?? easingFunctions.linear)(t)]. *)
Definition callEasing (name : string) (t : Q) : Called :=
  match easingFunctions name with
  | Own ease => Number (Fin (ease t))
  | Inherited => callInherited name t
  | Undefined => Number (Fin (linear t))
  end.

End Easing.

(* ================================================================== *)
(** * The parsed-colour cache as explicit state *)

(** [colorCache] is a module-level [Map<string, RgbaColor>]; a
    computation that may read or fill it takes the cache and returns the
    cache it leaves behind. *)
Definition Cached (A : Type) : Type :=
  gmap string RgbaColor -> A * gmap string RgbaColor.

Definition ret {A} (a : A) : Cached A := fun cache => (a, cache).

Definition bind {A B} (m : Cached A) (k : A -> Cached B) : Cached B :=
  fun cache => let (a, cache') := m cache in k a cache'.

Notation "'letc' x ':=' m 'in' k" := (bind m (fun x => k))
  (at level 10, x name, m at level 100, k at level 200).

(* ================================================================== *)
(** * Remaining utilities of [utils.ts] *)

Definition deriveDotColorMap (frame : option DotPlayerFrame) : gmap string Z :=
  match frame with
  | None => ∅
  | Some frame =>
      fold_left
        (fun m dot => <[createPositionKey (dot_x dot) (dot_y dot) := dot_color dot]> m)
        (frame_dots frame) ∅
  end.

Definition deriveConnectionKeySet (frame : option DotPlayerFrame) : gset string :=
  match frame with
  | None => ∅
  | Some frame =>
      let dotMap := deriveDotMap (frame_dots frame) in
      fold_left
        (fun keys connection =>
           match dotMap !! conn_from connection, dotMap !! conn_to connection with
           | Some from, Some to => {[deriveConnectionKey from to]} ∪ keys
           | _, _ => keys
           end)
        (frame_connections frame) ∅
  end.

(** [Array.prototype.sort] is stable; with the comparator
    [a.order - b.order] its result is the one of a stable insertion sort
    on [order]. *)
Fixpoint insertByOrder (c : DotPlayerConnection) (sorted : list DotPlayerConnection)
  : list DotPlayerConnection :=
  match sorted with
  | [] => [c]
  | d :: rest =>
      if conn_order c <=? conn_order d then c :: d :: rest
      else d :: insertByOrder c rest
  end.

Fixpoint sortByOrder (connections : list DotPlayerConnection)
  : list DotPlayerConnection :=
  match connections with
  | [] => []
  | c :: rest => insertByOrder c (sortByOrder rest)
  end.

Definition withOrder (c : DotPlayerConnection) (index : Z) : DotPlayerConnection :=
  {| conn_id := conn_id c; conn_from := conn_from c; conn_to := conn_to c;
     conn_color := conn_color c; conn_order := index;
     conn_revealDuration := conn_revealDuration c |}.

Definition ensureFrameOrder (connections : list DotPlayerConnection)
  : list DotPlayerConnection :=
  imap (fun index connection => withOrder connection (Z.of_nat index))
       (sortByOrder connections).

Section WithRuntime.
Context `{JsRuntime}.

Definition sharesEndpoint (last segment : ConnectionSegment) : bool :=
  isSamePoint (seg_from last) (seg_from segment)
  || isSamePoint (seg_from last) (seg_to segment)
  || isSamePoint (seg_to last) (seg_from segment)
  || isSamePoint (seg_to last) (seg_to segment).

Definition makeSegment (connection : DotPlayerConnection) (from to : DotPlayerDot)
  : ConnectionSegment :=
  {| seg_connection := connection;
     seg_from := from;
     seg_to := to;
     seg_key := deriveConnectionKey from to;
     seg_length := Math_hypot (inject_Z (dot_x to - dot_x from))
                              (inject_Z (dot_y to - dot_y from)) |}.

(** [pushPath]: the current path is appended when it is not empty. *)
Definition pushPath (paths : list (list ConnectionSegment))
  (currentPath : list ConnectionSegment) : list (list ConnectionSegment) :=
  match currentPath with
  | [] => paths
  | _ => paths ++ [currentPath]
  end.

(** One turn of the loop of [buildConnectionPaths] on the state
    [(paths, currentPath)]. *)
Definition pathStep (dotMap : gmap string DotPlayerDot)
  (state : list (list ConnectionSegment) * list ConnectionSegment)
  (connection : DotPlayerConnection)
  : list (list ConnectionSegment) * list ConnectionSegment :=
  let (paths, currentPath) := state in
  match dotMap !! conn_from connection, dotMap !! conn_to connection with
  | Some from, Some to =>
      let segment := makeSegment connection from to in
      match last currentPath with
      | None => (paths, [segment])
      | Some lastSegment =>
          if sharesEndpoint lastSegment segment
          then (paths, currentPath ++ [segment])
          else (pushPath paths currentPath, [segment])
      end
  | _, _ => state
  end.

Definition buildConnectionPaths (connections : list DotPlayerConnection)
  (dotMap : gmap string DotPlayerDot) : list (list ConnectionSegment) :=
  let ordered := ensureFrameOrder connections in
  let (paths, currentPath) := fold_left (pathStep dotMap) ordered ([], []) in
  pushPath paths currentPath.

(* ------------------------------------------------------------------ *)
(** ** Colour utilities *)

Local Open Scope Q_scope.

Definition anyNone {A} (l : list (option A)) : bool :=
  existsb (fun o => match o with None => true | Some _ => false end) l.

Definition parseHexColor (value : string) : option RgbaColor :=
  let hex := let t := String_trim value in
             substring 1 (String.length t - 1) t in
  let len := String.length hex in
  if negb (existsb (Nat.eqb len) [3; 4; 6; 8]%nat) then None
  else
    let read (start length : nat) : option Z :=
      parseInt16 (substring start length hex) in
    if ((len =? 3) || (len =? 4))%nat then
      match read 0%nat 1%nat, read 1%nat 1%nat, read 2%nat 1%nat,
            (if (len =? 4)%nat
             then (fun v => inject_Z v / 255) <$> read 3%nat 1%nat
             else Some 1) with
      | Some r, Some g, Some b, Some a =>
          Some {| rgba_r := inject_Z r * 17; rgba_g := inject_Z g * 17;
                  rgba_b := inject_Z b * 17; rgba_a := clamp a 0 1 |}
      | _, _, _, _ => None
      end
    else
      match read 0%nat 2%nat, read 2%nat 2%nat, read 4%nat 2%nat,
            (if (len =? 8)%nat
             then (fun v => inject_Z v / 255) <$> read 6%nat 2%nat
             else Some 1) with
      | Some r, Some g, Some b, Some a =>
          Some {| rgba_r := inject_Z r; rgba_g := inject_Z g;
                  rgba_b := inject_Z b; rgba_a := clamp a 0 1 |}
      | _, _, _, _ => None
      end.

(** [s.split(",")]. *)
Fixpoint splitComma (s : string) : list string :=
  match s with
  | EmptyString => [EmptyString]
  | String c rest =>
      if Ascii.eqb c ","%char then EmptyString :: splitComma rest
      else match splitComma rest with
           | [] => [String c EmptyString]
           | part :: parts => String c part :: parts
           end
  end.

Definition parseRgbColor (value : string) : option RgbaColor :=
  match match_rgb (String_trim value) with
  | None => None
  | Some inner =>
      let parts := map String_trim (splitComma inner) in
      match parts with
      | p0 :: p1 :: p2 :: more =>
          match Number_finite p0, Number_finite p1, Number_finite p2,
                (match more with
                 | p3 :: _ => Number_finite p3
                 | [] => Some 1
                 end) with
          | Some r, Some g, Some b, Some a =>
              Some {| rgba_r := inject_Z (Math_round (clamp r 0 255));
                      rgba_g := inject_Z (Math_round (clamp g 0 255));
                      rgba_b := inject_Z (Math_round (clamp b 0 255));
                      rgba_a := clamp a 0 1 |}
          | _, _, _, _ => None
          end
      | _ => None
      end
  end.

(** The parse [parseColor] performs on a cache miss. *)
Definition parseUncached (trimmed : string) : option RgbaColor :=
  if String.prefix "#" trimmed then parseHexColor trimmed
  else parseRgbColor trimmed.

Definition parseColor (value : string) : Cached (option RgbaColor) :=
  fun colorCache =>
    let trimmed := String_trim value in
    match colorCache !! trimmed with
    | Some cached => (Some cached, colorCache)
    | None =>
        match parseUncached trimmed with
        | Some parsed => (Some parsed, <[trimmed := parsed]> colorCache)
        | None => (None, colorCache)
        end
    end.

(** [amount] is the progress of the colour transition, which the eased
    time reaches.  When it is [NaN] so is the clamped [t], and with it the
    four channels, which the template prints as [NaN]. *)
Definition mixColors (from to : string) (amount : num) : Cached (option string) :=
  letc fromColor := parseColor from in
  letc toColor := parseColor to in
  match fromColor, toColor with
  | Some fromColor, Some toColor =>
      match nclamp amount (Fin 0) (Fin 1) with
      | Fin t =>
          let r := Math_round (rgba_r fromColor + (rgba_r toColor - rgba_r fromColor) * t) in
          let g := Math_round (rgba_g fromColor + (rgba_g toColor - rgba_g fromColor) * t) in
          let b := Math_round (rgba_b fromColor + (rgba_b toColor - rgba_b fromColor) * t) in
          let a :=
            inject_Z (Math_round ((rgba_a fromColor
                                   + (rgba_a toColor - rgba_a fromColor) * t) * 1000))
            / 1000 in
          ret (Some ("rgba(" +:+ pretty r +:+ ", " +:+ pretty g +:+ ", "
                     +:+ pretty b +:+ ", " +:+ numberToString a +:+ ")"))
      | _ => ret (Some "rgba(NaN, NaN, NaN, NaN)")
      end
  | _, _ => ret None
  end.

Definition resolveColor (colors : list string) (ref : Z) (fallback : string)
  : string :=
  if (0 <=? ref)%Z && (ref <? Z.of_nat (length colors))%Z
  then default fallback (colors !! Z.to_nat ref)
  else fallback.

End WithRuntime.

(* ================================================================== *)
(** * A-star pathfinding ([lib/pathfinding.ts]) *)

Module Pathfinding.
Local Open Scope Q_scope.

Record GridPosition := { pos_x : Z; pos_y : Z }.

(** A [PathNode] points to its parent.  A node becomes a parent only
    after it was spliced out of the open set, and the code writes only to
    nodes that are still in the open set, so a parent is never modified
    after it is linked: an immutable parent is the same structure. *)
Inductive PathNode := {
  node_x : Z;
  node_y : Z;
  node_g : Q;
  node_h : Q;
  node_f : Q;
  node_parent : option PathNode;
}.

Definition octileDistance (x1 y1 x2 y2 : Z) : Q :=
  let dx := Z.abs (x1 - x2) in
  let dy := Z.abs (y1 - y2) in
  inject_Z (Z.max dx dy) + (SQRT2 - 1) * inject_Z (Z.min dx dy).

Record Direction := { dir_dx : Z; dir_dy : Z; dir_cost : Q }.

Definition DIRECTIONS : list Direction :=
  [ {| dir_dx := 0; dir_dy := -1; dir_cost := 1 |};
    {| dir_dx := 1; dir_dy := -1; dir_cost := SQRT2 |};
    {| dir_dx := 1; dir_dy := 0; dir_cost := 1 |};
    {| dir_dx := 1; dir_dy := 1; dir_cost := SQRT2 |};
    {| dir_dx := 0; dir_dy := 1; dir_cost := 1 |};
    {| dir_dx := -1; dir_dy := 1; dir_cost := SQRT2 |};
    {| dir_dx := -1; dir_dy := 0; dir_cost := 1 |};
    {| dir_dx := -1; dir_dy := -1; dir_cost := SQRT2 |} ].

(** The scan for the open node of lowest [f]: the first index whose [f]
    no later node undercuts strictly. *)
Definition lowestIndex (openSet : list PathNode) : nat :=
  fold_left
    (fun lowest i =>
       match openSet !! i, openSet !! lowest with
       | Some a, Some b => if Qlt_le_dec (node_f a) (node_f b) then i else lowest
       | _, _ => lowest
       end)
    (seq 1 (length openSet - 1)) 0%nat.

(** The [while (node !== null) path.unshift(...)] loop. *)
Fixpoint reconstruct (node : PathNode) (path : list GridPosition)
  : list GridPosition :=
  let path' := {| pos_x := node_x node; pos_y := node_y node |} :: path in
  match node_parent node with
  | None => path'
  | Some parent => reconstruct parent path'
  end.

(** [Array.prototype.findIndex]; [None] is [-1]. *)
Fixpoint findIndex {A} (p : A -> bool) (l : list A) : option nat :=
  match l with
  | [] => None
  | a :: rest => if p a then Some 0%nat else S <$> findIndex p rest
  end.

(** The body of [for (const dir of DIRECTIONS)] for one direction, as a
    function on the open set. *)
Definition visit (end_ : GridPosition) (gridSize : Z)
  (closedSet workingObstacles : gset string) (current : PathNode)
  (openSet : list PathNode) (dir : Direction) : list PathNode :=
  let nx := (node_x current + dir_dx dir)%Z in
  let ny := (node_y current + dir_dy dir)%Z in
  let neighborKey := createPositionKey nx ny in
  if (nx <? 0)%Z || (ny <? 0)%Z || (nx >=? gridSize)%Z || (ny >=? gridSize)%Z
  then openSet
  else if bool_decide (neighborKey ∈ closedSet) then openSet
  else if bool_decide (neighborKey ∈ workingObstacles) then openSet
  else if negb (dir_dx dir =? 0)%Z && negb (dir_dy dir =? 0)%Z
          && (bool_decide
                (createPositionKey (node_x current + dir_dx dir) (node_y current)
                   ∈ workingObstacles)
              || bool_decide
                   (createPositionKey (node_x current) (node_y current + dir_dy dir)
                      ∈ workingObstacles))
  then openSet
  else
    let gScore := node_g current + dir_cost dir in
    let hScore := octileDistance nx ny (pos_x end_) (pos_y end_) in
    match findIndex (fun n => (node_x n =? nx)%Z && (node_y n =? ny)%Z) openSet with
    | None =>
        openSet ++ [ {| node_x := nx; node_y := ny; node_g := gScore;
                        node_h := hScore; node_f := gScore + hScore;
                        node_parent := Some current |} ]
    | Some existingIndex =>
        match openSet !! existingIndex with
        | Some existing =>
            if Qlt_le_dec gScore (node_g existing)
            then <[existingIndex :=
                     {| node_x := node_x existing; node_y := node_y existing;
                        node_g := gScore; node_h := node_h existing;
                        node_f := gScore + hScore;
                        node_parent := Some current |}]> openSet
            else openSet
        | None => openSet
        end
    end.

(** The main loop.  [fuel] bounds the number of turns; the outer [None]
    means the bound was reached, [Some None] is the [return null] after
    the loop. *)
Fixpoint search (fuel : nat) (end_ : GridPosition) (gridSize : Z)
  (workingObstacles : gset string) (openSet : list PathNode)
  (closedSet : gset string) : option (option (list GridPosition)) :=
  match fuel with
  | O => None
  | S fuel' =>
      let lowest := lowestIndex openSet in
      match openSet !! lowest with
      | None => Some None
      | Some current =>
          let currentKey := createPositionKey (node_x current) (node_y current) in
          if (node_x current =? pos_x end_)%Z && (node_y current =? pos_y end_)%Z
          then Some (Some (reconstruct current []))
          else
            let openSet' := delete lowest openSet in
            let closedSet' := {[currentKey]} ∪ closedSet in
            search fuel' end_ gridSize workingObstacles
              (fold_left (visit end_ gridSize closedSet' workingObstacles current)
                         DIRECTIONS openSet')
              closedSet'
      end
  end.

Definition workingObstaclesOf (start end_ : GridPosition) (obstacles : gset string)
  : gset string :=
  obstacles ∖ {[createPositionKey (pos_x start) (pos_y start)]}
            ∖ {[createPositionKey (pos_x end_) (pos_y end_)]}.

Definition findPathFuel (fuel : nat) (start end_ : GridPosition) (gridSize : Z)
  (obstacles : gset string) : option (option (list GridPosition)) :=
  if (pos_x start =? pos_x end_)%Z && (pos_y start =? pos_y end_)%Z
  then Some (Some [ {| pos_x := pos_x start; pos_y := pos_y start |} ])
  else
    let startNode :=
      {| node_x := pos_x start; node_y := pos_y start; node_g := 0;
         node_h := octileDistance (pos_x start) (pos_y start) (pos_x end_) (pos_y end_);
         node_f := octileDistance (pos_x start) (pos_y start) (pos_x end_) (pos_y end_);
         node_parent := None |} in
    search fuel end_ gridSize (workingObstaclesOf start end_ obstacles)
           [startNode] ∅.

(** Every turn of the loop that does not return closes one more cell, and
    only the start cell and cells of the grid are ever opened; the turns
    are therefore bounded by the number of cells plus two. *)
Definition searchBound (gridSize : Z) : nat :=
  S (S (Z.to_nat (gridSize * gridSize))).

Definition findPath (start end_ : GridPosition) (gridSize : Z)
  (obstacles : gset string) : option (list GridPosition) :=
  mjoin (findPathFuel (searchBound gridSize) start end_ gridSize obstacles).

Definition buildObstacleSet (dots : list DotPlayerDot) : gset string :=
  fold_left (fun obstacles dot =>
               {[createPositionKey (dot_x dot) (dot_y dot)]} ∪ obstacles)
            dots ∅.

(** The cost of a step of a path, from the table of directions. *)
Definition stepCost (p q : GridPosition) : Q :=
  match List.find (fun dir => (dir_dx dir =? pos_x q - pos_x p)%Z
                              && (dir_dy dir =? pos_y q - pos_y p)%Z) DIRECTIONS with
  | Some dir => dir_cost dir
  | None => 0
  end.

Fixpoint pathCost (path : list GridPosition) : Q :=
  match path with
  | p :: (q :: _) as rest => stepCost p q + pathCost rest
  | _ => 0
  end.

End Pathfinding.

(* ================================================================== *)
(** * The renderer ([player/renderer.ts]) *)

(** The states of an auto-connection on the animation clock.  The state
    of a branch that divides carries the duration it divides by, and the
    trace-out state the finite end of the stay it starts from. *)
Inductive Phase :=
| NotStarted
| TraceIn (traceInDuration : Q)
| Stay
| TraceOut (stayEnd traceOutDuration : Q)
| Ended
| Permanent.

(** A render ends by returning or by a [TypeError]; either way the calls
    made until then were made. *)
Inductive Outcome :=
| Returned (calls : list CanvasCmd)
| Threw (calls : list CanvasCmd).

Definition callsOf (outcome : Outcome) : list CanvasCmd :=
  match outcome with
  | Returned calls => calls
  | Threw calls => calls
  end.

Section Renderer.
Context `{JsRuntime}.
Local Open Scope Q_scope.

(* ------------------------------------------------------------------ *)
(** ** Group lookup *)

Definition buildDotToGroupMap (groups : list DotPlayerGroup)
  : gmap string DotPlayerGroup :=
  fold_left
    (fun map group =>
       if negb (group_visible group) then map
       else fold_left (fun map dotId => <[dotId := group]> map)
                      (group_dotIds group) map)
    groups ∅.

Definition buildConnectionToGroupMap (groups : list DotPlayerGroup)
  : gmap string DotPlayerGroup :=
  fold_left
    (fun map group =>
       if negb (group_visible group) then map
       else fold_left (fun map connId => <[connId := group]> map)
                      (group_connectionIds group) map)
    groups ∅.

(** [group?.animationOverrides?.field]. *)
Definition groupOverride (field : DotPlayerGroupAnimationOverrides -> option Q)
  (group : option DotPlayerGroup) : option Q :=
  match group with
  | Some group =>
      match group_animationOverrides group with
      | Some overrides => field overrides
      | None => None
      end
  | None => None
  end.

(* ------------------------------------------------------------------ *)
(** ** Frame progress and neighbours *)

(** The divisor of [playhead / frame.duration], when the guard
    [frame.duration > 0] lets the division happen. *)
Definition baseProgressDivisor (frame : DotPlayerFrame) : option Q :=
  if Qlt_le_dec 0 (frame_duration frame) then Some (frame_duration frame)
  else None.

Definition baseProgress (frame : DotPlayerFrame) (playhead : Q) : Q :=
  match baseProgressDivisor frame with
  | Some duration => clamp (playhead / duration) 0 1
  | None => 0
  end.

(** [easedTime = frame.duration * ease(baseProgress)]. *)
Definition easedTime (frame : DotPlayerFrame) (playhead : Q) : Called :=
  match Easing.callEasing (frame_easing frame) (baseProgress frame playhead) with
  | Number easedProgress => Number (nmul (Fin (frame_duration frame)) easedProgress)
  | TypeError => TypeError
  end.

(** [frames[i]]; [undefined] outside the array. *)
Definition frameAt (frames : list DotPlayerFrame) (i : Z) : option DotPlayerFrame :=
  if (i <? 0)%Z then None else frames !! Z.to_nat i.

Definition prevFrameOf (st : FrameRenderState) : option DotPlayerFrame :=
  if (st_frameIndex st - 1 >=? 0)%Z
  then frameAt (st_frames st) (st_frameIndex st - 1)
  else if loopPlayback (st_settings st)
       then frameAt (st_frames st) (st_totalFrames st - 1)
       else None.

Definition nextFrameOf (st : FrameRenderState) : option DotPlayerFrame :=
  if (st_frameIndex st + 1 <=? st_totalFrames st - 1)%Z
  then frameAt (st_frames st) (st_frameIndex st + 1)
  else if loopPlayback (st_settings st)
       then frameAt (st_frames st) 0
       else None.

Definition isFirst (st : FrameRenderState) : bool := (st_frameIndex st =? 0)%Z.
Definition isLast (st : FrameRenderState) : bool :=
  (st_frameIndex st =? st_totalFrames st - 1)%Z.

Definition prevDotPositionsOf (st : FrameRenderState) : gset string :=
  let frame := st_frame st in
  let settings := st_settings st in
  let forceStartFadeIn := isFirst st && fadeInOnStart settings in
  let disableStartFadeIn :=
    isFirst st && negb (fadeInOnStart settings) && negb (loopPlayback settings) in
  if frame_animateDots frame then
    if forceStartFadeIn then ∅
    else if disableStartFadeIn then deriveDotPositionSet (frame_dots frame)
    else match prevFrameOf st with
         | Some prevFrame => deriveDotPositionSet (frame_dots prevFrame)
         | None => ∅
         end
  else deriveDotPositionSet (frame_dots frame).

Definition prevDotColorsOf (st : FrameRenderState) : gmap string Z :=
  let settings := st_settings st in
  let disableStartFadeIn :=
    isFirst st && negb (fadeInOnStart settings) && negb (loopPlayback settings) in
  if disableStartFadeIn then deriveDotColorMap (Some (st_frame st))
  else deriveDotColorMap (prevFrameOf st).

Definition nextDotPositionsOf (st : FrameRenderState) : gset string :=
  let frame := st_frame st in
  let settings := st_settings st in
  let forceEndFadeOut := isLast st && fadeOutOnEnd settings in
  let disableEndFadeOut :=
    isLast st && negb (fadeOutOnEnd settings) && negb (loopPlayback settings) in
  if frame_animateDots frame then
    if forceEndFadeOut then ∅
    else if disableEndFadeOut then deriveDotPositionSet (frame_dots frame)
    else match nextFrameOf st with
         | Some nextFrame => deriveDotPositionSet (frame_dots nextFrame)
         | None => ∅
         end
  else deriveDotPositionSet (frame_dots frame).

Definition prevConnectionKeysOf (st : FrameRenderState) : gset string :=
  let frame := st_frame st in
  let settings := st_settings st in
  let forceConnectionStartFadeIn := isFirst st && connectionFadeInOnStart settings in
  let disableConnectionStartFadeIn :=
    isFirst st && negb (connectionFadeInOnStart settings)
    && negb (loopPlayback settings) in
  if frame_animateConnections frame then
    if forceConnectionStartFadeIn then ∅
    else if disableConnectionStartFadeIn then deriveConnectionKeySet (Some frame)
    else deriveConnectionKeySet (prevFrameOf st)
  else deriveConnectionKeySet (Some frame).

Definition nextConnectionKeysOf (st : FrameRenderState) : gset string :=
  let frame := st_frame st in
  let settings := st_settings st in
  let forceConnectionEndFadeOut := isLast st && connectionFadeOutOnEnd settings in
  let disableConnectionEndFadeOut :=
    isLast st && negb (connectionFadeOutOnEnd settings)
    && negb (loopPlayback settings) in
  if frame_animateConnections frame then
    if forceConnectionEndFadeOut then ∅
    else if disableConnectionEndFadeOut then deriveConnectionKeySet (Some frame)
    else deriveConnectionKeySet (nextFrameOf st)
  else deriveConnectionKeySet (Some frame).

(* ------------------------------------------------------------------ *)
(** ** Stagger and timing values *)

Definition dotCount (frame : DotPlayerFrame) : Q :=
  inject_Z (Z.max (Z.of_nat (length (frame_dots frame))) 1).

(** [Math.min(a, b, c)]. *)
Definition min3 (a b c : Q) : Q := Qmin (Qmin a b) c.

Definition effectiveDotStagger (frame : DotPlayerFrame) : Q :=
  if Qeq_bool (frame_dotStagger frame) 0 then 0
  else min3 (frame_dotStagger frame)
            (frame_dotFadeInDuration frame / 4)
            ((frame_duration frame * (4 # 10)) / dotCount frame).

Definition fadeOutDefaultOf (frame : DotPlayerFrame) : Q :=
  Qmax (frame_dotFadeOutDuration frame) 1.

Definition colorTransitionDuration (frame : DotPlayerFrame) : Q :=
  Qmax (default DEFAULT_DOT_COLOR_TRANSITION (frame_dotColorTransitionDuration frame)) 0.

(** The divisor of [playhead / colorTransitionDuration], when the guard
    [colorTransitionDuration <= 0] lets the division happen. *)
Definition colorTransitionDivisor (frame : DotPlayerFrame) : option Q :=
  if Qlt_le_dec 0 (colorTransitionDuration frame)
  then Some (colorTransitionDuration frame)
  else None.

(** The colour easing is looked up in any case and called only when the
    transition has a duration. *)
Definition colorTransitionProgressOf (frame : DotPlayerFrame) (playhead : Q)
  : Called :=
  let colorEase :=
    Easing.callEasing (default DEFAULT_DOT_COLOR_TRANSITION_EASING
                               (frame_dotColorTransitionEasing frame)) in
  match colorTransitionDivisor frame with
  | None => Number (Fin 1)
  | Some duration => colorEase (clamp (playhead / duration) 0 1)
  end.

Definition strokeWidth (context : RenderContext) : Q :=
  Qmax 1 (dotRadius context * connectionStrokeScale context).

(* ------------------------------------------------------------------ *)
(** ** [renderGrid] *)

Definition renderGrid (context : RenderContext) : list CanvasCmd :=
  SetFillStyle (gridColor context)
  :: flat_map
       (fun x =>
          map (fun y =>
                 FillRect (inject_Z x * dotGap context - gridDotSize context / 2)
                          (inject_Z y * dotGap context - gridDotSize context / 2)
                          (gridDotSize context) (gridDotSize context))
              (seqZ 0 (gridSize context)))
       (seqZ 0 (gridSize context)).

(* ------------------------------------------------------------------ *)
(** ** [renderExistingConnections] *)

(** The duration the fade-out of a connection divides by. *)
Definition connectionFadeOutDuration
  (connectionToGroup : gmap string DotPlayerGroup) (fadeOutDefault : Q)
  (connection : DotPlayerConnection) : Q :=
  default fadeOutDefault
          (groupOverride ov_fadeOutDuration (connectionToGroup !! conn_id connection)).

Definition connectionFadeOut (frame : DotPlayerFrame) (eased : num)
  (effectiveFadeOut : Q) (isLeaving : bool) : num :=
  if isLeaving
  then nclamp (ndiv (nsub (Fin (frame_duration frame)) eased) (Fin effectiveFadeOut))
              (Fin 0) (Fin 1)
  else Fin 1.

(** The body of the loop for one connection. *)
Definition renderExistingConnection (context : RenderContext)
  (frame : DotPlayerFrame) (dotById : gmap string DotPlayerDot)
  (prevConnectionKeys nextConnectionKeys : gset string) (eased : num)
  (fadeOutDefault : Q) (connectionToGroup : gmap string DotPlayerGroup)
  (connection : DotPlayerConnection) : list CanvasCmd :=
  match dotById !! conn_from connection, dotById !! conn_to connection with
  | Some from, Some to =>
      let key := deriveConnectionKey from to in
      let isNew := negb (bool_decide (key ∈ prevConnectionKeys)) in
      if isNew then []
      else
        let effectiveFadeOut :=
          connectionFadeOutDuration connectionToGroup fadeOutDefault connection in
        let isLeaving := negb (bool_decide (key ∈ nextConnectionKeys)) in
        let fadeOut := connectionFadeOut frame eased effectiveFadeOut isLeaving in
        [ Save;
          SetGlobalAlpha fadeOut;
          SetStrokeStyle (resolveColor (colors context) (conn_color connection)
                                       DEFAULT_CONNECTION_COLOR);
          SetLineCap "round";
          BeginPath;
          MoveTo (inject_Z (dot_x from) * dotGap context)
                 (inject_Z (dot_y from) * dotGap context);
          LineTo (Fin (inject_Z (dot_x to) * dotGap context))
                 (Fin (inject_Z (dot_y to) * dotGap context));
          Stroke;
          Restore ]
  | _, _ => []
  end.

Definition renderExistingConnections (context : RenderContext)
  (frame : DotPlayerFrame) (dotById : gmap string DotPlayerDot)
  (prevConnectionKeys nextConnectionKeys : gset string) (eased : num)
  (fadeOutDefault : Q) (connectionToGroup : gmap string DotPlayerGroup)
  : list CanvasCmd :=
  flat_map
    (renderExistingConnection context frame dotById prevConnectionKeys
       nextConnectionKeys eased fadeOutDefault connectionToGroup)
    (frame_connections frame).

(* ------------------------------------------------------------------ *)
(** ** [renderAnimatingConnections] *)

(** [segment.length || 1]. *)
Definition lengthOr1 (segment : ConnectionSegment) : Q :=
  if Qeq_bool (seg_length segment) 0 then 1 else seg_length segment.

Definition isNewConnection (dotById : gmap string DotPlayerDot)
  (prevConnectionKeys : gset string) (connection : DotPlayerConnection) : bool :=
  match dotById !! conn_from connection, dotById !! conn_to connection with
  | Some from, Some to =>
      negb (bool_decide (deriveConnectionKey from to ∈ prevConnectionKeys))
  | _, _ => false
  end.

(** The reveal duration of a path: connection override, then group
    override, then the frame default, at least 1. *)
Definition pathDurationOf (frame : DotPlayerFrame)
  (connectionToGroup : gmap string DotPlayerGroup)
  (path : list ConnectionSegment) : Q :=
  let group :=
    match path with
    | first :: _ => connectionToGroup !! conn_id (seg_connection first)
    | [] => None
    end in
  let groupDuration := groupOverride ov_connectionAnimationDuration group in
  let override :=
    List.find (fun segment =>
                 match conn_revealDuration (seg_connection segment) with
                 | Some _ => true
                 | None => false
                 end) path in
  Qmax (default (default (frame_connectionAnimationDuration frame) groupDuration)
                (override ≫= (fun segment => conn_revealDuration (seg_connection segment))))
       1.

Definition pathStaggerOf (frame : DotPlayerFrame)
  (connectionToGroup : gmap string DotPlayerGroup)
  (path : list ConnectionSegment) : Q :=
  let group :=
    match path with
    | first :: _ => connectionToGroup !! conn_id (seg_connection first)
    | [] => None
    end in
  default (frame_connectionStagger frame) (groupOverride ov_connectionStagger group).

(** The duration the progress of a segment divides by. *)
Definition segmentProgressDivisor (segmentDuration : Q) : Q :=
  Qmax segmentDuration 1.

(** The body of the loop over the segments of a path, on the state
    [(accumulated, emitted calls)]. *)
Definition renderSegment (context : RenderContext) (frame : DotPlayerFrame)
  (nextConnectionKeys : gset string) (eased : num) (fadeOutDefault : Q)
  (connectionToGroup : gmap string DotPlayerGroup)
  (pathDuration totalLength : Q) (elapsed : num)
  (state : Q * list CanvasCmd) (segment : ConnectionSegment)
  : Q * list CanvasCmd :=
  let (accumulated, out) := state in
  let segmentDuration := pathDuration * (lengthOr1 segment / totalLength) in
  let local := nsub elapsed (Fin accumulated) in
  let accumulated' := accumulated + segmentDuration in
  if nle local (Fin 0) then (accumulated', out)
  else
    let effectiveFadeOut :=
      connectionFadeOutDuration connectionToGroup fadeOutDefault
        (seg_connection segment) in
    let progress :=
      nclamp (ndiv local (Fin (segmentProgressDivisor segmentDuration)))
             (Fin 0) (Fin 1) in
    let isLeaving := negb (bool_decide (seg_key segment ∈ nextConnectionKeys)) in
    let fadeOut := connectionFadeOut frame eased effectiveFadeOut isLeaving in
    let x1 := inject_Z (dot_x (seg_from segment)) * dotGap context in
    let y1 := inject_Z (dot_y (seg_from segment)) * dotGap context in
    let x2 := inject_Z (dot_x (seg_to segment)) * dotGap context in
    let y2 := inject_Z (dot_y (seg_to segment)) * dotGap context in
    let x := nadd (Fin x1) (nmul (Fin (x2 - x1)) progress) in
    let y := nadd (Fin y1) (nmul (Fin (y2 - y1)) progress) in
    let color := resolveColor (colors context)
                   (conn_color (seg_connection segment)) DEFAULT_CONNECTION_COLOR in
    (accumulated',
     out ++ [ Save; SetGlobalAlpha fadeOut; SetStrokeStyle color;
              SetLineCap "round"; BeginPath; MoveTo x1 y1; LineTo x y; Stroke ]
         ++ (if nlt progress (Fin 1)
             then [ SetFillStyle (penTipColor context); SetShadowColor color;
                    SetShadowBlur (penTipShadowBlur context); BeginPath;
                    Arc x y (Fin (dotRadius context + penTipRadiusOffset context))
                        0 (Math_PI * 2);
                    Fill ]
             else [])
         ++ [ Restore ]).

(** The body of the loop over the paths, on the state
    [(pathIndex, emitted calls)]. *)
Definition renderPath (context : RenderContext) (frame : DotPlayerFrame)
  (nextConnectionKeys : gset string) (eased : num) (fadeOutDefault : Q)
  (connectionToGroup : gmap string DotPlayerGroup)
  (state : Z * list CanvasCmd) (path : list ConnectionSegment)
  : Z * list CanvasCmd :=
  let (pathIndex, out) := state in
  match path with
  | [] => state
  | _ :: _ =>
      let pathDuration := pathDurationOf frame connectionToGroup path in
      let effectiveStagger := pathStaggerOf frame connectionToGroup path in
      let totalLength :=
        fold_left (fun sum segment => sum + lengthOr1 segment) path 0 in
      let pathStart := inject_Z pathIndex * effectiveStagger in
      let elapsed := nsub eased (Fin pathStart) in
      if nle elapsed (Fin 0) then ((pathIndex + 1)%Z, out)
      else
        ((pathIndex + 1)%Z,
         snd (fold_left
                (renderSegment context frame nextConnectionKeys eased
                   fadeOutDefault connectionToGroup pathDuration totalLength elapsed)
                path (0, out)))
  end.

Definition renderAnimatingConnections (context : RenderContext)
  (frame : DotPlayerFrame) (dotById : gmap string DotPlayerDot)
  (prevConnectionKeys nextConnectionKeys : gset string) (eased : num)
  (fadeOutDefault : Q) (connectionToGroup : gmap string DotPlayerGroup)
  : list CanvasCmd :=
  let newConnections :=
    List.filter (isNewConnection dotById prevConnectionKeys)
                (frame_connections frame) in
  let connectionPaths := buildConnectionPaths newConnections dotById in
  snd (fold_left
         (renderPath context frame nextConnectionKeys eased fadeOutDefault
            connectionToGroup)
         connectionPaths (0%Z, [])).

(* ------------------------------------------------------------------ *)
(** ** [renderDots] *)

Definition dotKey (dot : DotPlayerDot) : string :=
  createPositionKey (dot_x dot) (dot_y dot).

Definition dotIsNew (prevDotPositions : gset string) (dot : DotPlayerDot) : bool :=
  negb (bool_decide (dotKey dot ∈ prevDotPositions)).

Definition dotIsLeaving (nextDotPositions : gset string) (dot : DotPlayerDot) : bool :=
  negb (bool_decide (dotKey dot ∈ nextDotPositions)).

(** [a ?? b] on an optional number. *)
Definition orElse (a b : option Q) : option Q :=
  match a with
  | Some _ => a
  | None => b
  end.

Definition dotFadeInDurationOf (frame : DotPlayerFrame)
  (dotToGroup : gmap string DotPlayerGroup) (dot : DotPlayerDot) : Q :=
  Qmax (default (frame_dotFadeInDuration frame)
          (orElse (dot_fadeInDuration dot)
                  (groupOverride ov_fadeInDuration (dotToGroup !! dot_id dot))))
       1.

Definition dotFadeOutDurationOf (frame : DotPlayerFrame)
  (dotToGroup : gmap string DotPlayerGroup) (dot : DotPlayerDot) : Q :=
  Qmax (default (frame_dotFadeOutDuration frame)
          (orElse (dot_fadeOutDuration dot)
                  (groupOverride ov_fadeOutDuration (dotToGroup !! dot_id dot))))
       1.

Definition dotDelay (isNew : bool) (index : nat) (dotStagger : Q) : Q :=
  if isNew then inject_Z (Z.of_nat index) * dotStagger else 0.

Definition dotFadeIn (isNew : bool) (eased : num) (delay fadeInDuration : Q) : num :=
  let local := nsub eased (Fin delay) in
  if isNew then nclamp (ndiv local (Fin fadeInDuration)) (Fin 0) (Fin 1) else Fin 1.

Definition dotFadeOut (isLeaving : bool) (frame : DotPlayerFrame)
  (eased : num) (fadeOutDuration : Q) : num :=
  if isLeaving
  then nclamp (ndiv (nsub (Fin (frame_duration frame)) eased) (Fin fadeOutDuration))
              (Fin 0) (Fin 1)
  else Fin 1.

(** The opacity of the dot at [index]. *)
Definition dotAlpha (frame : DotPlayerFrame)
  (prevDotPositions nextDotPositions : gset string) (eased : num) (dotStagger : Q)
  (dotToGroup : gmap string DotPlayerGroup) (index : nat) (dot : DotPlayerDot)
  : num :=
  let isNew := dotIsNew prevDotPositions dot in
  let isLeaving := dotIsLeaving nextDotPositions dot in
  let delay := dotDelay isNew index dotStagger in
  nmin (dotFadeIn isNew eased delay (dotFadeInDurationOf frame dotToGroup dot))
       (dotFadeOut isLeaving frame eased (dotFadeOutDurationOf frame dotToGroup dot)).

Definition dotScale (alpha : num) : num :=
  nadd (Fin (6 # 10)) (nmul (Fin (4 # 10)) alpha).

(** The fill colour of an emitted dot; the blend reads the colour cache. *)
Definition dotFillColor (context : RenderContext)
  (prevDotPositions : gset string) (prevDotColors : gmap string Z)
  (colorTransitionProgress : num) (dot : DotPlayerDot) : Cached string :=
  let currentColor := resolveColor (colors context) (dot_color dot) DEFAULT_DOT_COLOR in
  if dotIsNew prevDotPositions dot then ret currentColor
  else
    match prevDotColors !! dotKey dot with
    | Some prevColorRef =>
        if (prevColorRef =? dot_color dot)%Z then ret currentColor
        else
          let prevColor := resolveColor (colors context) prevColorRef DEFAULT_DOT_COLOR in
          letc blended := mixColors prevColor currentColor colorTransitionProgress in
          ret (default currentColor blended)
    | None => ret currentColor
    end.

(** The body of the loop of [renderDots] for the dot at [index]. *)
Definition renderDot (context : RenderContext) (frame : DotPlayerFrame)
  (prevDotPositions nextDotPositions : gset string)
  (prevDotColors : gmap string Z) (eased : num) (dotStagger fadeOutDefault : Q)
  (colorTransitionProgress : num) (dotToGroup : gmap string DotPlayerGroup)
  (index : nat) (dot : DotPlayerDot) : Cached (list CanvasCmd) :=
  let alpha := dotAlpha frame prevDotPositions nextDotPositions eased dotStagger
                        dotToGroup index dot in
  if nle alpha (Fin 0) then ret []
  else
    let scale := dotScale alpha in
    letc fillColor := dotFillColor context prevDotPositions prevDotColors
                        colorTransitionProgress dot in
    ret [ Save; SetGlobalAlpha alpha; SetFillStyle fillColor; BeginPath;
          Arc (Fin (inject_Z (dot_x dot) * dotGap context))
              (Fin (inject_Z (dot_y dot) * dotGap context))
              (nmul (Fin (dotRadius context)) scale) 0 (Math_PI * 2);
          Fill; Restore ].

(** A loop [for (index = start; ...; index += 1)] over an array whose
    body emits calls. *)
Fixpoint forEachIndexed {A} (body : nat -> A -> Cached (list CanvasCmd))
  (index : nat) (items : list A) : Cached (list CanvasCmd) :=
  match items with
  | [] => ret []
  | item :: rest =>
      letc out := body index item in
      letc outs := forEachIndexed body (S index) rest in
      ret (out ++ outs)
  end.

Definition renderDots (context : RenderContext) (frame : DotPlayerFrame)
  (prevDotPositions nextDotPositions : gset string)
  (prevDotColors : gmap string Z) (eased : num) (dotStagger fadeOutDefault : Q)
  (colorTransitionProgress : num) (dotToGroup : gmap string DotPlayerGroup)
  : Cached (list CanvasCmd) :=
  forEachIndexed
    (renderDot context frame prevDotPositions nextDotPositions prevDotColors
       eased dotStagger fadeOutDefault colorTransitionProgress dotToGroup)
    0%nat (frame_dots frame).

(* ------------------------------------------------------------------ *)
(** ** [renderAutoConnections] *)

(** The chain of tests on [elapsed] that selects the branch taken for an
    auto-connection.  With no stay duration the stay end is [Infinity]
    and [elapsed < stayEnd] holds, so the trace-out branch is entered
    with a finite stay end only. *)
Definition autoPhase (autoConn : AutoConnection) (elapsed : Q) : Phase :=
  if Qlt_le_dec elapsed 0 then NotStarted
  else
    let traceInEnd := ac_traceInDuration autoConn in
    let stayEnd :=
      nadd (Fin traceInEnd)
           (match ac_stayDuration autoConn with
            | Some stay => Fin stay
            | None => PosInf
            end) in
    let traceOutEnd :=
      match ac_traceOutDuration autoConn with
      | Some traceOut => nadd stayEnd (Fin traceOut)
      | None => PosInf
      end in
    if Qlt_le_dec elapsed traceInEnd then TraceIn (ac_traceInDuration autoConn)
    else if nlt (Fin elapsed) stayEnd then Stay
    else
      match ac_traceOutDuration autoConn, stayEnd with
      | Some traceOut, Fin stayEnd' =>
          if nlt (Fin elapsed) traceOutEnd then TraceOut stayEnd' traceOut else Ended
      | Some _, _ => Ended
      | None, _ => Permanent
      end.

Record Window := {
  progressStart : Q;
  progressEnd : Q;
  isTracing : bool;
}.

(** [progressStart], [progressEnd] and [isTracing] at the end of the
    chain; [None] is a [continue]. *)
Definition phaseWindow (autoConn : AutoConnection) (elapsed : Q) : option Window :=
  match autoPhase autoConn elapsed with
  | NotStarted => None
  | TraceIn traceInDuration =>
      let traceInProgress := clamp (elapsed / traceInDuration) 0 1 in
      if ac_traceInReverse autoConn
      then Some {| progressStart := 1 - traceInProgress; progressEnd := 1;
                   isTracing := true |}
      else Some {| progressStart := 0; progressEnd := traceInProgress;
                   isTracing := true |}
  | Stay => Some {| progressStart := 0; progressEnd := 1; isTracing := false |}
  | TraceOut stayEnd traceOut =>
      let traceOutProgress := clamp ((elapsed - stayEnd) / traceOut) 0 1 in
      if ac_traceOutReverse autoConn
      then Some {| progressStart := 0; progressEnd := 1 - traceOutProgress;
                   isTracing := true |}
      else Some {| progressStart := traceOutProgress; progressEnd := 1;
                   isTracing := true |}
  | Ended => None
  | Permanent => Some {| progressStart := 0; progressEnd := 1; isTracing := false |}
  end.

(** The window that survives [if (progressEnd <= progressStart) continue]. *)
Definition visibleWindow (autoConn : AutoConnection) (elapsed : Q) : option Window :=
  match phaseWindow autoConn elapsed with
  | Some window =>
      if Qle_bool (progressEnd window) (progressStart window) then None
      else Some window
  | None => None
  end.

Import Pathfinding.

Definition segmentLengthOf (p q : GridPosition) : Q :=
  let dx := inject_Z (pos_x q - pos_x p) in
  let dy := inject_Z (pos_y q - pos_y p) in
  Math_sqrt (dx * dx + dy * dy).

(** The first [for] loop: the length of the route. *)
Fixpoint routeLength (prev : GridPosition) (rest : list GridPosition)
  (totalLength : Q) : Q :=
  match rest with
  | [] => totalLength
  | cur :: rest' => routeLength cur rest' (totalLength + segmentLengthOf prev cur)
  end.

Record TraceState := {
  penTipX : Q;
  penTipY : Q;
  showPenTip : bool;
  accumulatedLength : Q;
  pathStarted : bool;
  emitted : list CanvasCmd;
}.

(** The second [for] loop, from the cell [prev = path[i - 1]] on;
    returning the state as it is stands for [break]. *)
Fixpoint traceSegments (context : RenderContext)
  (startLength endLength totalLength : Q)
  (prev : GridPosition) (rest : list GridPosition) (s : TraceState) : TraceState :=
  match rest with
  | [] => s
  | cur :: rest' =>
      let segmentLength := segmentLengthOf prev cur in
      let segmentStart := accumulatedLength s in
      let segmentEnd := accumulatedLength s + segmentLength in
      if Qle_bool segmentEnd startLength then
        traceSegments context startLength endLength totalLength cur rest'
          {| penTipX := penTipX s; penTipY := penTipY s;
             showPenTip := showPenTip s; accumulatedLength := segmentEnd;
             pathStarted := pathStarted s; emitted := emitted s |}
      else if Qle_bool endLength segmentStart then s
      else
        let visibleStart := Qmax segmentStart startLength in
        let visibleEnd := Qmin segmentEnd endLength in
        let tStart := (visibleStart - segmentStart) / segmentLength in
        let tEnd := (visibleEnd - segmentStart) / segmentLength in
        let px := inject_Z (pos_x prev) in
        let py := inject_Z (pos_y prev) in
        let cx := inject_Z (pos_x cur) in
        let cy := inject_Z (pos_y cur) in
        let x0 := px + (cx - px) * tStart in
        let y0 := py + (cy - py) * tStart in
        let x1 := px + (cx - px) * tEnd in
        let y1 := py + (cy - py) * tEnd in
        traceSegments context startLength endLength totalLength cur rest'
          {| penTipX := x1 * dotGap context;
             penTipY := y1 * dotGap context;
             showPenTip :=
               if Qlt_le_dec visibleEnd totalLength then true else showPenTip s;
             accumulatedLength := segmentEnd;
             pathStarted := true;
             emitted :=
               emitted s
               ++ (if pathStarted s then []
                   else [ MoveTo (x0 * dotGap context) (y0 * dotGap context) ])
               ++ [ LineTo (Fin (x1 * dotGap context)) (Fin (y1 * dotGap context)) ] |}
  end.

(** The calls from [ctx.save()] to [ctx.restore()] that stroke the part
    of the route between two lengths, and the pen tip at its end. *)
Definition strokeRoute (context : RenderContext) (color : string)
  (tracing : bool) (first : GridPosition) (rest : list GridPosition)
  (totalLength startLength endLength : Q) : list CanvasCmd :=
  let final :=
    traceSegments context startLength endLength totalLength first rest
      {| penTipX := 0; penTipY := 0; showPenTip := false;
         accumulatedLength := 0; pathStarted := false; emitted := [] |} in
  [ Save; SetStrokeStyle color; SetLineWidth (strokeWidth context);
    SetLineCap "round"; BeginPath ]
  ++ emitted final
  ++ [ Stroke ]
  ++ (if tracing && showPenTip final
      then [ SetFillStyle (penTipColor context); SetShadowColor color;
             SetShadowBlur (penTipShadowBlur context); BeginPath;
             Arc (Fin (penTipX final)) (Fin (penTipY final))
                 (Fin (dotRadius context + penTipRadiusOffset context))
                 0 (Math_PI * 2);
             Fill ]
      else [])
  ++ [ Restore ].

(** The body of the loop for one auto-connection. *)
Definition renderAutoConnection (context : RenderContext)
  (obstacles : gset string) (cumulativeTime : Q) (autoConn : AutoConnection)
  : list CanvasCmd :=
  let elapsed := cumulativeTime - ac_startTime autoConn in
  match visibleWindow autoConn elapsed with
  | None => []
  | Some window =>
      match findPath {| pos_x := ac_fromX autoConn; pos_y := ac_fromY autoConn |}
                     {| pos_x := ac_toX autoConn; pos_y := ac_toY autoConn |}
                     (gridSize context) obstacles with
      | Some (first :: ((_ :: _) as rest)) =>
          let totalLength := routeLength first rest 0 in
          strokeRoute context
            (resolveColor (colors context) (ac_color autoConn)
                          DEFAULT_CONNECTION_COLOR)
            (isTracing window) first rest totalLength
            (totalLength * progressStart window)
            (totalLength * progressEnd window)
      | _ => []
      end
  end.

Definition renderAutoConnections (context : RenderContext)
  (frame : DotPlayerFrame) (autoConnections : list AutoConnection)
  (cumulativeTime : Q) : list CanvasCmd :=
  let obstacles := buildObstacleSet (frame_dots frame) in
  flat_map (renderAutoConnection context obstacles cumulativeTime) autoConnections.

(* ------------------------------------------------------------------ *)
(** ** [renderFrame] *)

(** The animation clock: the durations of the frames before the active
    one, then the playhead.  The loop reads [frames[i].duration] for every
    [i] below the frame index; beyond the end of the array [frames[i]] is
    [undefined] and the read is a [TypeError], which is [None]. *)
Definition cumulativeTimeOf (frames : list DotPlayerFrame) (frameIndex : Z)
  (playhead : Q) : option Q :=
  if (Z.of_nat (length frames) <? frameIndex)%Z then None
  else
    Some (fold_left (fun cumulativeTime frame => cumulativeTime + frame_duration frame)
                    (take (Z.to_nat frameIndex) frames) 0
          + playhead).

(** The calls made before the eased progress is computed. *)
Definition renderStart (context : RenderContext) : list CanvasCmd :=
  [ ClearRect 0 0 (canvasSize context) (canvasSize context); Save;
    Translate (gridOffset context) (gridOffset context) ]
  ++ (if showGrid context then renderGrid context else []).

(** The calls of the two passes over the connections. *)
Definition renderConnections (context : RenderContext) (st : FrameRenderState)
  (eased : num) : list CanvasCmd :=
  let frame := st_frame st in
  let prevConnectionKeys := prevConnectionKeysOf st in
  let nextConnectionKeys := nextConnectionKeysOf st in
  let dotById := deriveDotMap (frame_dots frame) in
  let connectionToGroup := buildConnectionToGroupMap (frame_groups frame) in
  let fadeOutDefault := fadeOutDefaultOf frame in
  [ SetLineWidth (strokeWidth context) ]
  ++ renderExistingConnections context frame dotById prevConnectionKeys
       nextConnectionKeys eased fadeOutDefault connectionToGroup
  ++ (if frame_animateConnections frame
      then renderAnimatingConnections context frame dotById
             prevConnectionKeys nextConnectionKeys eased fadeOutDefault
             connectionToGroup
      else []).

(** The calls for the auto-connections; [None] when the loop that sums
    the durations throws. *)
Definition renderAutoPass (context : RenderContext) (st : FrameRenderState)
  (autoConnections : option (list AutoConnection)) : option (list CanvasCmd) :=
  match autoConnections with
  | Some ((_ :: _) as autoConnections) =>
      match cumulativeTimeOf (st_frames st) (st_frameIndex st) (st_playhead st) with
      | Some cumulativeTime =>
          Some (renderAutoConnections context (st_frame st) autoConnections
                  cumulativeTime)
      | None => None
      end
  | _ => Some []
  end.

(** The two easings are called before anything of the frame is drawn: a
    [TypeError] of either leaves the canvas cleared, with the grid on it.
    The colour cache is reached by the dots only. *)
Definition renderFrame (context : RenderContext) (st : FrameRenderState)
  (autoConnections : option (list AutoConnection)) : Cached Outcome :=
  let frame := st_frame st in
  let playhead := st_playhead st in
  let start := renderStart context in
  match easedTime frame playhead with
  | TypeError => ret (Threw start)
  | Number eased =>
      let dotToGroup := buildDotToGroupMap (frame_groups frame) in
      let fadeOutDefault := fadeOutDefaultOf frame in
      match colorTransitionProgressOf frame playhead with
      | TypeError => ret (Threw start)
      | Number colorTransitionProgress =>
          let connections := renderConnections context st eased in
          match renderAutoPass context st autoConnections with
          | None => ret (Threw (start ++ connections))
          | Some autos =>
              letc dots :=
                renderDots context frame (prevDotPositionsOf st)
                  (nextDotPositionsOf st) (prevDotColorsOf st) eased
                  (effectiveDotStagger frame) fadeOutDefault
                  colorTransitionProgress dotToGroup in
              ret (Returned (start ++ connections ++ autos ++ dots ++ [ Restore ]))
          end
      end
  end.

End Renderer.

(* ================================================================== *)
(** * Definitions the properties are stated with *)

(** ** A runtime and inputs to evaluate the model on *)

(** The checks on concrete inputs need some runtime; this one is exact on
    the values they meet (square roots of 0, 1 and 2, integers printed in
    decimal, strings that need no trimming, strings of hexadecimal
    digits). *)
Definition sampleSqrt (x : Q) : Q :=
  if Qeq_bool x 0 then 0
  else if Qeq_bool x 1 then 1
  else if Qeq_bool x 2 then SQRT2
  else x.

Definition hexDigit (c : ascii) : option Z :=
  let n := Z.of_nat (nat_of_ascii c) in
  if (48 <=? n) && (n <=? 57) then Some (n - 48)
  else if (97 <=? n) && (n <=? 102) then Some (n - 87)
  else if (65 <=? n) && (n <=? 70) then Some (n - 55)
  else None.

Fixpoint hexValue (s : string) (acc : Z) : option Z :=
  match s with
  | EmptyString => Some acc
  | String c rest =>
      match hexDigit c with
      | Some d => hexValue rest (16 * acc + d)
      | None => None
      end
  end.

Definition sampleParseInt16 (s : string) : option Z :=
  match s with
  | EmptyString => None
  | _ => hexValue s 0
  end.

#[local] Instance sampleRuntime : JsRuntime := {|
  Math_sqrt := sampleSqrt;
  Math_hypot := fun dx dy => sampleSqrt (dx * dx + dy * dy);
  numberToString := fun q => pretty (Qfloor q);
  String_trim := fun s => s;
  parseInt16 := sampleParseInt16;
  Number_finite := fun _ => None;
  match_rgb := fun _ => None;
|}.

(** Dots and connections with the fields the scenarios do not vary. *)
Definition chainDot (id : string) (x y : Z) : DotPlayerDot :=
  {| dot_id := id; dot_x := x; dot_y := y; dot_color := 1;
     dot_fadeInDuration := None; dot_fadeOutDuration := None |}.

Definition chainConnection (id from to : string) (order : Z) : DotPlayerConnection :=
  {| conn_id := id; conn_from := from; conn_to := to; conn_color := 2;
     conn_order := order; conn_revealDuration := None |}.

(** The frame with another array of connections, and the render state
    with another active frame and frame list. *)
Definition withConnections (frame : DotPlayerFrame)
  (connections : list DotPlayerConnection) : DotPlayerFrame :=
  {| frame_id := frame_id frame;
     frame_name := frame_name frame;
     frame_dots := frame_dots frame;
     frame_connections := connections;
     frame_groups := frame_groups frame;
     frame_duration := frame_duration frame;
     frame_easing := frame_easing frame;
     frame_dotFadeInDuration := frame_dotFadeInDuration frame;
     frame_dotFadeOutDuration := frame_dotFadeOutDuration frame;
     frame_dotColorTransitionDuration := frame_dotColorTransitionDuration frame;
     frame_dotColorTransitionEasing := frame_dotColorTransitionEasing frame;
     frame_connectionAnimationDuration := frame_connectionAnimationDuration frame;
     frame_connectionStagger := frame_connectionStagger frame;
     frame_dotStagger := frame_dotStagger frame;
     frame_animateDots := frame_animateDots frame;
     frame_animateConnections := frame_animateConnections frame |}.

Definition withEasing (frame : DotPlayerFrame) (easing : string) : DotPlayerFrame :=
  {| frame_id := frame_id frame;
     frame_name := frame_name frame;
     frame_dots := frame_dots frame;
     frame_connections := frame_connections frame;
     frame_groups := frame_groups frame;
     frame_duration := frame_duration frame;
     frame_easing := easing;
     frame_dotFadeInDuration := frame_dotFadeInDuration frame;
     frame_dotFadeOutDuration := frame_dotFadeOutDuration frame;
     frame_dotColorTransitionDuration := frame_dotColorTransitionDuration frame;
     frame_dotColorTransitionEasing := frame_dotColorTransitionEasing frame;
     frame_connectionAnimationDuration := frame_connectionAnimationDuration frame;
     frame_connectionStagger := frame_connectionStagger frame;
     frame_dotStagger := frame_dotStagger frame;
     frame_animateDots := frame_animateDots frame;
     frame_animateConnections := frame_animateConnections frame |}.

Definition withFrame (st : FrameRenderState) (frame : DotPlayerFrame)
  (frames : list DotPlayerFrame) : FrameRenderState :=
  {| st_frame := frame;
     st_frameIndex := st_frameIndex st;
     st_totalFrames := st_totalFrames st;
     st_playhead := st_playhead st;
     st_settings := st_settings st;
     st_frames := frames |}.

Definition sampleContext : RenderContext :=
  {| canvasSize := 100; gridOffset := 10; dotGap := 8; dotRadius := 2;
     gridSize := 4; gridColor := "#f5f5f5"; gridDotSize := 1; showGrid := false;
     colors := ["#c5c5c5ff"; "#0f1f1c"; "#f97316"];
     connectionStrokeScale := 1; penTipRadiusOffset := 1; penTipShadowBlur := 4;
     penTipColor := "rgba(255, 255, 255, 0.6)" |}.

(** C6: a frame of two dots whose effective stagger is the third of the
    three terms (0.4 of the duration 100 over 2 dots is 20, against a
    configured 50 and a quarter of 240), rendered at half its duration as
    the only frame, with the dots fading in and not out. *)
Definition staggerFrame : DotPlayerFrame :=
  {| frame_id := "f"; frame_name := "Frame 1";
     frame_dots :=
       [ {| dot_id := "a"; dot_x := 0; dot_y := 0; dot_color := 1;
            dot_fadeInDuration := None; dot_fadeOutDuration := None |};
         {| dot_id := "b"; dot_x := 1; dot_y := 0; dot_color := 1;
            dot_fadeInDuration := None; dot_fadeOutDuration := None |} ];
     frame_connections := []; frame_groups := [];
     frame_duration := 100; frame_easing := "linear";
     frame_dotFadeInDuration := 240; frame_dotFadeOutDuration := 240;
     frame_dotColorTransitionDuration := Some 240%Q;
     frame_dotColorTransitionEasing := Some "easeInOut";
     frame_connectionAnimationDuration := 500; frame_connectionStagger := 50;
     frame_dotStagger := 50; frame_animateDots := true;
     frame_animateConnections := true |}.

Definition staggerState : FrameRenderState :=
  {| st_frame := staggerFrame; st_frameIndex := 0; st_totalFrames := 1;
     st_playhead := 50;
     st_settings := {| loopPlayback := false; fadeInOnStart := true;
                       fadeOutOnEnd := false; connectionFadeInOnStart := true;
                       connectionFadeOutOnEnd := true |};
     st_frames := [staggerFrame] |}.

(** C7: the same frame and state with the easing name ["toString"], which
    a document can carry: the validator keeps every string it finds in
    [easing]. *)
Definition unnamedEasingState : FrameRenderState :=
  withFrame staggerState (withEasing staggerFrame "toString")
            [withEasing staggerFrame "toString"].

(** C3: an auto-connection with the four constants of the scenario. *)
Definition scheduleExample : AutoConnection :=
  {| ac_id := "ac"; ac_fromX := 0; ac_fromY := 0; ac_toX := 3; ac_toY := 3;
     ac_color := 2; ac_traceInDuration := 500; ac_traceOutDuration := Some 200%Q;
     ac_traceInReverse := false; ac_traceOutReverse := false;
     ac_stayDuration := Some 300%Q; ac_startTime := 1000 |}.

(** C3: two frames without dots or connections; the first lasts 1000,
    and the second is rendered at its playhead 250, at the clock 1250. *)
Definition scheduleFrame (duration : Q) : DotPlayerFrame :=
  {| frame_id := "f"; frame_name := "Frame";
     frame_dots := []; frame_connections := []; frame_groups := [];
     frame_duration := duration; frame_easing := "linear";
     frame_dotFadeInDuration := 240; frame_dotFadeOutDuration := 240;
     frame_dotColorTransitionDuration := Some 240%Q;
     frame_dotColorTransitionEasing := Some "easeInOut";
     frame_connectionAnimationDuration := 500; frame_connectionStagger := 50;
     frame_dotStagger := 18; frame_animateDots := true;
     frame_animateConnections := true |}.

Definition scheduleState : FrameRenderState :=
  {| st_frame := scheduleFrame 1600; st_frameIndex := 1; st_totalFrames := 2;
     st_playhead := 250;
     st_settings := {| loopPlayback := false; fadeInOnStart := true;
                       fadeOutOnEnd := true; connectionFadeInOnStart := true;
                       connectionFadeOutOnEnd := true |};
     st_frames := [scheduleFrame 1000; scheduleFrame 1600] |}.

(** An auto-connection without a stay duration. *)
Definition permanentTrace : AutoConnection :=
  {| ac_id := "ac"; ac_fromX := 0; ac_fromY := 0; ac_toX := 3; ac_toY := 3;
     ac_color := 2; ac_traceInDuration := 500; ac_traceOutDuration := Some 200%Q;
     ac_traceInReverse := false; ac_traceOutReverse := false;
     ac_stayDuration := None; ac_startTime := 1000 |}.

(** C4: an auto-connection that traces in and out over half a
    millisecond, and a frame that lasts, and changes colours over, half a
    millisecond. *)
Definition quickTrace : AutoConnection :=
  {| ac_id := "ac"; ac_fromX := 0; ac_fromY := 0; ac_toX := 3; ac_toY := 3;
     ac_color := 2; ac_traceInDuration := (1 # 2)%Q;
     ac_traceOutDuration := Some (1 # 2)%Q;
     ac_traceInReverse := false; ac_traceOutReverse := false;
     ac_stayDuration := Some 1%Q; ac_startTime := 0 |}.

Definition quickColorFrame : DotPlayerFrame :=
  {| frame_id := "f"; frame_name := "Frame 1";
     frame_dots := []; frame_connections := []; frame_groups := [];
     frame_duration := (1 # 2)%Q; frame_easing := "linear";
     frame_dotFadeInDuration := 240; frame_dotFadeOutDuration := 240;
     frame_dotColorTransitionDuration := Some (1 # 2)%Q;
     frame_dotColorTransitionEasing := None;
     frame_connectionAnimationDuration := 500; frame_connectionStagger := 50;
     frame_dotStagger := 18; frame_animateDots := true;
     frame_animateConnections := true |}.

(** C8: the dots A(0,0), B(1,0), C(1,1), D(2,1), to be joined by the
    connections A-B (order 0), B-C (order 1) and C-D (order 2). *)
Definition chainMap : gmap string DotPlayerDot :=
  deriveDotMap [chainDot "A" 0 0; chainDot "B" 1 0; chainDot "C" 1 1; chainDot "D" 2 1].

(** C9: the dots A(0,0) and B(1,0), the connection A-B and a connection
    from A to an id no dot has. *)
Definition ghostFrame : DotPlayerFrame :=
  withConnections
    {| frame_id := "f"; frame_name := "Frame 1";
       frame_dots := [chainDot "A" 0 0; chainDot "B" 1 0];
       frame_connections := []; frame_groups := [];
       frame_duration := 1600; frame_easing := "linear";
       frame_dotFadeInDuration := 240; frame_dotFadeOutDuration := 240;
       frame_dotColorTransitionDuration := Some 240%Q;
       frame_dotColorTransitionEasing := Some "easeInOut";
       frame_connectionAnimationDuration := 500; frame_connectionStagger := 50;
       frame_dotStagger := 18; frame_animateDots := true;
       frame_animateConnections := true |}
    [chainConnection "ab" "A" "B" 0; chainConnection "ghost" "A" "Z" 1].

Definition ghostState : FrameRenderState :=
  {| st_frame := ghostFrame; st_frameIndex := 0; st_totalFrames := 1;
     st_playhead := 800;
     st_settings := {| loopPlayback := true; fadeInOnStart := true;
                       fadeOutOnEnd := true; connectionFadeInOnStart := true;
                       connectionFadeOutOnEnd := true |};
     st_frames := [ghostFrame] |}.

(** C9: the same frame, with its dangling connection, and the easing name
    ["valueOf"]. *)
Definition ghostValueOfState : FrameRenderState :=
  withFrame ghostState (withEasing ghostFrame "valueOf")
            [withEasing ghostFrame "valueOf"].

(** C1: the dot at (0,0) changes from colour 1 to colour 2 between two
    frames, so the renderer blends two palette entries and [parseColor]
    stores both parses. *)
Definition blendFrame (color : Z) : DotPlayerFrame :=
  {| frame_id := "f"; frame_name := "Frame";
     frame_dots := [ {| dot_id := "a"; dot_x := 0; dot_y := 0; dot_color := color;
                        dot_fadeInDuration := None; dot_fadeOutDuration := None |} ];
     frame_connections := []; frame_groups := [];
     frame_duration := 1600; frame_easing := "linear";
     frame_dotFadeInDuration := 240; frame_dotFadeOutDuration := 240;
     frame_dotColorTransitionDuration := Some 240%Q;
     frame_dotColorTransitionEasing := Some "linear";
     frame_connectionAnimationDuration := 500; frame_connectionStagger := 50;
     frame_dotStagger := 18; frame_animateDots := true;
     frame_animateConnections := true |}.

Definition blendState : FrameRenderState :=
  {| st_frame := blendFrame 2; st_frameIndex := 1; st_totalFrames := 2;
     st_playhead := 120;
     st_settings := {| loopPlayback := false; fadeInOnStart := true;
                       fadeOutOnEnd := true; connectionFadeInOnStart := true;
                       connectionFadeOutOnEnd := true |};
     st_frames := [blendFrame 1; blendFrame 2] |}.

(** C2, C5: a cell of the grid, and the diagonal from the corner (0,0) to
    the cell (k,k). *)
Definition cell (x y : Z) : Pathfinding.GridPosition :=
  {| Pathfinding.pos_x := x; Pathfinding.pos_y := y |}.

Definition diagTo (k : nat) : list Pathfinding.GridPosition :=
  map (fun i => cell (Z.of_nat i) (Z.of_nat i)) (seq 0 (S k)).

(** ** Predicates *)

Section Predicates.
Context `{JsRuntime}.
Import Pathfinding.
Local Open Scope Q_scope.

(** The calls that draw one dot of opacity [alpha] filled with [fill]. *)
Definition dotCalls (context : RenderContext) (dot : DotPlayerDot)
  (alpha : num) (fill : string) : list CanvasCmd :=
  [ Save; SetGlobalAlpha alpha; SetFillStyle fill; BeginPath;
    Arc (Fin (inject_Z (dot_x dot) * dotGap context))
        (Fin (inject_Z (dot_y dot) * dotGap context))
        (nmul (Fin (dotRadius context))
              (nadd (Fin (6 # 10)) (nmul (Fin (4 # 10)) alpha)))
        0 (Math_PI * 2);
    Fill; Restore ].

(** The effective stagger as the claim words it: 0 for a configured
    stagger of exactly 0, else the least of the configured stagger, a
    quarter of the fade-in duration and 0.4 of the duration divided by the
    number of dots. *)
Definition claimedStagger (frame : DotPlayerFrame) : Q :=
  if Qeq_bool (frame_dotStagger frame) 0 then 0
  else Qmin (Qmin (frame_dotStagger frame) (frame_dotFadeInDuration frame / 4))
            (frame_duration frame * (4 # 10)
             / inject_Z (Z.of_nat (length (frame_dots frame)))).

(** The entry delay of the dot at [index], and its two fade factors, as
    the claims word them. *)
Definition claimedDelay (entering : bool) (index : nat) (stagger : Q) : Q :=
  if entering then inject_Z (Z.of_nat index) * stagger else 0.

Definition claimedFadeIn (entering : bool) (easedElapsed : num)
  (delay fadeInDur : Q) : num :=
  if entering
  then nclamp (ndiv (nsub easedElapsed (Fin delay)) (Fin fadeInDur)) (Fin 0) (Fin 1)
  else Fin 1.

Definition claimedFadeOut (leaving : bool) (duration : Q) (easedElapsed : num)
  (fadeOutDur : Q) : num :=
  if leaving
  then nclamp (ndiv (nsub (Fin duration) easedElapsed) (Fin fadeOutDur)) (Fin 0) (Fin 1)
  else Fin 1.

(** A dot enters when no dot of the previous state sits on its cell, and
    leaves when none of the next state does. *)
Definition entering (st : FrameRenderState) (dot : DotPlayerDot) : bool :=
  negb (bool_decide (createPositionKey (dot_x dot) (dot_y dot)
                       ∈ prevDotPositionsOf st)).

Definition leaving (st : FrameRenderState) (dot : DotPlayerDot) : bool :=
  negb (bool_decide (createPositionKey (dot_x dot) (dot_y dot)
                       ∈ nextDotPositionsOf st)).

(** The animation clock as the claim words it: the sum of the durations
    of the frames before the active one, plus the playhead. *)
Definition claimedClock (st : FrameRenderState) : Q :=
  fold_left Qplus
            (map frame_duration (take (Z.to_nat (st_frameIndex st)) (st_frames st)))
            0
  + st_playhead st.

(** The fraction of its route an auto-connection with trace-in 500, stay
    300, trace-out 200 and start time 1000 shows at [clock], as the claim
    words it. *)
Definition claimedFraction (clock : Q) : Q :=
  if Qlt_le_dec clock 1000 then 0
  else if Qlt_le_dec clock 1500 then (clock - 1000) / 500
  else if Qlt_le_dec clock 1800 then 1
  else if Qlt_le_dec clock 2000 then 1 - (clock - 1800) / 200
  else 0.

(** The segments of a route, each with the length of the route before
    it. *)
Fixpoint routeSegments (prev : GridPosition) (rest : list GridPosition)
  (before : Q) : list (GridPosition * GridPosition * Q) :=
  match rest with
  | [] => []
  | cur :: rest' =>
      (prev, cur, before)
      :: routeSegments cur rest' (before + segmentLengthOf prev cur)
  end.

(** The part of a segment that lies between two lengths of the route,
    given by the lengths at which it starts and ends; none when the
    segment ends at or before the first length or starts at or after the
    second. *)
Definition visiblePart (startLength endLength : Q)
  (segment : GridPosition * GridPosition * Q)
  : option (GridPosition * GridPosition * Q * Q * Q) :=
  let '(prev, cur, before) := segment in
  let after := before + segmentLengthOf prev cur in
  if Qle_bool after startLength then None
  else if Qle_bool endLength before then None
  else Some (prev, cur, before, Qmax before startLength, Qmin after endLength).

Definition visibleParts (startLength endLength : Q) (first : GridPosition)
  (rest : list GridPosition) : list (GridPosition * GridPosition * Q * Q * Q) :=
  omap (visiblePart startLength endLength) (routeSegments first rest 0).

(** The canvas point of a segment at the length [s] of the route. *)
Definition pointAlong (context : RenderContext) (prev cur : GridPosition)
  (before s : Q) : Q * Q :=
  let t := (s - before) / segmentLengthOf prev cur in
  ((inject_Z (pos_x prev) + (inject_Z (pos_x cur) - inject_Z (pos_x prev)) * t)
   * dotGap context,
   (inject_Z (pos_y prev) + (inject_Z (pos_y cur) - inject_Z (pos_y prev)) * t)
   * dotGap context).

(** The stroke of the visible parts: the pen moves to the start of the
    first and draws a line to the end of each. *)
Definition lineToEnd (context : RenderContext)
  (part : GridPosition * GridPosition * Q * Q * Q) : CanvasCmd :=
  let '(prev, cur, before, _, to) := part in
  LineTo (Fin (fst (pointAlong context prev cur before to)))
         (Fin (snd (pointAlong context prev cur before to))).

Definition moveToStart (context : RenderContext)
  (part : GridPosition * GridPosition * Q * Q * Q) : CanvasCmd :=
  let '(prev, cur, before, from, _) := part in
  MoveTo (fst (pointAlong context prev cur before from))
         (snd (pointAlong context prev cur before from)).

Definition claimedStroke (context : RenderContext)
  (parts : list (GridPosition * GridPosition * Q * Q * Q)) : list CanvasCmd :=
  match parts with
  | [] => []
  | part :: _ => moveToStart context part :: map (lineToEnd context) parts
  end.

(** The length of the route the visible parts cover. *)
Definition visibleLength (parts : list (GridPosition * GridPosition * Q * Q * Q))
  : Q :=
  fold_right (fun part sum => let '(_, _, _, from, to) := part in (to - from) + sum)
             0 parts.

(** The easing applied under a name that is no property of
    [Object.prototype], and the eased time it gives. *)
Definition easeOf (name : string) : Q -> Q :=
  match Easing.easingFunctions name with
  | Easing.Own ease => ease
  | _ => Easing.linear
  end.


(** [sortByOrder] is judged against the order on [order] and the
    selection of the connections of one [order]. *)
Definition orderLe (a b : DotPlayerConnection) : Prop :=
  (conn_order a <= conn_order b)%Z.

Definition hasOrder (k : Z) (c : DotPlayerConnection) : bool :=
  (conn_order c =? k)%Z.

(** The segments of the connections whose two endpoints are dots of the
    map, in the order of the connections. *)
Definition resolvedSegments (dotMap : gmap string DotPlayerDot)
  (connections : list DotPlayerConnection) : list ConnectionSegment :=
  omap (fun connection =>
          match dotMap !! conn_from connection, dotMap !! conn_to connection with
          | Some from, Some to => Some (makeSegment connection from to)
          | _, _ => None
          end)
       connections.

(** Each segment of the path shares an endpoint with the next. *)
Definition chained (path : list ConnectionSegment) : Prop :=
  forall i a b, path !! i = Some a -> path !! S i = Some b ->
    sharesEndpoint a b = true.

(** No path could have been continued by the first segment of the next. *)
Definition separated (paths : list (list ConnectionSegment)) : Prop :=
  forall i p q a b,
    paths !! i = Some p -> paths !! S i = Some q ->
    last p = Some a -> head q = Some b -> sharesEndpoint a b = false.

(** The paths finished so far, then the path being built. *)
Definition pathsOf (state : list (list ConnectionSegment) * list ConnectionSegment)
  : list (list ConnectionSegment) :=
  pushPath (fst state) (snd state).

Definition pathsOk (paths : list (list ConnectionSegment)) : Prop :=
  Forall (fun path => path <> []) paths /\ Forall chained paths /\ separated paths.

(** What every cache the program can build satisfies: an entry holds the
    parse of its key. *)
Definition cacheConsistent (cache : gmap string RgbaColor) : Prop :=
  forall key color, cache !! key = Some color -> parseUncached key = Some color.

(** A computation is stable when it keeps the cache consistent and its
    result is the same from every consistent cache. *)
Definition stable {A} (m : Cached A) : Prop :=
  (forall cache, cacheConsistent cache -> cacheConsistent (snd (m cache)))
  /\ (forall cache cache',
        cacheConsistent cache -> cacheConsistent cache' ->
        fst (m cache) = fst (m cache')).

(** One call of [renderFrame], as the host makes it. *)
Definition RenderCall : Type :=
  RenderContext * FrameRenderState * option (list AutoConnection).

(** The cache left behind by a sequence of earlier calls, the first one
    made on the empty cache the module starts with. *)
Definition cacheAfter (history : list RenderCall) : gmap string RgbaColor :=
  fold_left
    (fun cache call =>
       let '(context, st, autoConnections) := call in
       snd (renderFrame context st autoConnections cache))
    history ∅.

(** A colour whose three channels are whole numbers, and one whose
    channels lie between 0 and 255. *)
Definition wholeChannels (c : RgbaColor) : Prop :=
  exists r g b : Z,
    rgba_r c == inject_Z r /\ rgba_g c == inject_Z g /\ rgba_b c == inject_Z b.

Definition channelsInRange (c : RgbaColor) : Prop :=
  (0 <= rgba_r c /\ rgba_r c <= 255)
  /\ (0 <= rgba_g c /\ rgba_g c <= 255)
  /\ (0 <= rgba_b c /\ rgba_b c <= 255).

(** A connection is dangling in a frame when one of its endpoint ids is
    the id of no dot of the frame. *)
Definition dangling (frame : DotPlayerFrame) (connection : DotPlayerConnection) : Prop :=
  deriveDotMap (frame_dots frame) !! conn_from connection = None
  \/ deriveDotMap (frame_dots frame) !! conn_to connection = None.

(** What [renderFrame] reads of a neighbouring frame: its dots, the keys
    of its connections and its duration. *)
Definition sameAsNeighbour (a b : option DotPlayerFrame) : Prop :=
  match a, b with
  | Some f, Some g =>
      frame_dots f = frame_dots g
      /\ deriveConnectionKeySet (Some f) = deriveConnectionKeySet (Some g)
      /\ frame_duration f = frame_duration g
  | None, None => True
  | _, _ => False
  end.

(** The frame lists the theorem compares: the same list, or the list
    with the active frame replaced at its index. *)
Definition neighboursAgree (frames frames' : list DotPlayerFrame) : Prop :=
  forall i, sameAsNeighbour (frameAt frames' i) (frameAt frames i).

(** A string with a colon in it. *)
Fixpoint hasColon (s : string) : bool :=
  match s with
  | EmptyString => false
  | String c rest => Ascii.eqb c ":" || hasColon rest
  end.

(** The cell and the key of a node. *)
Definition posOf (node : PathNode) : GridPosition :=
  {| pos_x := node_x node; pos_y := node_y node |}.

Definition keyOf (node : PathNode) : string :=
  createPositionKey (node_x node) (node_y node).

(** A step of a path is legal with respect to the working obstacles
    when it goes to one of the eight neighbours and, if it is diagonal,
    neither of the two cells it passes between is an obstacle. *)
Definition legalStep (workingObstacles : gset string) (p q : GridPosition) : Prop :=
  (Z.abs (pos_x q - pos_x p) <= 1)%Z
  /\ (Z.abs (pos_y q - pos_y p) <= 1)%Z
  /\ (pos_x q <> pos_x p -> pos_y q <> pos_y p ->
      (createPositionKey (pos_x q) (pos_y p) ∉ workingObstacles)
      /\ (createPositionKey (pos_x p) (pos_y q) ∉ workingObstacles)).

Fixpoint legalPath (workingObstacles : gset string) (path : list GridPosition) : Prop :=
  match path with
  | [] => True
  | p :: rest =>
      match rest with
      | [] => True
      | q :: _ => legalStep workingObstacles p q /\ legalPath workingObstacles rest
      end
  end.

(** The chain of parents of a node is made of legal steps. *)
Fixpoint legalNode (workingObstacles : gset string) (node : PathNode) : Prop :=
  match node_parent node with
  | None => True
  | Some parent =>
      legalStep workingObstacles (posOf parent) (posOf node)
      /\ legalNode workingObstacles parent
  end.

(** The chain of parents of a node starts on the cell [start]. *)
Fixpoint rootedAt (start : GridPosition) (node : PathNode) : Prop :=
  match node_parent node with
  | None => node_x node = pos_x start /\ node_y node = pos_y start
  | Some parent => rootedAt start parent
  end.

(** The cost of the diagonal of a grid of [r + 1] rows and columns. *)
Definition diagonalCost (r : nat) : Q := inject_Z (Z.of_nat r) * SQRT2.

Definition onDiag (k : nat) (node : PathNode) : Prop :=
  node_x node = Z.of_nat k /\ node_y node = Z.of_nat k.

(** A node on the diagonal cell (k,k) reached along the diagonal. *)
Definition alongDiag (r k : nat) (node : PathNode) : Prop :=
  node_f node == diagonalCost r
  /\ node_g node == inject_Z (Z.of_nat k) * SQRT2
  /\ reconstruct node [] = diagTo k.

Definition within (k : nat) (node : PathNode) : Prop :=
  (0 <= node_x node <= Z.of_nat k)%Z /\ (0 <= node_y node <= Z.of_nat k)%Z.

(** What holds of every open node while the cell (k,k) is the next to be
    expanded: on (k,k) it came along the diagonal, elsewhere its [f] is
    above the cost of the diagonal, and it lies within the first [k + 1]
    rows and columns. *)
Definition nodeOk (r k : nat) (node : PathNode) : Prop :=
  (onDiag k node -> alongDiag r k node)
  /\ (~ onDiag k node -> diagonalCost r < node_f node)
  /\ within k node.

Definition frontier (r k : nat) (openSet : list PathNode) : Prop :=
  NoDup (posOf <$> openSet) /\ Forall (nodeOk r k) openSet.

Definition searchInv (r k : nat) (openSet : list PathNode) (closedSet : gset string)
  : Prop :=
  frontier r k openSet
  /\ (exists node, node ∈ openSet /\ onDiag k node)
  /\ (forall key, key ∈ closedSet ->
        exists j : nat, (j < k)%nat /\ key = createPositionKey (Z.of_nat j) (Z.of_nat j)).

(** The keys of the cells of the grid. *)
Definition gridKeys (gridSize : Z) : gset string :=
  list_to_set
    (flat_map (fun x => map (fun y => createPositionKey x y) (seqZ 0 gridSize))
              (seqZ 0 gridSize)).

(** The open set holds each cell at most once, on cells that may still be
    closed; the closed cells are the start cell or cells of the grid. *)
Definition openOk (candidates closedSet : gset string) (openSet : list PathNode)
  : Prop :=
  NoDup (keyOf <$> openSet)
  /\ forall node, node ∈ openSet ->
       keyOf node ∈ candidates /\ keyOf node ∉ closedSet.

End Predicates.

(* ================================================================== *)
(** * Connection keys are undirected (C10) *)

Section ConnectionKeys.

Lemma ltb_swap (a b : string) :
  String.ltb a b = true -> String.ltb b a = false.
Proof.
  unfold String.ltb. rewrite (String.compare_antisym b a).
  destruct (String.compare a b); simpl; congruence.
Qed.

Lemma ltb_total (a b : string) :
  String.ltb a b = false -> String.ltb b a = false -> a = b.
Proof.
  unfold String.ltb. rewrite (String.compare_antisym b a).
  destruct (String.compare a b) eqn:E; simpl; try congruence.
  intros _ _. now apply String.compare_eq_iff.
Qed.

Lemma deriveConnectionKey_sym (a b : DotPlayerDot) :
  deriveConnectionKey a b = deriveConnectionKey b a.
Proof.
  unfold deriveConnectionKey.
  set (ka := createPositionKey (dot_x a) (dot_y a)).
  set (kb := createPositionKey (dot_x b) (dot_y b)).
  destruct (String.ltb ka kb) eqn:Hab.
  - now rewrite (ltb_swap _ _ Hab).
  - destruct (String.ltb kb ka) eqn:Hba; [reflexivity|].
    now rewrite (ltb_total _ _ Hab Hba).
Qed.

(** The key depends on the two positions only. *)
Lemma deriveConnectionKey_positions (a b a' b' : DotPlayerDot) :
  dot_x a = dot_x a' -> dot_y a = dot_y a' ->
  dot_x b = dot_x b' -> dot_y b = dot_y b' ->
  deriveConnectionKey a b = deriveConnectionKey a' b'.
Proof.
  unfold deriveConnectionKey. now intros -> -> -> ->.
Qed.

(** Membership in the key set built by the loop of
    [deriveConnectionKeySet]. *)
Lemma keySet_fold_spec (dotMap : gmap string DotPlayerDot)
  (connections : list DotPlayerConnection) (acc : gset string) (k : string) :
  k ∈ fold_left
        (fun keys connection =>
           match dotMap !! conn_from connection, dotMap !! conn_to connection with
           | Some from, Some to => {[deriveConnectionKey from to]} ∪ keys
           | _, _ => keys
           end) connections acc
  <-> k ∈ acc
      \/ exists connection from to,
           connection ∈ connections
           /\ dotMap !! conn_from connection = Some from
           /\ dotMap !! conn_to connection = Some to
           /\ k = deriveConnectionKey from to.
Proof.
  revert acc. induction connections as [|c rest IH]; intros acc; simpl.
  - split; [now left|]. intros [?|(c & ? & ? & Hin & _)]; [done|].
    now apply elem_of_nil in Hin.
  - rewrite IH. split.
    + intros [Hacc|(c' & from & to & Hin & Hf & Ht & ->)].
      * destruct (dotMap !! conn_from c) as [from|] eqn:Hf;
          [destruct (dotMap !! conn_to c) as [to|] eqn:Ht|]; try (now left).
        apply elem_of_union in Hacc as [Hk|Hk]; [|now left].
        apply elem_of_singleton in Hk. right. exists c, from, to.
        repeat split; try done. apply list_elem_of_here.
      * right. exists c', from, to. repeat split; try done.
        now apply list_elem_of_further.
    + intros [Hacc|(c' & from & to & Hin & Hf & Ht & ->)].
      * left. destruct (dotMap !! conn_from c); [destruct (dotMap !! conn_to c)|];
          try done. apply elem_of_union. now right.
      * apply elem_of_cons in Hin as [->|Hin].
        -- left. rewrite Hf, Ht. apply elem_of_union. left.
           now apply elem_of_singleton.
        -- right. exists c', from, to. repeat split; done.
Qed.

Lemma elem_of_deriveConnectionKeySet (frame : DotPlayerFrame) (k : string) :
  k ∈ deriveConnectionKeySet (Some frame)
  <-> exists connection from to,
        connection ∈ frame_connections frame
        /\ deriveDotMap (frame_dots frame) !! conn_from connection = Some from
        /\ deriveDotMap (frame_dots frame) !! conn_to connection = Some to
        /\ k = deriveConnectionKey from to.
Proof.
  unfold deriveConnectionKeySet. rewrite keySet_fold_spec.
  split; [intros [Hk|Hk]; [now apply not_elem_of_empty in Hk|done]|now right].
Qed.

(** C10. The connection key is symmetric in its two dots.  Consequently,
    when a frame holds a connection whose resolved endpoints sit at the
    positions of [to] and [from] (the same segment, reversed), the key of
    [from -> to] belongs to that frame's key set: the membership tests
    that classify a connection as entering ([isNew]) or as leaving
    ([isLeaving]) against that frame both answer no. *)
Theorem connection_key_undirected :
  (forall a b : DotPlayerDot, deriveConnectionKey a b = deriveConnectionKey b a)
  /\ (forall (adjacent : DotPlayerFrame) (reversed : DotPlayerConnection)
             (from to from' to' : DotPlayerDot),
        reversed ∈ frame_connections adjacent ->
        deriveDotMap (frame_dots adjacent) !! conn_from reversed = Some from' ->
        deriveDotMap (frame_dots adjacent) !! conn_to reversed = Some to' ->
        dot_x from' = dot_x to -> dot_y from' = dot_y to ->
        dot_x to' = dot_x from -> dot_y to' = dot_y from ->
        let key := deriveConnectionKey from to in
        let keys := deriveConnectionKeySet (Some adjacent) in
        key ∈ keys
        /\ negb (bool_decide (key ∈ keys)) = false
        /\ forall (dotById : gmap string DotPlayerDot) (connection : DotPlayerConnection),
             dotById !! conn_from connection = Some from ->
             dotById !! conn_to connection = Some to ->
             isNewConnection dotById keys connection = false).
Proof.
  split; [exact deriveConnectionKey_sym|].
  intros adjacent reversed from to from' to' Hin Hf Ht Hx1 Hy1 Hx2 Hy2 key keys.
  assert (Hkey : key ∈ keys).
  { apply elem_of_deriveConnectionKeySet. exists reversed, from', to'.
    repeat split; try done. unfold key.
    rewrite deriveConnectionKey_sym.
    now apply deriveConnectionKey_positions. }
  split; [exact Hkey|]. split.
  - now rewrite bool_decide_eq_true_2.
  - intros dotById connection Hfrom Hto. unfold isNewConnection.
    rewrite Hfrom, Hto. now rewrite bool_decide_eq_true_2.
Qed.

End ConnectionKeys.

(* ================================================================== *)
(** * Rational arithmetic: minima, maxima, clamping *)

Local Open Scope Q_scope.

Lemma Qmin_case_le (a b : Q) : (a <= b /\ Qmin a b == a) \/ (b < a /\ Qmin a b == b).
Proof.
  destruct (Q.min_spec a b) as [[Hlt Heq]|[Hle Heq]].
  - left. split; [now apply Qlt_le_weak|exact Heq].
  - destruct (Qle_lt_or_eq _ _ Hle) as [Hlt|Heq'].
    + right. now split.
    + left. split; [rewrite Heq'; apply Qle_refl|]. now rewrite Heq, Heq'.
Qed.

Lemma Qmax_case_le (a b : Q) : (a <= b /\ Qmax a b == b) \/ (b < a /\ Qmax a b == a).
Proof.
  destruct (Q.max_spec a b) as [[Hlt Heq]|[Hle Heq]].
  - left. split; [now apply Qlt_le_weak|exact Heq].
  - destruct (Qle_lt_or_eq _ _ Hle) as [Hlt|Heq'].
    + right. now split.
    + left. split; [rewrite Heq'; apply Qle_refl|]. now rewrite Heq, Heq'.
Qed.

(** Case analysis on every [Qmin] and [Qmax] of the goal, innermost
    first. *)
Ltac no_minmax t :=
  lazymatch t with
  | context [Qmin _ _] => fail
  | context [Qmax _ _] => fail
  | _ => idtac
  end.

Ltac minmax_cases :=
  repeat match goal with
         | |- context [Qmin ?a ?b] =>
             no_minmax a; no_minmax b;
             let Hc := fresh "Hc" in let He := fresh "He" in
             destruct (Qmin_case_le a b) as [[Hc He]|[Hc He]];
             revert He; generalize (Qmin a b); intros ? He
         | |- context [Qmax ?a ?b] =>
             no_minmax a; no_minmax b;
             let Hc := fresh "Hc" in let He := fresh "He" in
             destruct (Qmax_case_le a b) as [[Hc He]|[Hc He]];
             revert He; generalize (Qmax a b); intros ? He
         end.

(** [lra] does not read a division; by a literal it is a product. *)
Lemma Qdiv_const (c : Q) (p : positive) : c / (Zpos p # 1) == c * (1 # p).
Proof. reflexivity. Qed.

Ltac qlra := rewrite ?Qdiv_const in *; lra.

(** Injections of sums and differences of integers, pushed to the
    leaves. *)
Ltac push_inject :=
  unfold Z.sub;
  repeat (rewrite inject_Z_plus || rewrite inject_Z_opp);
  change (inject_Z 1) with 1; change (inject_Z 0) with 0;
  change (inject_Z (-1)) with (- (1)).

Lemma clamp_bounds (x lo hi : Q) : lo <= hi -> lo <= clamp x lo hi /\ clamp x lo hi <= hi.
Proof. intros Hle. unfold clamp. minmax_cases; lra. Qed.

Lemma clamp_inside (x lo hi : Q) : lo <= x -> x <= hi -> clamp x lo hi == x.
Proof. intros H1 H2. unfold clamp. minmax_cases; lra. Qed.

Lemma min3_le (a b c : Q) : min3 a b c <= a /\ min3 a b c <= b /\ min3 a b c <= c.
Proof. unfold min3. minmax_cases; lra. Qed.

(** On rationals the operations on [num] are those on [Q]; a quotient
    needs a divisor that is not 0. *)
Lemma ndiv_Fin (x d : Q) : ~ d == 0 -> ndiv (Fin x) (Fin d) = Fin (x / d).
Proof.
  intros Hd. unfold ndiv. destruct (d ?= 0) eqn:E; try reflexivity.
  apply Qeq_alt in E. contradiction.
Qed.

Lemma nclamp_Fin (v lo hi : Q) : nclamp (Fin v) (Fin lo) (Fin hi) = Fin (clamp v lo hi).
Proof. reflexivity. Qed.

Lemma nle_Fin (x y : Q) : nle (Fin x) (Fin y) = true <-> x <= y.
Proof. apply Qle_bool_iff. Qed.

Lemma nle_Fin_false (x y : Q) : nle (Fin x) (Fin y) = false <-> y < x.
Proof.
  simpl. split.
  - intros E. apply Qnot_le_lt. intros Hle. apply Qle_bool_iff in Hle. congruence.
  - intros Hlt. destruct (Qle_bool x y) eqn:E; [|reflexivity].
    apply Qle_bool_iff in E. lra.
Qed.

Local Close Scope Q_scope.

(* ================================================================== *)
(** * Timing of dots: stagger and opacity (C6, C7) *)

Section DotTiming.
Context `{JsRuntime}.
Local Open Scope Q_scope.

(** A render that returns went through all its passes: both easings
    answered with a number, the sum of the durations did not throw, and the
    calls are those of the passes, in their order. *)
Lemma renderFrame_returned context st autoConnections cache calls :
  fst (renderFrame context st autoConnections cache) = Returned calls ->
  exists eased colorTransitionProgress autos,
    easedTime (st_frame st) (st_playhead st) = Number eased
    /\ colorTransitionProgressOf (st_frame st) (st_playhead st)
       = Number colorTransitionProgress
    /\ renderAutoPass context st autoConnections = Some autos
    /\ calls
       = renderStart context ++ renderConnections context st eased ++ autos
         ++ fst (renderDots context (st_frame st) (prevDotPositionsOf st)
                   (nextDotPositionsOf st) (prevDotColorsOf st) eased
                   (effectiveDotStagger (st_frame st))
                   (fadeOutDefaultOf (st_frame st)) colorTransitionProgress
                   (buildDotToGroupMap (frame_groups (st_frame st))) cache)
         ++ [ Restore ].
Proof.
  unfold renderFrame.
  destruct (easedTime _ _) as [eased|]; [|discriminate].
  destruct (colorTransitionProgressOf _ _) as [ctp|]; [|discriminate].
  destruct (renderAutoPass _ _ _) as [autos|]; [|discriminate].
  unfold bind, ret.
  destruct (renderDots _ _ _ _ _ _ _ _ _ _ cache) as [dots cache'] eqn:Hdots.
  intros [= <-]. exists eased, ctp, autos. now rewrite Hdots.
Qed.

(** An indexed loop emits the calls of its body, item by item. *)
Lemma forEachIndexed_blocks {A} (body : nat -> A -> Cached (list CanvasCmd))
  (items : list A) (start : nat) cache :
  exists blocks : list (list CanvasCmd),
    fst (forEachIndexed body start items cache) = concat blocks
    /\ length blocks = length items
    /\ forall j item, items !! j = Some item ->
         exists cache', blocks !! j = Some (fst (body (start + j)%nat item cache')).
Proof.
  revert start cache. induction items as [|item rest IH]; intros start cache; simpl.
  - exists []. repeat split. intros j item Hj. discriminate.
  - unfold bind at 1. destruct (body start item cache) as [out cache1] eqn:E1.
    unfold bind at 1.
    destruct (IH (S start) cache1) as (blocks & Hcat & Hlen & Hblocks).
    destruct (forEachIndexed body (S start) rest cache1) as [outs cache2].
    simpl in *. exists (out :: blocks). split; [simpl; now rewrite Hcat|].
    split; [simpl; now rewrite Hlen|].
    intros [|j] item' Hj; simpl in *.
    + injection Hj as <-. exists cache. now rewrite Nat.add_0_r, E1.
    + destruct (Hblocks j item' Hj) as [cache' Hb]. exists cache'.
      now rewrite Nat.add_succ_r.
Qed.

(** The calls of one dot: none at an opacity of at most 0, else the
    drawing of the dot at that opacity. *)
Lemma renderDot_block context frame prev next prevColors eased stagger
  fadeOutDefault ctp groups i dot cache :
  let alpha := dotAlpha frame prev next eased stagger groups i dot in
  (nle alpha (Fin 0) = true ->
   fst (renderDot context frame prev next prevColors eased stagger fadeOutDefault
          ctp groups i dot cache) = [])
  /\ (nle alpha (Fin 0) = false ->
      exists fill,
        fst (renderDot context frame prev next prevColors eased stagger
               fadeOutDefault ctp groups i dot cache)
        = dotCalls context dot alpha fill).
Proof.
  intros alpha. unfold renderDot. fold alpha. split; intros E; rewrite E.
  - reflexivity.
  - unfold bind.
    destruct (dotFillColor context prev prevColors ctp dot cache) as [fill cache'].
    now exists fill.
Qed.

(** With a dot in the frame the stagger of the renderer is the claimed
    one: the count it divides by is the number of dots. *)
Lemma effectiveDotStagger_claimed (frame : DotPlayerFrame) :
  frame_dots frame <> [] -> effectiveDotStagger frame = claimedStagger frame.
Proof.
  intros Hdots. unfold effectiveDotStagger, claimedStagger, min3, dotCount.
  rewrite Z.max_l; [reflexivity|].
  destruct (frame_dots frame); [contradiction|]. simpl. lia.
Qed.

(** The opacity of the renderer is the least of the two claimed fade
    factors at the claimed delay. *)
Lemma dotAlpha_claimed (st : FrameRenderState) (eased : num) (i : nat)
  (dot : DotPlayerDot) :
  let frame := st_frame st in
  let groups := buildDotToGroupMap (frame_groups frame) in
  frame_dots frame !! i = Some dot ->
  dotAlpha frame (prevDotPositionsOf st) (nextDotPositionsOf st) eased
           (effectiveDotStagger frame) groups i dot
  = nmin (claimedFadeIn (entering st dot) eased
            (claimedDelay (entering st dot) i (claimedStagger frame))
            (dotFadeInDurationOf frame groups dot))
         (claimedFadeOut (leaving st dot) (frame_duration frame) eased
            (dotFadeOutDurationOf frame groups dot)).
Proof.
  intros frame groups Hdot.
  rewrite effectiveDotStagger_claimed; [reflexivity|].
  intros E. subst frame. now rewrite E in Hdot.
Qed.

(** The calls of a render that returns end with the dots, one block of
    calls for each dot of the frame, and [ctx.restore()]. *)
Lemma renderFrame_dots context st autoConnections cache calls eased :
  fst (renderFrame context st autoConnections cache) = Returned calls ->
  easedTime (st_frame st) (st_playhead st) = Number eased ->
  let frame := st_frame st in
  let groups := buildDotToGroupMap (frame_groups frame) in
  exists (before : list CanvasCmd) (blocks : list (list CanvasCmd)),
    calls = before ++ concat blocks ++ [ Restore ]
    /\ length blocks = length (frame_dots frame)
    /\ forall i dot, frame_dots frame !! i = Some dot ->
         let alpha :=
           nmin (claimedFadeIn (entering st dot) eased
                   (claimedDelay (entering st dot) i (claimedStagger frame))
                   (dotFadeInDurationOf frame groups dot))
                (claimedFadeOut (leaving st dot) (frame_duration frame) eased
                   (dotFadeOutDurationOf frame groups dot)) in
         (nle alpha (Fin 0) = true -> blocks !! i = Some [])
         /\ (nle alpha (Fin 0) = false ->
             exists fill, blocks !! i = Some (dotCalls context dot alpha fill)).
Proof.
  intros Hret Heased frame groups.
  apply renderFrame_returned in Hret
    as (eased' & ctp & autos & Heased' & _ & _ & ->).
  rewrite Heased in Heased'. injection Heased' as <-.
  unfold renderDots.
  match goal with
  | |- context [forEachIndexed ?body 0%nat ?items cache] =>
      destruct (forEachIndexed_blocks body items 0 cache)
        as (blocks & Hcat & Hlen & Hblocks)
  end.
  exists (renderStart context ++ renderConnections context st eased ++ autos), blocks.
  split; [rewrite Hcat; now rewrite <- !app_assoc|].
  split; [exact Hlen|].
  intros i dot Hdot. cbv zeta.
  destruct (Hblocks i dot Hdot) as [cache' Hblock]. simpl in Hblock.
  pose proof (dotAlpha_claimed st eased i dot Hdot) as Halpha. cbv zeta in Halpha.
  match type of Hblock with
  | _ = Some (fst (renderDot ?c ?f ?p ?n ?pc ?e ?s ?fo ?ct ?g ?j ?d ?ca)) =>
      destruct (renderDot_block c f p n pc e s fo ct g j d ca) as [Hhide Hshow]
  end.
  cbv zeta in Hhide, Hshow. rewrite Halpha in Hhide, Hshow.
  split.
  - intros E. rewrite Hblock. now rewrite (Hhide E).
  - intros E. destruct (Hshow E) as [fill Hfill]. exists fill.
    rewrite Hblock. now rewrite Hfill.
Qed.

(** C6. In every render that returns, the calls end with one block of
    calls per dot of the frame, in the order of the dots, and the block of
    the dot at index [i] shows the delay [i * stagger] of an entering dot
    and the delay 0 of any other: its opacity is the least of the fade-in
    factor [clamp((eased - delay) / fadeInDuration, 0, 1)] (1 when the dot
    does not enter) and the fade-out factor, where [stagger] is 0 for a
    configured stagger of exactly 0 and otherwise the least of the
    configured stagger, a quarter of the frame's fade-in duration and 0.4
    of the frame's duration divided by the number of dots, so that it
    exceeds none of the three. *)
Theorem effective_stagger_and_delay (context : RenderContext)
  (st : FrameRenderState) (autoConnections : option (list AutoConnection))
  (cache : gmap string RgbaColor) (calls : list CanvasCmd) (eased : num) :
  fst (renderFrame context st autoConnections cache) = Returned calls ->
  easedTime (st_frame st) (st_playhead st) = Number eased ->
  let frame := st_frame st in
  let groups := buildDotToGroupMap (frame_groups frame) in
  let count := inject_Z (Z.of_nat (length (frame_dots frame))) in
  let stagger := claimedStagger frame in
  (frame_dotStagger frame == 0 -> stagger = 0)
  /\ (~ frame_dotStagger frame == 0 ->
      stagger == Qmin (Qmin (frame_dotStagger frame)
                            (frame_dotFadeInDuration frame / 4))
                      (frame_duration frame * (4 # 10) / count)
      /\ stagger <= frame_dotStagger frame
      /\ stagger <= frame_dotFadeInDuration frame / 4
      /\ stagger <= frame_duration frame * (4 # 10) / count)
  /\ (frame_dots frame <> [] -> effectiveDotStagger frame = stagger)
  /\ exists (before : list CanvasCmd) (blocks : list (list CanvasCmd)),
       calls = before ++ concat blocks ++ [ Restore ]
       /\ length blocks = length (frame_dots frame)
       /\ forall i dot, frame_dots frame !! i = Some dot ->
            let delay :=
              if entering st dot then inject_Z (Z.of_nat i) * stagger else 0 in
            let fadeIn :=
              if entering st dot
              then nclamp (ndiv (nsub eased (Fin delay))
                                (Fin (dotFadeInDurationOf frame groups dot)))
                          (Fin 0) (Fin 1)
              else Fin 1 in
            let alpha :=
              nmin fadeIn
                   (claimedFadeOut (leaving st dot) (frame_duration frame) eased
                      (dotFadeOutDurationOf frame groups dot)) in
            (nle alpha (Fin 0) = true -> blocks !! i = Some [])
            /\ (nle alpha (Fin 0) = false ->
                exists fill, blocks !! i = Some (dotCalls context dot alpha fill)).
Proof.
  intros Hret Heased frame groups count stagger.
  split; [|split; [|split]].
  - intros Hz. unfold stagger, claimedStagger.
    now rewrite (proj2 (Qeq_bool_iff _ _) Hz).
  - intros Hnz. unfold stagger, claimedStagger.
    destruct (Qeq_bool (frame_dotStagger frame) 0) eqn:E.
    + exfalso. apply Hnz. now apply Qeq_bool_iff.
    + fold count. split; [reflexivity|]. apply min3_le.
  - apply effectiveDotStagger_claimed.
  - exact (renderFrame_dots context st autoConnections cache calls eased Hret Heased).
Qed.



(** The fade durations a dot divides by are clamped to at least 1. *)
Lemma dotFadeDurations_ge_1 frame groups dot :
  1 <= dotFadeInDurationOf frame groups dot
  /\ 1 <= dotFadeOutDurationOf frame groups dot.
Proof. unfold dotFadeInDurationOf, dotFadeOutDurationOf. split; apply Q.le_max_r. Qed.

(** At a finite eased time the two fade factors are the clamped
    quotients. *)
Lemma claimedFadeIn_Fin (b : bool) (e delay d : Q) :
  1 <= d ->
  claimedFadeIn b (Fin e) delay d
  = Fin (if b then clamp ((e - delay) / d) 0 1 else 1).
Proof.
  intros Hd. unfold claimedFadeIn. destruct b; [|reflexivity].
  change (nsub (Fin e) (Fin delay)) with (Fin (e - delay)).
  rewrite ndiv_Fin by lra. apply nclamp_Fin.
Qed.

Lemma claimedFadeOut_Fin (b : bool) (duration e d : Q) :
  1 <= d ->
  claimedFadeOut b duration (Fin e) d
  = Fin (if b then clamp ((duration - e) / d) 0 1 else 1).
Proof.
  intros Hd. unfold claimedFadeOut. destruct b; [|reflexivity].
  change (nsub (Fin duration) (Fin e)) with (Fin (duration - e)).
  rewrite ndiv_Fin by lra. apply nclamp_Fin.
Qed.

(** X1. In every render that returns with a finite eased time, each dot
    has the opacity [min(fadeIn, fadeOut)] of the clamped quotients, which
    lies in [0,1]; a dot of opacity at most 0 emits no call, and any other
    is drawn with that opacity and the radius scaled by
    [0.6 + 0.4 * alpha]. *)
Theorem dot_alpha_clamped (context : RenderContext) (st : FrameRenderState)
  (autoConnections : option (list AutoConnection))
  (cache : gmap string RgbaColor) (calls : list CanvasCmd) (e : Q) :
  fst (renderFrame context st autoConnections cache) = Returned calls ->
  easedTime (st_frame st) (st_playhead st) = Number (Fin e) ->
  let frame := st_frame st in
  let groups := buildDotToGroupMap (frame_groups frame) in
  exists (before : list CanvasCmd) (blocks : list (list CanvasCmd)),
    calls = before ++ concat blocks ++ [ Restore ]
    /\ length blocks = length (frame_dots frame)
    /\ forall i dot, frame_dots frame !! i = Some dot ->
         let delay :=
           if entering st dot
           then inject_Z (Z.of_nat i) * claimedStagger frame else 0 in
         let fadeIn :=
           if entering st dot
           then clamp ((e - delay) / dotFadeInDurationOf frame groups dot) 0 1
           else 1 in
         let fadeOut :=
           if leaving st dot
           then clamp ((frame_duration frame - e)
                       / dotFadeOutDurationOf frame groups dot) 0 1
           else 1 in
         let alpha := Qmin fadeIn fadeOut in
         0 <= alpha /\ alpha <= 1
         /\ (alpha <= 0 -> blocks !! i = Some [])
         /\ (0 < alpha ->
             exists fill,
               blocks !! i
               = Some [ Save; SetGlobalAlpha (Fin alpha); SetFillStyle fill;
                        BeginPath;
                        Arc (Fin (inject_Z (dot_x dot) * dotGap context))
                            (Fin (inject_Z (dot_y dot) * dotGap context))
                            (Fin (dotRadius context
                                  * ((6 # 10) + (4 # 10) * alpha)))
                            0 (Math_PI * 2);
                        Fill; Restore ]).
Proof.
  intros Hret Heased frame groups.
  destruct (renderFrame_dots context st autoConnections cache calls (Fin e)
              Hret Heased) as (before & blocks & Hcalls & Hlen & Hdots).
  exists before, blocks. split; [exact Hcalls|]. split; [exact Hlen|].
  intros i dot Hdot delay fadeIn fadeOut alpha.
  specialize (Hdots i dot Hdot). cbv zeta in Hdots.
  fold frame groups in Hdots.
  destruct (dotFadeDurations_ge_1 frame groups dot) as [Hin Hout].
  unfold claimedDelay in Hdots. fold delay in Hdots.
  rewrite claimedFadeIn_Fin, claimedFadeOut_Fin in Hdots by assumption.
  fold fadeIn fadeOut in Hdots.
  change (nmin (Fin fadeIn) (Fin fadeOut)) with (Fin alpha) in Hdots.
  destruct Hdots as [Hhide Hshow].
  assert (Hfi : 0 <= fadeIn /\ fadeIn <= 1).
  { unfold fadeIn. destruct (entering st dot); [apply clamp_bounds|]; lra. }
  assert (Hfo : 0 <= fadeOut /\ fadeOut <= 1).
  { unfold fadeOut. destruct (leaving st dot); [apply clamp_bounds|]; lra. }
  assert (Ha : 0 <= alpha /\ alpha <= 1).
  { unfold alpha. destruct (Qmin_case_le fadeIn fadeOut) as [[_ E]|[_ E]];
      rewrite E; lra. }
  split; [apply Ha|]. split; [apply Ha|]. split.
  - intros Hle. apply Hhide. now apply nle_Fin.
  - intros Hlt. apply Hshow. now apply nle_Fin_false.
Qed.

End DotTiming.

Section DotExamples.
Local Open Scope Q_scope.

Lemma effective_stagger_and_delay_witness :
  exists before first fill alpha,
    fst (renderFrame (H := sampleRuntime) sampleContext staggerState None ∅)
    = Returned (before ++ concat [first; dotCalls sampleContext
                                           {| dot_id := "b"; dot_x := 1; dot_y := 0;
                                              dot_color := 1;
                                              dot_fadeInDuration := None;
                                              dot_fadeOutDuration := None |}
                                           (Fin alpha) fill]
                       ++ [ Restore ])
    /\ (alpha == 1 # 8)%Q
    /\ (claimedStagger staggerFrame == 20)%Q.
Proof.
  pose (calls := callsOf (fst (renderFrame (H := sampleRuntime) sampleContext
                                 staggerState None ∅))).
  assert (Hret : fst (renderFrame (H := sampleRuntime) sampleContext staggerState
                        None ∅) = Returned calls) by (vm_compute; reflexivity).
  destruct (effective_stagger_and_delay (H := sampleRuntime) sampleContext
              staggerState None ∅ calls (Fin (100 * (50 # 100))) Hret eq_refl)
    as (_ & Hmin & _ & before & blocks & Hcalls & Hlen & Hdots).
  destruct blocks as [|first [|second [|third blocks]]]; try discriminate.
  destruct (Hdots 1%nat _ eq_refl) as [_ Hshow].
  destruct (Hshow eq_refl) as [fill Hfill].
  simpl in Hfill. injection Hfill as ->.
  exists before, first, fill, (60000 # 480000)%Q. split; [|split].
  - rewrite Hret, Hcalls. reflexivity.
  - reflexivity.
  - eapply Qeq_trans; [apply (proj1 (Hmin ltac:(vm_compute; discriminate)))|].
    vm_compute. reflexivity.
Defined.

Lemma dot_alpha_clamped_witness :
  exists before first fill alpha,
    fst (renderFrame (H := sampleRuntime) sampleContext staggerState None ∅)
    = Returned (before
                ++ concat [first;
                           [ Save; SetGlobalAlpha (Fin alpha); SetFillStyle fill;
                             BeginPath;
                             Arc (Fin 8) (Fin 0)
                                 (Fin (2 * ((6 # 10) + (4 # 10) * alpha)))
                                 0 (Math_PI * 2);
                             Fill; Restore ]]
                ++ [ Restore ])
    /\ (alpha == 1 # 8)%Q.
Proof.
  pose (calls := callsOf (fst (renderFrame (H := sampleRuntime) sampleContext
                                 staggerState None ∅))).
  assert (Hret : fst (renderFrame (H := sampleRuntime) sampleContext staggerState
                        None ∅) = Returned calls) by (vm_compute; reflexivity).
  destruct (dot_alpha_clamped (H := sampleRuntime) sampleContext
              staggerState None ∅ calls (100 * (50 # 100)) Hret eq_refl)
    as (before & blocks & Hcalls & Hlen & Hdots).
  destruct blocks as [|first [|second [|third blocks]]]; try discriminate.
  destruct (Hdots 1%nat _ eq_refl) as (_ & _ & _ & Hshow).
  destruct (Hshow ltac:(vm_compute; reflexivity)) as [fill Hfill].
  simpl in Hfill. injection Hfill as ->.
  exists before, first, fill, (60000 # 480000)%Q. split.
  - rewrite Hret, Hcalls. reflexivity.
  - reflexivity.
Defined.

(** C7. A frame whose easing name is ["toString"], rendered half way
    through its duration: the lookup finds the function of that name every
    object inherits, its result times the duration is not a number, and
    both entering dots are emitted with an opacity and a radius that are
    not numbers. *)
Theorem dot_alpha_not_a_number :
  0 <= st_playhead unnamedEasingState
  /\ st_playhead unnamedEasingState <= frame_duration (st_frame unnamedEasingState)
  /\ easedTime (st_frame unnamedEasingState) (st_playhead unnamedEasingState)
     = Number NaN
  /\ fst (renderFrame (H := sampleRuntime) sampleContext unnamedEasingState None ∅)
     = Returned (renderStart sampleContext
                 ++ [ SetLineWidth 2 ]
                 ++ dotCalls sampleContext (chainDot "a" 0 0) NaN "#0f1f1c"
                 ++ dotCalls sampleContext (chainDot "b" 1 0) NaN "#0f1f1c"
                 ++ [ Restore ]).
Proof.
  split; [vm_compute; discriminate|]. split; [vm_compute; discriminate|].
  split; vm_compute; reflexivity.
Qed.

End DotExamples.
(* ================================================================== *)
(** * The auto-connection scheduler (C3) and the divisors (C4) *)

Section Scheduler.
Context `{JsRuntime}.
Import Pathfinding.
Local Open Scope Q_scope.

(** The branch taken by the chain of tests, by the position of [elapsed]
    among the ends of the phases. *)
Lemma autoPhase_notStarted autoConn elapsed :
  elapsed < 0 -> autoPhase autoConn elapsed = NotStarted.
Proof.
  intros Hlt. unfold autoPhase. destruct (Qlt_le_dec elapsed 0); [reflexivity|lra].
Qed.

Lemma autoPhase_traceIn autoConn elapsed :
  0 <= elapsed -> elapsed < ac_traceInDuration autoConn ->
  autoPhase autoConn elapsed = TraceIn (ac_traceInDuration autoConn).
Proof.
  intros H0 H1. unfold autoPhase.
  destruct (Qlt_le_dec elapsed 0); [lra|].
  destruct (Qlt_le_dec elapsed (ac_traceInDuration autoConn)); [reflexivity|lra].
Qed.

Lemma nlt_Fin (x y : Q) : nlt (Fin x) (Fin y) = true <-> x < y.
Proof.
  unfold nlt. rewrite negb_true_iff. split.
  - intros E. apply Qnot_le_lt. intros Hle. apply Qle_bool_iff in Hle. congruence.
  - intros Hlt. destruct (Qle_bool y x) eqn:E; [|reflexivity].
    apply Qle_bool_iff in E. lra.
Qed.

Lemma nlt_Fin_false (x y : Q) : nlt (Fin x) (Fin y) = false <-> y <= x.
Proof.
  unfold nlt. rewrite negb_false_iff. apply Qle_bool_iff.
Qed.

Lemma autoPhase_stay autoConn elapsed stay :
  ac_stayDuration autoConn = Some stay ->
  0 <= elapsed -> ac_traceInDuration autoConn <= elapsed ->
  elapsed < ac_traceInDuration autoConn + stay ->
  autoPhase autoConn elapsed = Stay.
Proof.
  intros Hs H0 H1 H2. unfold autoPhase. rewrite Hs.
  destruct (Qlt_le_dec elapsed 0); [lra|].
  destruct (Qlt_le_dec elapsed (ac_traceInDuration autoConn)); [lra|].
  simpl nadd. now rewrite (proj2 (nlt_Fin _ _) H2).
Qed.

Lemma autoPhase_traceOut autoConn elapsed stay traceOut :
  ac_stayDuration autoConn = Some stay ->
  ac_traceOutDuration autoConn = Some traceOut ->
  0 <= elapsed -> ac_traceInDuration autoConn <= elapsed ->
  ac_traceInDuration autoConn + stay <= elapsed ->
  elapsed < ac_traceInDuration autoConn + stay + traceOut ->
  autoPhase autoConn elapsed
  = TraceOut (ac_traceInDuration autoConn + stay) traceOut.
Proof.
  intros Hs Ht H0 H1 H2 H3. unfold autoPhase. rewrite Hs, Ht.
  destruct (Qlt_le_dec elapsed 0); [lra|].
  destruct (Qlt_le_dec elapsed (ac_traceInDuration autoConn)); [lra|].
  simpl nadd. rewrite (proj2 (nlt_Fin_false _ _) H2).
  now rewrite (proj2 (nlt_Fin _ _) H3).
Qed.

Lemma autoPhase_ended autoConn elapsed stay traceOut :
  ac_stayDuration autoConn = Some stay ->
  ac_traceOutDuration autoConn = Some traceOut ->
  0 <= elapsed -> ac_traceInDuration autoConn <= elapsed ->
  ac_traceInDuration autoConn + stay <= elapsed ->
  ac_traceInDuration autoConn + stay + traceOut <= elapsed ->
  autoPhase autoConn elapsed = Ended.
Proof.
  intros Hs Ht H0 H1 H2 H3. unfold autoPhase. rewrite Hs, Ht.
  destruct (Qlt_le_dec elapsed 0); [lra|].
  destruct (Qlt_le_dec elapsed (ac_traceInDuration autoConn)); [lra|].
  simpl nadd. rewrite (proj2 (nlt_Fin_false _ _) H2).
  now rewrite (proj2 (nlt_Fin_false _ _) H3).
Qed.

Lemma visibleWindow_none_of_phase autoConn elapsed :
  autoPhase autoConn elapsed = NotStarted \/ autoPhase autoConn elapsed = Ended ->
  visibleWindow autoConn elapsed = None.
Proof.
  unfold visibleWindow, phaseWindow. now intros [-> | ->].
Qed.

Lemma renderAutoConnection_hidden context obstacles cumulativeTime autoConn :
  visibleWindow autoConn (cumulativeTime - ac_startTime autoConn) = None ->
  renderAutoConnection context obstacles cumulativeTime autoConn = [].
Proof. intros Hw. unfold renderAutoConnection. now rewrite Hw. Qed.

(** With a window and a route of two cells or more, the calls are those
    of the stroke of the route between the two ends of the window. *)
Lemma renderAutoConnection_visible context obstacles cumulativeTime autoConn
  window first second rest :
  visibleWindow autoConn (cumulativeTime - ac_startTime autoConn) = Some window ->
  findPath {| pos_x := ac_fromX autoConn; pos_y := ac_fromY autoConn |}
           {| pos_x := ac_toX autoConn; pos_y := ac_toY autoConn |}
           (gridSize context) obstacles
  = Some (first :: second :: rest) ->
  renderAutoConnection context obstacles cumulativeTime autoConn
  = strokeRoute context
      (resolveColor (colors context) (ac_color autoConn) DEFAULT_CONNECTION_COLOR)
      (isTracing window) first (second :: rest)
      (routeLength first (second :: rest) 0)
      (routeLength first (second :: rest) 0 * progressStart window)
      (routeLength first (second :: rest) 0 * progressEnd window).
Proof.
  intros Hw Hpath. unfold renderAutoConnection. now rewrite Hw, Hpath.
Qed.

(** *** The clock *)

Lemma fold_left_durations (frames : list DotPlayerFrame) (acc : Q) :
  fold_left (fun cumulativeTime frame => cumulativeTime + frame_duration frame)
            frames acc
  = fold_left Qplus (map frame_duration frames) acc.
Proof.
  revert acc. induction frames as [|frame frames IH]; intros acc; simpl;
    [reflexivity|apply IH].
Qed.

Lemma cumulativeTimeOf_claimed (st : FrameRenderState) (clock : Q) :
  cumulativeTimeOf (st_frames st) (st_frameIndex st) (st_playhead st) = Some clock ->
  clock = claimedClock st.
Proof.
  unfold cumulativeTimeOf, claimedClock.
  destruct (_ <? _)%Z; [discriminate|]. intros [= <-].
  now rewrite fold_left_durations.
Qed.

(** A render with one auto-connection makes the calls of the render
    without it, and between the connections and the dots the calls of the
    auto-connection at the clock. *)
Lemma renderFrame_auto_block context st autoConn cache calls :
  fst (renderFrame context st (Some [autoConn]) cache) = Returned calls ->
  exists before after : list CanvasCmd,
    fst (renderFrame context st None cache) = Returned (before ++ after)
    /\ calls
       = before
         ++ renderAutoConnection context (buildObstacleSet (frame_dots (st_frame st)))
              (claimedClock st) autoConn
         ++ after.
Proof.
  intros Hret.
  apply renderFrame_returned in Hret
    as (eased & ctp & autos & Heased & Hctp & Hautos & ->).
  unfold renderAutoPass in Hautos.
  destruct (cumulativeTimeOf _ _ _) as [clock|] eqn:Hclock; [|discriminate].
  apply cumulativeTimeOf_claimed in Hclock. subst clock.
  injection Hautos as <-.
  exists (renderStart context ++ renderConnections context st eased).
  exists (fst (renderDots context (st_frame st) (prevDotPositionsOf st)
                 (nextDotPositionsOf st) (prevDotColorsOf st) eased
                 (effectiveDotStagger (st_frame st))
                 (fadeOutDefaultOf (st_frame st)) ctp
                 (buildDotToGroupMap (frame_groups (st_frame st))) cache)
          ++ [ Restore ]).
  split.
  - unfold renderFrame. rewrite Heased, Hctp. cbn [renderAutoPass].
    unfold bind, ret.
    destruct (renderDots _ _ _ _ _ _ _ _ _ _ cache) as [dots cache'].
    cbn [fst app]. now rewrite <- !app_assoc.
  - unfold renderAutoConnections. simpl flat_map. rewrite app_nil_r.
    now rewrite <- !app_assoc.
Qed.

(** *** The stroke of a route between two lengths *)

Section Stroke.
Hypothesis sqrt_nonneg : forall x, 0 <= x -> 0 <= Math_sqrt x.

Lemma segmentLengthOf_nonneg (p q : GridPosition) : 0 <= segmentLengthOf p q.
Proof.
  unfold segmentLengthOf. apply sqrt_nonneg.
  set (dx := inject_Z (pos_x q - pos_x p)). set (dy := inject_Z (pos_y q - pos_y p)).
  nra.
Qed.

Lemma routeLength_ge (prev : GridPosition) (rest : list GridPosition) (acc : Q) :
  acc <= routeLength prev rest acc.
Proof.
  revert prev acc. induction rest as [|cur rest IH]; intros prev acc; simpl; [lra|].
  pose proof (segmentLengthOf_nonneg prev cur).
  pose proof (IH cur (acc + segmentLengthOf prev cur)). lra.
Qed.

Lemma omap_cons_match {A B} (f : A -> option B) (x : A) (l : list A) :
  omap f (x :: l)
  = match f x with
    | Some y => y :: omap f l
    | None => omap f l
    end.
Proof. reflexivity. Qed.

Lemma visiblePart_cases startLength endLength prev cur before :
  visiblePart startLength endLength (prev, cur, before)
  = if Qle_bool (before + segmentLengthOf prev cur) startLength then None
    else if Qle_bool endLength before then None
    else Some (prev, cur, before, Qmax before startLength,
               Qmin (before + segmentLengthOf prev cur) endLength).
Proof. reflexivity. Qed.

(** Nothing of a route that starts at or after the second length is
    visible. *)
Lemma visibleParts_none_after startLength endLength prev rest before :
  endLength <= before ->
  omap (visiblePart startLength endLength) (routeSegments prev rest before) = [].
Proof.
  revert prev before. induction rest as [|cur rest IH]; intros prev before Hle;
    [reflexivity|]. cbn [routeSegments].
  pose proof (segmentLengthOf_nonneg prev cur) as Hlen.
  rewrite omap_cons_match, visiblePart_cases, IH by lra.
  destruct (Qle_bool _ startLength); [reflexivity|].
  now rewrite (proj2 (Qle_bool_iff _ _) Hle).
Qed.

(** The loop over the segments, with its [continue] and [break], draws
    the visible parts of the segments, in their order. *)
Lemma traceSegments_emitted context startLength endLength totalLength prev rest s :
  emitted (traceSegments context startLength endLength totalLength prev rest s)
  = emitted s
    ++ (let parts := omap (visiblePart startLength endLength)
                          (routeSegments prev rest (accumulatedLength s)) in
        if pathStarted s then map (lineToEnd context) parts
        else claimedStroke context parts).
Proof.
  revert prev s. induction rest as [|cur rest IH]; intros prev s.
  - simpl. destruct (pathStarted s); now rewrite app_nil_r.
  - cbn [traceSegments routeSegments]. cbv zeta.
    rewrite omap_cons_match, visiblePart_cases.
    destruct (Qle_bool (accumulatedLength s + segmentLengthOf prev cur) startLength)
      eqn:Ebefore.
    + rewrite IH. reflexivity.
    + destruct (Qle_bool endLength (accumulatedLength s)) eqn:Eafter.
      * apply Qle_bool_iff in Eafter.
        pose proof (segmentLengthOf_nonneg prev cur) as Hlen.
        rewrite visibleParts_none_after by lra.
        simpl. destruct (pathStarted s); now rewrite app_nil_r.
      * rewrite IH. cbn [emitted accumulatedLength pathStarted].
        destruct (pathStarted s); cbn [claimedStroke map];
          rewrite <- !app_assoc; reflexivity.
Qed.

(** The visible parts cover what the route has between the two
    lengths. *)
Lemma visibleLength_parts startLength endLength prev rest before :
  startLength <= endLength ->
  visibleLength (omap (visiblePart startLength endLength)
                      (routeSegments prev rest before))
  == Qmax 0 (Qmin endLength (routeLength prev rest before)
             - Qmax startLength before).
Proof.
  intros Hle. revert prev before.
  induction rest as [|cur rest IH]; intros prev before.
  - simpl. minmax_cases; lra.
  - cbn [routeSegments routeLength].
    rewrite omap_cons_match, visiblePart_cases.
    pose proof (segmentLengthOf_nonneg prev cur) as Hlen.
    pose proof (routeLength_ge cur rest (before + segmentLengthOf prev cur)) as Hge.
    specialize (IH cur (before + segmentLengthOf prev cur)).
    set (after := before + segmentLengthOf prev cur) in *.
    set (total := routeLength cur rest after) in *.
    assert (Hafter : before <= after) by (unfold after; lra).
    clearbody total. clearbody after.
    destruct (Qle_bool after startLength) eqn:E1.
    + apply Qle_bool_iff in E1. rewrite IH. minmax_cases; lra.
    + assert (H1 : startLength < after).
      { apply Qnot_le_lt. intros Hc. apply Qle_bool_iff in Hc. congruence. }
      destruct (Qle_bool endLength before) eqn:E2.
      * apply Qle_bool_iff in E2. rewrite IH. minmax_cases; lra.
      * assert (H2 : before < endLength).
        { apply Qnot_le_lt. intros Hc. apply Qle_bool_iff in Hc. congruence. }
        cbn [visibleLength fold_right].
        change (fold_right _ 0 ?l) with (visibleLength l).
        rewrite IH. minmax_cases; lra.
Qed.

(** The calls of [strokeRoute]: the stroke of the visible parts, and the
    pen tip of a route that is being traced. *)
Lemma strokeRoute_shape context color tracing first rest totalLength
  startLength endLength :
  exists pen : list CanvasCmd,
    strokeRoute context color tracing first rest totalLength startLength endLength
    = [ Save; SetStrokeStyle color; SetLineWidth (strokeWidth context);
        SetLineCap "round"; BeginPath ]
      ++ claimedStroke context (visibleParts startLength endLength first rest)
      ++ [ Stroke ] ++ pen ++ [ Restore ]
    /\ (tracing = false -> pen = []).
Proof.
  unfold strokeRoute. cbv zeta.
  rewrite traceSegments_emitted. cbn [emitted accumulatedLength pathStarted app].
  eexists. split; [reflexivity|]. now intros ->.
Qed.

End Stroke.

(** *** The schedule of the scenario *)

Section Schedule.
Variable autoConn : AutoConnection.
Hypothesis traceIn_500 : ac_traceInDuration autoConn = 500.
Hypothesis stay_300 : ac_stayDuration autoConn = Some 300.
Hypothesis traceOut_200 : ac_traceOutDuration autoConn = Some 200.
Hypothesis start_1000 : ac_startTime autoConn = 1000.

Lemma schedule_before clock :
  clock < 1000 ->
  visibleWindow autoConn (clock - ac_startTime autoConn) = None.
Proof.
  intros Hc. apply visibleWindow_none_of_phase. left.
  apply autoPhase_notStarted. rewrite start_1000. lra.
Qed.

Lemma schedule_after clock :
  2000 <= clock ->
  visibleWindow autoConn (clock - ac_startTime autoConn) = None.
Proof.
  intros Hc. apply visibleWindow_none_of_phase. right.
  apply (autoPhase_ended _ _ 300 200); try assumption;
    rewrite ?traceIn_500, ?start_1000; lra.
Qed.

Lemma schedule_start clock :
  clock == 1000 ->
  visibleWindow autoConn (clock - ac_startTime autoConn) = None.
Proof.
  intros Hc. unfold visibleWindow, phaseWindow.
  rewrite autoPhase_traceIn by (rewrite ?traceIn_500, ?start_1000; lra).
  rewrite traceIn_500, start_1000.
  assert (Hp : clamp ((clock - 1000) / 500) 0 1 == 0).
  { rewrite clamp_inside; qlra. }
  destruct (ac_traceInReverse autoConn); cbn [progressStart progressEnd].
  - rewrite (proj2 (Qle_bool_iff _ _)); [reflexivity|]. rewrite Hp. lra.
  - rewrite (proj2 (Qle_bool_iff _ _)); [reflexivity|]. rewrite Hp. lra.
Qed.

Lemma Qle_bool_false (x y : Q) : y < x -> Qle_bool x y = false.
Proof.
  intros Hlt. destruct (Qle_bool x y) eqn:E; [|reflexivity].
  apply Qle_bool_iff in E. lra.
Qed.

Lemma schedule_traceIn clock :
  1000 < clock -> clock < 1500 ->
  exists window,
    visibleWindow autoConn (clock - ac_startTime autoConn) = Some window
    /\ isTracing window = true
    /\ 0 <= progressStart window /\ progressEnd window <= 1
    /\ progressEnd window - progressStart window == (clock - 1000) / 500
    /\ (if ac_traceInReverse autoConn then progressEnd window == 1
        else progressStart window == 0).
Proof.
  intros H1 H2. unfold visibleWindow, phaseWindow.
  rewrite autoPhase_traceIn by (rewrite ?traceIn_500, ?start_1000; lra).
  rewrite traceIn_500, start_1000.
  assert (Hp : clamp ((clock - 1000) / 500) 0 1 == (clock - 1000) / 500)
    by (apply clamp_inside; qlra).
  assert (Hq : 0 < (clock - 1000) / 500 /\ (clock - 1000) / 500 < 1) by (split; qlra).
  destruct (ac_traceInReverse autoConn); cbn [progressStart progressEnd];
    (rewrite Qle_bool_false by (rewrite Hp; lra));
    eexists; (split; [reflexivity|]); cbn [progressStart progressEnd isTracing];
    rewrite ?Hp; repeat split; lra.
Qed.

Lemma schedule_stay clock :
  1500 <= clock -> clock < 1800 ->
  visibleWindow autoConn (clock - ac_startTime autoConn)
  = Some {| progressStart := 0; progressEnd := 1; isTracing := false |}.
Proof.
  intros H1 H2. unfold visibleWindow, phaseWindow.
  rewrite (autoPhase_stay _ _ 300)
    by (try assumption; rewrite ?traceIn_500, ?start_1000; lra).
  reflexivity.
Qed.

Lemma schedule_traceOut clock :
  1800 <= clock -> clock < 2000 ->
  exists window,
    visibleWindow autoConn (clock - ac_startTime autoConn) = Some window
    /\ isTracing window = true
    /\ 0 <= progressStart window /\ progressEnd window <= 1
    /\ progressEnd window - progressStart window == 1 - (clock - 1800) / 200
    /\ (if ac_traceOutReverse autoConn then progressStart window == 0
        else progressEnd window == 1).
Proof.
  intros H1 H2. unfold visibleWindow, phaseWindow.
  rewrite (autoPhase_traceOut _ _ 300 200)
    by (try assumption; rewrite ?traceIn_500, ?start_1000; lra).
  rewrite traceIn_500, start_1000.
  assert (Hp : clamp ((clock - 1000 - (500 + 300)) / 200) 0 1
               == (clock - 1800) / 200).
  { rewrite clamp_inside; qlra. }
  assert (Hq : 0 <= (clock - 1800) / 200 /\ (clock - 1800) / 200 < 1)
    by (split; qlra).
  destruct (ac_traceOutReverse autoConn); cbn [progressStart progressEnd];
    (rewrite Qle_bool_false by (rewrite Hp; lra));
    eexists; (split; [reflexivity|]); cbn [progressStart progressEnd isTracing];
    rewrite ?Hp; repeat split; lra.
Qed.

(** The claimed fraction, phase by phase. *)
Lemma claimedFraction_phases clock :
  (clock < 1000 -> claimedFraction clock == 0)
  /\ (1000 <= clock -> clock < 1500 ->
      claimedFraction clock == (clock - 1000) / 500
      /\ 0 <= claimedFraction clock /\ claimedFraction clock < 1)
  /\ (1500 <= clock -> clock < 1800 -> claimedFraction clock == 1)
  /\ (1800 <= clock -> clock < 2000 ->
      claimedFraction clock == 1 - (clock - 1800) / 200
      /\ 0 < claimedFraction clock /\ claimedFraction clock <= 1)
  /\ (2000 <= clock -> claimedFraction clock == 0).
Proof.
  unfold claimedFraction.
  destruct (Qlt_le_dec clock 1000); [repeat split; intros; try lra|].
  destruct (Qlt_le_dec clock 1500); [repeat split; intros; try qlra|].
  destruct (Qlt_le_dec clock 1800); [repeat split; intros; try qlra|].
  destruct (Qlt_le_dec clock 2000); repeat split; intros; try qlra.
Qed.

End Schedule.

(** C3. An auto-connection with trace-in 500, stay 300, trace-out 200 and
    start time 1000, alone in a render that returns, with a route of two
    cells or more.  The clock is the sum of the durations of the frames
    before the active one plus the playhead.  The render makes the calls
    of the render without the auto-connection and, between the
    connections and the dots, the calls [drawn] of the auto-connection.
    The fraction is 0 before 1000, [(clock - 1000) / 500] on [1000,1500)
    (in [0,1), strictly increasing), 1 on [1500,1800),
    [1 - (clock - 1800) / 200] on [1800,2000) (in (0,1], strictly
    decreasing) and 0 from 2000 on.  At the fraction 0 nothing is drawn.
    At a positive fraction the calls stroke the visible parts of the route
    between the lengths [total * a] and [total * b], where [b - a] is the
    fraction and the parts add up to the fraction of the length of the
    route; the window starts at 0 or ends at 1 as the phase and its
    reverse flag say, and no pen tip is drawn while the route stays. *)
Theorem auto_connection_phase_schedule (context : RenderContext)
  (st : FrameRenderState) (autoConn : AutoConnection)
  (cache : gmap string RgbaColor) (calls : list CanvasCmd)
  (first second : GridPosition) (rest : list GridPosition) :
  ac_traceInDuration autoConn = 500 ->
  ac_stayDuration autoConn = Some 300 ->
  ac_traceOutDuration autoConn = Some 200 ->
  ac_startTime autoConn = 1000 ->
  (forall x, 0 <= x -> 0 <= Math_sqrt x) ->
  fst (renderFrame context st (Some [autoConn]) cache) = Returned calls ->
  findPath {| pos_x := ac_fromX autoConn; pos_y := ac_fromY autoConn |}
           {| pos_x := ac_toX autoConn; pos_y := ac_toY autoConn |}
           (gridSize context) (buildObstacleSet (frame_dots (st_frame st)))
  = Some (first :: second :: rest) ->
  let clock := claimedClock st in
  let fraction := claimedFraction clock in
  let total := routeLength first (second :: rest) 0 in
  let color :=
    resolveColor (colors context) (ac_color autoConn) DEFAULT_CONNECTION_COLOR in
  exists before after drawn : list CanvasCmd,
    fst (renderFrame context st None cache) = Returned (before ++ after)
    /\ calls = before ++ drawn ++ after
    /\ (clock < 1000 -> fraction == 0)
    /\ (1000 <= clock -> clock < 1500 ->
        fraction == (clock - 1000) / 500 /\ 0 <= fraction /\ fraction < 1)
    /\ (1500 <= clock -> clock < 1800 -> fraction == 1)
    /\ (1800 <= clock -> clock < 2000 ->
        fraction == 1 - (clock - 1800) / 200 /\ 0 < fraction /\ fraction <= 1)
    /\ (2000 <= clock -> fraction == 0)
    /\ (forall c c', 1000 <= c -> c < c' -> c' < 1500 ->
          claimedFraction c < claimedFraction c')
    /\ (forall c c', 1800 <= c -> c < c' -> c' < 2000 ->
          claimedFraction c' < claimedFraction c)
    /\ (fraction == 0 -> drawn = [])
    /\ (0 < fraction ->
        exists (a b : Q) (pen : list CanvasCmd),
          0 <= a /\ a < b /\ b <= 1 /\ b - a == fraction
          /\ (clock < 1500 -> if ac_traceInReverse autoConn then b == 1 else a == 0)
          /\ (1500 <= clock -> clock < 1800 -> a == 0 /\ b == 1 /\ pen = [])
          /\ (1800 <= clock ->
              if ac_traceOutReverse autoConn then a == 0 else b == 1)
          /\ drawn
             = [ Save; SetStrokeStyle color; SetLineWidth (strokeWidth context);
                 SetLineCap "round"; BeginPath ]
               ++ claimedStroke context
                    (visibleParts (total * a) (total * b) first (second :: rest))
               ++ [ Stroke ] ++ pen ++ [ Restore ]
          /\ visibleLength
               (visibleParts (total * a) (total * b) first (second :: rest))
             == fraction * total).
Proof.
  intros Hin Hstay Hout Hstart Hsqrt Hret Hpath clock fraction total color.
  destruct (renderFrame_auto_block context st autoConn cache calls Hret)
    as (before & after & Hnone & ->).
  fold clock.
  set (obstacles := buildObstacleSet (frame_dots (st_frame st))) in *.
  exists before, after, (renderAutoConnection context obstacles clock autoConn).
  destruct (claimedFraction_phases clock) as (F0 & F1 & F2 & F3 & F4).
  fold fraction in F0, F1, F2, F3, F4.
  assert (Htotal : 0 <= total) by apply (routeLength_ge Hsqrt).
  split; [exact Hnone|]. split; [reflexivity|].
  split; [exact F0|]. split; [exact F1|]. split; [exact F2|].
  split; [exact F3|]. split; [exact F4|].
  split.
  { intros c c' H1 H2 H3.
    destruct (claimedFraction_phases c) as (_ & G & _).
    destruct (claimedFraction_phases c') as (_ & G' & _).
    destruct G as (-> & _); [lra|lra|]. destruct G' as (-> & _); [lra|lra|]. qlra. }
  split.
  { intros c c' H1 H2 H3.
    destruct (claimedFraction_phases c) as (_ & _ & _ & G & _).
    destruct (claimedFraction_phases c') as (_ & _ & _ & G' & _).
    destruct G as (-> & _); [lra|lra|]. destruct G' as (-> & _); [lra|lra|]. qlra. }
  split.
  - intros Hzero. apply renderAutoConnection_hidden.
    destruct (Qlt_le_dec clock 1000) as [Hlt|Hge];
      [now apply schedule_before|].
    destruct (Qlt_le_dec clock 1500) as [Hlt1|Hge1].
    { apply schedule_start; try assumption.
      destruct (F1 Hge Hlt1) as (Heq & _). rewrite Hzero in Heq. qlra. }
    destruct (Qlt_le_dec clock 1800) as [Hlt2|Hge2].
    { rewrite (F2 Hge1 Hlt2) in Hzero. lra. }
    destruct (Qlt_le_dec clock 2000) as [Hlt3|Hge3].
    { destruct (F3 Hge2 Hlt3) as (_ & Hpos & _). rewrite Hzero in Hpos. lra. }
    now apply schedule_after.
  - intros Hpos.
    assert (Hwindow : exists window,
               visibleWindow autoConn (clock - ac_startTime autoConn) = Some window
               /\ 0 <= progressStart window /\ progressEnd window <= 1
               /\ progressEnd window - progressStart window == fraction
               /\ (clock < 1500 ->
                   if ac_traceInReverse autoConn then progressEnd window == 1
                   else progressStart window == 0)
               /\ (1500 <= clock -> clock < 1800 ->
                   progressStart window == 0 /\ progressEnd window == 1
                   /\ isTracing window = false)
               /\ (1800 <= clock ->
                   if ac_traceOutReverse autoConn then progressStart window == 0
                   else progressEnd window == 1)).
    { destruct (Qlt_le_dec clock 1000) as [Hlt|Hge];
        [rewrite (F0 Hlt) in Hpos; lra|].
      destruct (Qlt_le_dec clock 1500) as [Hlt1|Hge1].
      { destruct (F1 Hge Hlt1) as (Heq & _).
        assert (Hgt : 1000 < clock) by (rewrite Heq in Hpos; qlra).
        destruct (schedule_traceIn autoConn Hin Hstart clock Hgt Hlt1)
          as (window & Hw & _ & Hs & He & Hwidth & Hflag).
        exists window. split; [exact Hw|]. split; [exact Hs|]. split; [exact He|].
        split; [now rewrite Hwidth, Heq|]. split; [now intros _|].
        split; intros; lra. }
      destruct (Qlt_le_dec clock 1800) as [Hlt2|Hge2].
      { eexists. split; [now apply schedule_stay|]. cbn [progressStart progressEnd isTracing].
        split; [lra|]. split; [lra|]. split; [rewrite (F2 Hge1 Hlt2); lra|].
        split; [intros; lra|]. split; [intros; repeat split; lra|]. intros; lra. }
      destruct (Qlt_le_dec clock 2000) as [Hlt3|Hge3];
        [|rewrite (F4 Hge3) in Hpos; lra].
      destruct (F3 Hge2 Hlt3) as (Heq & _).
      destruct (schedule_traceOut autoConn Hin Hstay Hout Hstart clock Hge2 Hlt3)
        as (window & Hw & _ & Hs & He & Hwidth & Hflag).
      exists window. split; [exact Hw|]. split; [exact Hs|]. split; [exact He|].
      split; [now rewrite Hwidth, Heq|]. split; [intros; lra|].
      split; [intros; lra|]. now intros _. }
    destruct Hwindow as (window & Hw & Hs & He & Hwidth & HflagIn & HflagStay
                         & HflagOut).
    rewrite (renderAutoConnection_visible context obstacles clock autoConn window
               first second rest Hw Hpath).
    fold total color.
    destruct (strokeRoute_shape Hsqrt context color (isTracing window) first
                (second :: rest) total (total * progressStart window)
                (total * progressEnd window)) as (pen & -> & Hpen).
    assert (Hlength : visibleLength
                        (visibleParts (total * progressStart window)
                           (total * progressEnd window) first (second :: rest))
                      == total * progressEnd window - total * progressStart window).
    { unfold visibleParts. rewrite (visibleLength_parts Hsqrt) by nra.
      fold total. minmax_cases; nra. }
    exists (progressStart window), (progressEnd window), pen.
    split; [exact Hs|]. split; [lra|]. split; [exact He|].
    split; [exact Hwidth|]. split; [exact HflagIn|].
    split.
    { intros H1 H2. destruct (HflagStay H1 H2) as (Ha & Hb & Htr).
      repeat split; [exact Ha|exact Hb|now apply Hpen]. }
    split; [exact HflagOut|]. split; [reflexivity|].
    rewrite Hlength, <- Hwidth. ring.
Qed.

(** *** Divisors *)

Lemma baseProgressDivisor_pos frame d :
  baseProgressDivisor frame = Some d -> d = frame_duration frame /\ 0 < d.
Proof.
  unfold baseProgressDivisor.
  destruct (Qlt_le_dec 0 (frame_duration frame)); [|discriminate].
  now intros [= <-].
Qed.

Lemma colorTransitionDivisor_pos frame d :
  colorTransitionDivisor frame = Some d ->
  d = colorTransitionDuration frame /\ 0 < d.
Proof.
  unfold colorTransitionDivisor.
  destruct (Qlt_le_dec 0 (colorTransitionDuration frame)); [|discriminate].
  now intros [= <-].
Qed.

Lemma autoPhase_traceIn_pos autoConn elapsed d :
  autoPhase autoConn elapsed = TraceIn d ->
  d = ac_traceInDuration autoConn /\ 0 <= elapsed /\ elapsed < d.
Proof.
  unfold autoPhase.
  destruct (Qlt_le_dec elapsed 0); [discriminate|].
  destruct (Qlt_le_dec elapsed (ac_traceInDuration autoConn)).
  - intros [= <-]. repeat split; lra.
  - destruct (nlt _ _); [discriminate|].
    destruct (ac_traceOutDuration autoConn); [|discriminate].
    destruct (nadd _ _); try discriminate.
    destruct (nlt _ _); discriminate.
Qed.

Lemma autoPhase_traceOut_pos autoConn elapsed stayEnd d :
  autoPhase autoConn elapsed = TraceOut stayEnd d ->
  ac_traceOutDuration autoConn = Some d
  /\ stayEnd <= elapsed /\ elapsed < stayEnd + d.
Proof.
  unfold autoPhase.
  destruct (Qlt_le_dec elapsed 0); [discriminate|].
  destruct (Qlt_le_dec elapsed (ac_traceInDuration autoConn)); [discriminate|].
  destruct (ac_stayDuration autoConn) as [stay|]; cbn [nadd].
  - destruct (nlt (Fin elapsed) _) eqn:E1; [discriminate|].
    apply nlt_Fin_false in E1.
    destruct (ac_traceOutDuration autoConn) as [traceOut|]; [|discriminate].
    cbn [nadd]. destruct (nlt (Fin elapsed) _) eqn:E2; [|discriminate].
    apply nlt_Fin in E2. intros [= <- <-]. repeat split; lra.
  - cbn [nlt]. discriminate.
Qed.

(** C4, as the code has it.  The durations the code passes through
    [Math.max(., 1)] are at least 1 where they divide: the fade-in and
    fade-out durations of a dot, the duration the progress of a revealed
    segment divides by, and the fade-out duration of a connection that
    takes the frame default (its group gives no fade-out duration).  The
    frame duration, the colour-transition duration and the trace-in and
    trace-out durations of an auto-connection are not clamped: each
    divides as it is, behind a test that lets the division happen only
    when it is positive. *)
Theorem divisors_positive :
  (forall frame dotToGroup dot,
     1 <= dotFadeInDurationOf frame dotToGroup dot
     /\ 1 <= dotFadeOutDurationOf frame dotToGroup dot)
  /\ (forall segmentDuration, 1 <= segmentProgressDivisor segmentDuration)
  /\ (forall frame connectionToGroup connection,
        groupOverride ov_fadeOutDuration (connectionToGroup !! conn_id connection)
        = None ->
        1 <= connectionFadeOutDuration connectionToGroup (fadeOutDefaultOf frame)
               connection)
  /\ (forall frame d,
        baseProgressDivisor frame = Some d -> d = frame_duration frame /\ 0 < d)
  /\ (forall frame d,
        colorTransitionDivisor frame = Some d ->
        d = colorTransitionDuration frame /\ 0 < d)
  /\ (forall autoConn elapsed d,
        autoPhase autoConn elapsed = TraceIn d ->
        d = ac_traceInDuration autoConn /\ 0 < d)
  /\ (forall autoConn elapsed stayEnd d,
        autoPhase autoConn elapsed = TraceOut stayEnd d ->
        ac_traceOutDuration autoConn = Some d /\ 0 < d).
Proof.
  repeat apply conj.
  - intros frame groups dot. apply dotFadeDurations_ge_1.
  - intros d. unfold segmentProgressDivisor. minmax_cases; lra.
  - intros frame groups connection Hnone.
    unfold connectionFadeOutDuration. rewrite Hnone. simpl.
    unfold fadeOutDefaultOf. minmax_cases; lra.
  - exact baseProgressDivisor_pos.
  - exact colorTransitionDivisor_pos.
  - intros autoConn elapsed d Hphase.
    destruct (autoPhase_traceIn_pos _ _ _ Hphase) as (Hd & H0 & H1).
    split; [exact Hd|lra].
  - intros autoConn elapsed stayEnd d Hphase.
    destruct (autoPhase_traceOut_pos _ _ _ _ Hphase) as (Hd & H0 & H1).
    split; [exact Hd|lra].
Qed.

End Scheduler.

Lemma sampleSqrt_nonneg (x : Q) : (0 <= x -> 0 <= sampleSqrt x)%Q.
Proof.
  intros Hx. unfold sampleSqrt.
  destruct (Qeq_bool x 0); [apply Qle_refl|].
  destruct (Qeq_bool x 1); [discriminate|].
  destruct (Qeq_bool x 2); [discriminate|exact Hx].
Qed.

Lemma auto_connection_phase_schedule_witness :
  exists (before after pen : list CanvasCmd) (a b : Q),
    fst (renderFrame (H := sampleRuntime) sampleContext scheduleState
           (Some [scheduleExample]) ∅)
    = Returned
        (before
         ++ ([ Save; SetStrokeStyle "#f97316"; SetLineWidth 2; SetLineCap "round";
               BeginPath ]
             ++ claimedStroke (H := sampleRuntime) sampleContext
                  (visibleParts (H := sampleRuntime)
                     ((SQRT2 + SQRT2 + SQRT2) * a) ((SQRT2 + SQRT2 + SQRT2) * b)
                     (cell 0 0) [cell 1 1; cell 2 2; cell 3 3])
             ++ [ Stroke ] ++ pen ++ [ Restore ])
         ++ after)
    /\ (a == 0)%Q /\ (b - a == (1250 - 1000) / 500)%Q.
Proof.
  pose (calls := callsOf (fst (renderFrame (H := sampleRuntime) sampleContext
                                 scheduleState (Some [scheduleExample]) ∅))).
  assert (Hret : fst (renderFrame (H := sampleRuntime) sampleContext scheduleState
                        (Some [scheduleExample]) ∅) = Returned calls)
    by (vm_compute; reflexivity).
  destruct (auto_connection_phase_schedule (H := sampleRuntime) sampleContext
              scheduleState scheduleExample ∅ calls
              (cell 0 0) (cell 1 1) [cell 2 2; cell 3 3]
              eq_refl eq_refl eq_refl eq_refl sampleSqrt_nonneg Hret
              ltac:(vm_compute; reflexivity))
    as (before & after & drawn & _ & Hcalls & _ & Hin & _ & _ & _ & _ & _ & _
        & Hdrawn).
  destruct (Hin ltac:(vm_compute; discriminate) ltac:(vm_compute; reflexivity))
    as (Hfraction & _).
  destruct (Hdrawn ltac:(vm_compute; reflexivity))
    as (a & b & pen & _ & _ & _ & Hwidth & Hflag & _ & _ & -> & _).
  exists before, after, pen, a, b. split; [|split].
  - rewrite Hret, Hcalls. reflexivity.
  - exact (Hflag ltac:(vm_compute; reflexivity)).
  - now rewrite Hwidth, Hfraction.
Defined.

(** C4 as stated fails.  A quarter of a millisecond into the trace-in of
    [quickTrace] the scheduler divides by the trace-in duration 1/2, so
    that half of the route is shown, not a quarter; in its trace-out it
    divides by the trace-out duration 1/2; and on [quickColorFrame] the
    progress of the frame and of the colour transition divide by 1/2.
    None of the four divisors was raised to 1. *)
Lemma divisor_below_one :
  ~ (forall (autoConn : AutoConnection) (elapsed d : Q),
       autoPhase autoConn elapsed = TraceIn d -> (1 <= d)%Q)
  /\ autoPhase quickTrace (1 # 4)%Q = TraceIn (1 # 2)%Q
  /\ (exists window,
        phaseWindow quickTrace (1 # 4)%Q = Some window
        /\ (progressEnd window == 1 # 2)%Q)
  /\ autoPhase quickTrace (7 # 4)%Q = TraceOut ((1 # 2) + 1)%Q (1 # 2)%Q
  /\ colorTransitionDivisor quickColorFrame = Some (1 # 2)%Q
  /\ baseProgressDivisor quickColorFrame = Some (1 # 2)%Q
  /\ baseProgress quickColorFrame (1 # 4)%Q = clamp ((1 # 4) / (1 # 2)) 0 1.
Proof.
  assert (Hphase : autoPhase quickTrace (1 # 4)%Q = TraceIn (1 # 2)%Q) by reflexivity.
  split; [|repeat split; try reflexivity].
  - intros Hall. specialize (Hall _ _ _ Hphase). now apply Hall.
  - eexists. split; reflexivity.
Qed.
(* ================================================================== *)
(** * Ordering connections and grouping them into paths (C8) *)

Section PathOrdering.
Context `{JsRuntime}.

(** Where the insertion puts the connection: after the connections of
    smaller [order] at the head of the list. *)
Lemma insertByOrder_split c l :
  exists l1 l2,
    l = l1 ++ l2 /\ insertByOrder c l = l1 ++ c :: l2
    /\ Forall (fun d => (conn_order d < conn_order c)%Z) l1
    /\ match l2 with
       | [] => True
       | d :: _ => (conn_order c <= conn_order d)%Z
       end.
Proof.
  induction l as [|d rest IH]; simpl.
  - exists [], []. repeat split; constructor.
  - destruct (conn_order c <=? conn_order d)%Z eqn:E.
    + exists [], (d :: rest). repeat split; [constructor|]. now apply Z.leb_le.
    + destruct IH as (l1 & l2 & -> & -> & Hall & Hhead).
      exists (d :: l1), l2. repeat split; [|exact Hhead].
      constructor; [|exact Hall]. apply Z.leb_gt in E. lia.
Qed.

Lemma insertByOrder_perm c l : Permutation (insertByOrder c l) (c :: l).
Proof.
  destruct (insertByOrder_split c l) as (l1 & l2 & -> & -> & _).
  symmetry. apply Permutation_middle.
Qed.

Lemma sortByOrder_perm l : Permutation (sortByOrder l) l.
Proof.
  induction l as [|c rest IH]; simpl; [constructor|].
  rewrite insertByOrder_perm. now constructor.
Qed.

Lemma insertByOrder_sorted c l :
  StronglySorted orderLe l -> StronglySorted orderLe (insertByOrder c l).
Proof.
  induction 1 as [|d rest Hs IH Hall]; simpl.
  - repeat constructor.
  - destruct (conn_order c <=? conn_order d)%Z eqn:E.
    + apply Z.leb_le in E. constructor; [now constructor|].
      constructor; [exact E|].
      eapply Forall_impl; [exact Hall|]. unfold orderLe. intros; lia.
    + apply Z.leb_gt in E. constructor; [exact IH|].
      rewrite (insertByOrder_perm c rest).
      constructor; [unfold orderLe; lia|exact Hall].
Qed.

Lemma sortByOrder_sorted l : StronglySorted orderLe (sortByOrder l).
Proof.
  induction l; simpl; [constructor|now apply insertByOrder_sorted].
Qed.

Lemma filter_none_below (k : Z) (c : DotPlayerConnection) l :
  conn_order c = k ->
  Forall (fun d => (conn_order d < conn_order c)%Z) l ->
  List.filter (hasOrder k) l = [].
Proof.
  intros Hk. induction 1 as [|d rest Hd _ IH]; simpl; [reflexivity|].
  unfold hasOrder at 1. destruct (Z.eqb_spec (conn_order d) k); [lia|exact IH].
Qed.

(** The insertion keeps the connections of equal [order] in the order
    they had: the sort is stable. *)
Lemma insertByOrder_stable k c l :
  List.filter (hasOrder k) (insertByOrder c l) = List.filter (hasOrder k) (c :: l).
Proof.
  destruct (insertByOrder_split c l) as (l1 & l2 & -> & -> & Hall & _).
  simpl. rewrite !List.filter_app. simpl.
  destruct (hasOrder k c) eqn:E; [|reflexivity].
  apply Z.eqb_eq in E. now rewrite (filter_none_below k c l1 E Hall).
Qed.

Lemma sortByOrder_stable k l :
  List.filter (hasOrder k) (sortByOrder l) = List.filter (hasOrder k) l.
Proof.
  induction l as [|c rest IH]; simpl; [reflexivity|].
  rewrite insertByOrder_stable. simpl. now rewrite IH.
Qed.

Lemma ensureFrameOrder_numbers l :
  map conn_order (ensureFrameOrder l) = map Z.of_nat (seq 0 (length l)).
Proof.
  unfold ensureFrameOrder.
  rewrite <- (Permutation_length (sortByOrder_perm l)).
  generalize (sortByOrder l). intros sorted.
  apply list_eq. intros i.
  rewrite !list_lookup_fmap, list_lookup_imap.
  destruct (sorted !! i) as [c|] eqn:E; simpl.
  - rewrite lookup_seq_lt; [reflexivity|]. now apply lookup_lt_Some in E.
  - rewrite lookup_seq_ge; [reflexivity|]. now apply lookup_ge_None in E.
Qed.

(** The six arrangements of three items. *)
Lemma Permutation_three {A} (a b c : A) (l : list A) :
  Permutation l [a; b; c] ->
  l = [a; b; c] \/ l = [a; c; b] \/ l = [b; a; c]
  \/ l = [b; c; a] \/ l = [c; a; b] \/ l = [c; b; a].
Proof.
  intros Hp.
  destruct (Permutation_vs_cons_inv Hp) as (l1 & l2 & ->).
  symmetry in Hp. apply Permutation_cons_app_inv in Hp.
  apply Permutation_length_2_inv in Hp as [Hl|Hl].
  - destruct l1 as [|x [|y [|z l1]]]; simpl in Hl; simplify_eq; auto.
  - destruct l1 as [|x [|y [|z l1]]]; simpl in Hl; simplify_eq; auto 10.
Qed.

Section ThreeChained.
Variables c0 c1 c2 : DotPlayerConnection.
Variables from0 to0 from1 to1 from2 to2 : DotPlayerDot.
Variable dotMap : gmap string DotPlayerDot.
Hypothesis order0 : conn_order c0 = 0.
Hypothesis order1 : conn_order c1 = 1.
Hypothesis order2 : conn_order c2 = 2.
Hypothesis resolve_from0 : dotMap !! conn_from c0 = Some from0.
Hypothesis resolve_to0 : dotMap !! conn_to c0 = Some to0.
Hypothesis resolve_from1 : dotMap !! conn_from c1 = Some from1.
Hypothesis resolve_to1 : dotMap !! conn_to c1 = Some to1.
Hypothesis resolve_from2 : dotMap !! conn_from c2 = Some from2.
Hypothesis resolve_to2 : dotMap !! conn_to c2 = Some to2.
Hypothesis chain01 :
  sharesEndpoint (makeSegment c0 from0 to0) (makeSegment c1 from1 to1) = true.
Hypothesis chain12 :
  sharesEndpoint (makeSegment c1 from1 to1) (makeSegment c2 from2 to2) = true.

Lemma sort_three input :
  Permutation input [c2; c0; c1] -> sortByOrder input = [c0; c1; c2].
Proof.
  intros Hp.
  destruct (Permutation_three _ _ _ _ Hp) as [-> | [-> | [-> | [-> | [-> | ->]]]]];
    simpl; rewrite ?order0, ?order1, ?order2; simpl;
    rewrite ?order0, ?order1, ?order2; reflexivity.
Qed.

Lemma withOrder_same c k : conn_order c = k -> withOrder c k = c.
Proof. intros <-. now destruct c. Qed.

(** C8. Three connections with [order] values 0, 1 and 2, whose
    endpoints are dots of the frame, the one of order 0 sharing an
    endpoint position with the one of order 1 and that one with the one
    of order 2, are supplied as any arrangement of the array carrying the
    orders [2, 0, 1]: [buildConnectionPaths] returns exactly one path,
    holding the three segments in the order 0, 1, 2.  In general the sort
    of [ensureFrameOrder] is a permutation of the input, ascending in
    [order] and stable, its result is numbered 0, 1, 2, ... and the paths
    are grouped from that list. *)
Theorem three_chained_one_path (input : list DotPlayerConnection) :
  Permutation input [c2; c0; c1] ->
  buildConnectionPaths input dotMap
  = [ [ makeSegment c0 from0 to0; makeSegment c1 from1 to1;
        makeSegment c2 from2 to2 ] ]
  /\ map conn_order (ensureFrameOrder input) = [0; 1; 2]
  /\ (forall (connections : list DotPlayerConnection),
        Permutation (sortByOrder connections) connections
        /\ StronglySorted orderLe (sortByOrder connections)
        /\ (forall k, List.filter (hasOrder k) (sortByOrder connections)
                      = List.filter (hasOrder k) connections)
        /\ ensureFrameOrder connections
           = imap (fun index connection => withOrder connection (Z.of_nat index))
                  (sortByOrder connections)
        /\ map conn_order (ensureFrameOrder connections)
           = map Z.of_nat (seq 0 (length connections))
        /\ forall dots,
             buildConnectionPaths connections dots
             = let (paths, currentPath) :=
                 fold_left (pathStep dots) (ensureFrameOrder connections) ([], []) in
               pushPath paths currentPath).
Proof.
  intros Hp. split; [|split].
  - unfold buildConnectionPaths, ensureFrameOrder.
    rewrite (sort_three input Hp).
    change (imap _ [c0; c1; c2])
      with [withOrder c0 0; withOrder c1 1; withOrder c2 2].
    rewrite (withOrder_same c0 0 order0), (withOrder_same c1 1 order1),
      (withOrder_same c2 2 order2).
    simpl. rewrite resolve_from0, resolve_to0.
    unfold pathStep at 2. rewrite resolve_from1, resolve_to1. simpl.
    rewrite chain01.
    unfold pathStep. rewrite resolve_from2, resolve_to2. simpl.
    rewrite chain12. reflexivity.
  - unfold ensureFrameOrder. rewrite (sort_three input Hp). reflexivity.
  - intros connections. repeat split.
    + apply sortByOrder_perm.
    + apply sortByOrder_sorted.
    + intros k. apply sortByOrder_stable.
    + apply ensureFrameOrder_numbers.
Qed.

End ThreeChained.

End PathOrdering.

Lemma three_chained_one_path_witness :
  buildConnectionPaths
    [chainConnection "cd" "C" "D" 2; chainConnection "ab" "A" "B" 0;
     chainConnection "bc" "B" "C" 1] chainMap
  = [ [ makeSegment (chainConnection "ab" "A" "B" 0) (chainDot "A" 0 0) (chainDot "B" 1 0);
        makeSegment (chainConnection "bc" "B" "C" 1) (chainDot "B" 1 0) (chainDot "C" 1 1);
        makeSegment (chainConnection "cd" "C" "D" 2) (chainDot "C" 1 1) (chainDot "D" 2 1) ] ].
Proof.
  refine (proj1 (three_chained_one_path (H := sampleRuntime)
                   (chainConnection "ab" "A" "B" 0) (chainConnection "bc" "B" "C" 1)
                   (chainConnection "cd" "C" "D" 2)
                   (chainDot "A" 0 0) (chainDot "B" 1 0)
                   (chainDot "B" 1 0) (chainDot "C" 1 1)
                   (chainDot "C" 1 1) (chainDot "D" 2 1)
                   chainMap eq_refl eq_refl eq_refl _ _ _ _ _ _ eq_refl eq_refl
                   _ (Permutation_refl _)));
    vm_compute; reflexivity.
Defined.

(* ================================================================== *)
(** * The colour cache does not show in the output (C1) *)

Section CacheIndependence.
Context `{JsRuntime}.

Lemma cacheConsistent_empty : cacheConsistent ∅.
Proof. intros key color Hl. now rewrite lookup_empty in Hl. Qed.

Lemma stable_ret {A} (a : A) : stable (ret a).
Proof. split; intros; [assumption|reflexivity]. Qed.

Lemma stable_bind {A B} (m : Cached A) (k : A -> Cached B) :
  stable m -> (forall a, stable (k a)) -> stable (bind m k).
Proof.
  intros [Hm1 Hm2] Hk. split.
  - intros cache Hc. unfold bind. specialize (Hm1 cache Hc).
    destruct (m cache) as [a cache1]. now apply (Hk a).
  - intros cache cache' Hc Hc'. unfold bind.
    pose proof (Hm1 cache Hc) as H1. pose proof (Hm1 cache' Hc') as H1'.
    specialize (Hm2 cache cache' Hc Hc').
    destruct (m cache) as [a cache1], (m cache') as [a' cache1'].
    simpl in *. subst a'. now apply (Hk a).
Qed.

(** On a consistent cache a hit returns what the parse would. *)
Lemma parseColor_result value cache :
  cacheConsistent cache ->
  fst (parseColor value cache) = parseUncached (String_trim value).
Proof.
  intros Hc. unfold parseColor.
  destruct (cache !! String_trim value) as [cached|] eqn:E; simpl.
  - symmetry. now apply Hc.
  - now destruct (parseUncached (String_trim value)).
Qed.

Lemma stable_parseColor value : stable (parseColor value).
Proof.
  split.
  - intros cache Hc. unfold parseColor.
    destruct (cache !! String_trim value) as [cached|] eqn:E; [exact Hc|].
    destruct (parseUncached (String_trim value)) as [parsed|] eqn:P; [|exact Hc].
    simpl. intros key color Hl.
    destruct (decide (String_trim value = key)) as [<-|Hne].
    + rewrite lookup_insert_eq in Hl. congruence.
    + rewrite lookup_insert_ne in Hl by exact Hne. now apply Hc.
  - intros cache cache' Hc Hc'. now rewrite !parseColor_result.
Qed.

Lemma stable_mixColors from to amount : stable (mixColors from to amount).
Proof.
  unfold mixColors.
  apply stable_bind; [apply stable_parseColor|]. intros fromColor.
  apply stable_bind; [apply stable_parseColor|]. intros toColor.
  destruct fromColor, toColor; try apply stable_ret.
  destruct (nclamp amount (Fin 0) (Fin 1)); apply stable_ret.
Qed.

Lemma stable_dotFillColor context prev prevColors ctp dot :
  stable (dotFillColor context prev prevColors ctp dot).
Proof.
  unfold dotFillColor.
  destruct (dotIsNew prev dot); [apply stable_ret|].
  destruct (prevColors !! dotKey dot) as [prevColorRef|]; [|apply stable_ret].
  destruct (prevColorRef =? dot_color dot)%Z; [apply stable_ret|].
  apply stable_bind; [apply stable_mixColors|]. intros blended. apply stable_ret.
Qed.

Lemma stable_renderDot context frame prev next prevColors eased stagger
  fadeOutDefault ctp groups i dot :
  stable (renderDot context frame prev next prevColors eased stagger
            fadeOutDefault ctp groups i dot).
Proof.
  unfold renderDot. destruct (nle _ (Fin 0)); [apply stable_ret|].
  apply stable_bind; [apply stable_dotFillColor|]. intros fill. apply stable_ret.
Qed.

Lemma stable_forEachIndexed {A} (body : nat -> A -> Cached (list CanvasCmd))
  (items : list A) (start : nat) :
  (forall i item, stable (body i item)) ->
  stable (forEachIndexed body start items).
Proof.
  intros Hbody. revert start.
  induction items as [|item rest IH]; intros start; simpl; [apply stable_ret|].
  apply stable_bind; [apply Hbody|]. intros out.
  apply stable_bind; [apply IH|]. intros outs. apply stable_ret.
Qed.

Lemma stable_renderFrame context st autoConnections :
  stable (renderFrame context st autoConnections).
Proof.
  unfold renderFrame.
  destruct (easedTime _ _) as [eased|]; [|apply stable_ret].
  destruct (colorTransitionProgressOf _ _) as [ctp|]; [|apply stable_ret].
  destruct (renderAutoPass _ _ _) as [autos|]; [|apply stable_ret].
  apply stable_bind; [|intros dots; apply stable_ret].
  unfold renderDots. apply stable_forEachIndexed.
  intros i dot. apply stable_renderDot.
Qed.

Lemma cacheAfter_consistent history : cacheConsistent (cacheAfter history).
Proof.
  unfold cacheAfter. generalize cacheConsistent_empty.
  generalize (∅ : gmap string RgbaColor).
  induction history as [|[[context st] autoConnections] rest IH];
    intros cache Hc; simpl; [exact Hc|].
  apply IH. now apply (stable_renderFrame context st autoConnections).
Qed.

(** C1. The calls [renderFrame] emits, and whether it returns or throws,
    are a function of its arguments: whatever calls were made before
    (they leave their parses in the colour cache), the same arguments give
    the same sequence of calls as on the empty cache the module starts
    with; more generally the outcome is the same from any two caches whose
    entries are parses of their keys, and a call leaves such a cache
    behind. *)
Theorem renderFrame_deterministic :
  (forall (history history' : list RenderCall) (context : RenderContext)
          (st : FrameRenderState) (autoConnections : option (list AutoConnection)),
     fst (renderFrame context st autoConnections (cacheAfter history))
     = fst (renderFrame context st autoConnections ∅)
     /\ fst (renderFrame context st autoConnections (cacheAfter history))
        = fst (renderFrame context st autoConnections (cacheAfter history')))
  /\ (forall context st autoConnections, stable (renderFrame context st autoConnections)).
Proof.
  split; [|exact stable_renderFrame].
  intros history history' context st autoConnections.
  split; apply stable_renderFrame;
    auto using cacheAfter_consistent, cacheConsistent_empty.
Qed.

End CacheIndependence.

(** After that call the cache holds the two parses, the next call hits
    them, and the blended fill colour it emits is the one computed on the
    empty cache. *)
Example cache_filled_and_unseen :
  let earlier := [(sampleContext, blendState, None)] in
  cacheAfter (H := sampleRuntime) earlier !! "#0f1f1c"
  = Some {| rgba_r := 15; rgba_g := 31; rgba_b := 28; rgba_a := 1 |}
  /\ cacheAfter (H := sampleRuntime) earlier !! "#f97316"
     = Some {| rgba_r := 249; rgba_g := 115; rgba_b := 22; rgba_a := 1 |}
  /\ SetFillStyle "rgba(132, 73, 25, 1)"
     ∈ callsOf (fst (renderFrame (H := sampleRuntime) sampleContext blendState None
                       (cacheAfter (H := sampleRuntime) earlier)))
  /\ fst (renderFrame (H := sampleRuntime) sampleContext blendState None
            (cacheAfter (H := sampleRuntime) earlier))
     = fst (renderFrame (H := sampleRuntime) sampleContext blendState None ∅).
Proof.
  repeat split; try (vm_compute; reflexivity).
  apply list_elem_of_In. vm_compute. tauto.
Qed.

(* ================================================================== *)
(** * Connections with a missing endpoint (C9) *)

Section MissingEndpoint.
Context `{JsRuntime}.

Variable frame : DotPlayerFrame.
Variables (before after : list DotPlayerConnection) (broken : DotPlayerConnection).
Hypothesis connections_split : frame_connections frame = before ++ broken :: after.
Hypothesis broken_dangling : dangling frame broken.

Let frame' : DotPlayerFrame := withConnections frame (before ++ after).

Lemma broken_unresolved {A} (k : DotPlayerDot -> DotPlayerDot -> A) (d : A) :
  match deriveDotMap (frame_dots frame) !! conn_from broken,
        deriveDotMap (frame_dots frame) !! conn_to broken with
  | Some from, Some to => k from to
  | _, _ => d
  end = d.
Proof.
  destruct broken_dangling as [-> | ->]; [reflexivity|].
  now destruct (deriveDotMap (frame_dots frame) !! conn_from broken).
Qed.

Lemma renderExistingConnection_broken context prev next eased fadeOutDefault groups :
  renderExistingConnection context frame (deriveDotMap (frame_dots frame))
    prev next eased fadeOutDefault groups broken = [].
Proof. unfold renderExistingConnection. apply broken_unresolved. Qed.

Lemma isNewConnection_broken prev :
  isNewConnection (deriveDotMap (frame_dots frame)) prev broken = false.
Proof. unfold isNewConnection. apply broken_unresolved. Qed.

Lemma pathStep_broken state :
  pathStep (deriveDotMap (frame_dots frame)) state broken = state.
Proof. unfold pathStep. destruct state. apply broken_unresolved. Qed.

Lemma keySet_without :
  deriveConnectionKeySet (Some frame') = deriveConnectionKeySet (Some frame).
Proof.
  unfold deriveConnectionKeySet, frame'. simpl. rewrite connections_split.
  rewrite !fold_left_app. simpl. now rewrite broken_unresolved.
Qed.

Lemma renderExistingConnections_without context prev next eased fadeOutDefault groups :
  renderExistingConnections context frame' (deriveDotMap (frame_dots frame))
    prev next eased fadeOutDefault groups
  = renderExistingConnections context frame (deriveDotMap (frame_dots frame))
      prev next eased fadeOutDefault groups.
Proof.
  unfold renderExistingConnections.
  change (frame_connections frame') with (before ++ after).
  change (renderExistingConnection context frame')
    with (renderExistingConnection context frame).
  rewrite connections_split, !flat_map_app. simpl.
  now rewrite renderExistingConnection_broken.
Qed.

Lemma renderAnimatingConnections_without context prev next eased fadeOutDefault groups :
  renderAnimatingConnections context frame' (deriveDotMap (frame_dots frame))
    prev next eased fadeOutDefault groups
  = renderAnimatingConnections context frame (deriveDotMap (frame_dots frame))
      prev next eased fadeOutDefault groups.
Proof.
  unfold renderAnimatingConnections.
  change (frame_connections frame') with (before ++ after).
  change (renderPath context frame') with (renderPath context frame).
  rewrite connections_split, !List.filter_app. simpl.
  now rewrite isNewConnection_broken.
Qed.

Lemma sameAsNeighbour_refl o : sameAsNeighbour o o.
Proof. destruct o; simpl; auto. Qed.

Lemma sameAsNeighbour_without : sameAsNeighbour (Some frame') (Some frame).
Proof. simpl. split; [reflexivity|]. split; [apply keySet_without|reflexivity]. Qed.

Lemma neighboursAgree_refl frames : neighboursAgree frames frames.
Proof. intros i. apply sameAsNeighbour_refl. Qed.

Lemma neighboursAgree_insert frames (n : nat) :
  frames !! n = Some frame -> neighboursAgree frames (<[n := frame']> frames).
Proof.
  intros Hn i. unfold frameAt. destruct (i <? 0)%Z; [exact I|].
  destruct (decide (n = Z.to_nat i)) as [->|Hne].
  - rewrite list_lookup_insert_eq by (now apply lookup_lt_Some in Hn).
    rewrite Hn. apply sameAsNeighbour_without.
  - rewrite list_lookup_insert_ne by exact Hne. apply sameAsNeighbour_refl.
Qed.

Section Neighbours.
Variable st : FrameRenderState.
Variable frames' : list DotPlayerFrame.
Hypothesis active : st_frame st = frame.
Hypothesis agree : neighboursAgree (st_frames st) frames'.

Let st' : FrameRenderState := withFrame st frame' frames'.

Lemma prevFrameOf_agree : sameAsNeighbour (prevFrameOf st') (prevFrameOf st).
Proof.
  unfold prevFrameOf, st'. simpl.
  destruct (st_frameIndex st - 1 >=? 0)%Z; [apply agree|].
  destruct (loopPlayback (st_settings st)); [apply agree|exact I].
Qed.

Lemma nextFrameOf_agree : sameAsNeighbour (nextFrameOf st') (nextFrameOf st).
Proof.
  unfold nextFrameOf, st'. simpl.
  destruct (st_frameIndex st + 1 <=? st_totalFrames st - 1)%Z; [apply agree|].
  destruct (loopPlayback (st_settings st)); [apply agree|exact I].
Qed.

Lemma prevConnectionKeysOf_without : prevConnectionKeysOf st' = prevConnectionKeysOf st.
Proof.
  pose proof prevFrameOf_agree as Hn.
  unfold prevConnectionKeysOf.
  change (st_frame st') with frame'. rewrite active.
  change (frame_animateConnections frame') with (frame_animateConnections frame).
  change (isFirst st') with (isFirst st).
  change (st_settings st') with (st_settings st).
  rewrite keySet_without.
  destruct (prevFrameOf st') as [f|], (prevFrameOf st) as [g|];
    unfold sameAsNeighbour in Hn; try contradiction;
    [destruct Hn as (_ & -> & _)|]; reflexivity.
Qed.

Lemma nextConnectionKeysOf_without : nextConnectionKeysOf st' = nextConnectionKeysOf st.
Proof.
  pose proof nextFrameOf_agree as Hn.
  unfold nextConnectionKeysOf.
  change (st_frame st') with frame'. rewrite active.
  change (frame_animateConnections frame') with (frame_animateConnections frame).
  change (isLast st') with (isLast st).
  change (st_settings st') with (st_settings st).
  rewrite keySet_without.
  destruct (nextFrameOf st') as [f|], (nextFrameOf st) as [g|];
    unfold sameAsNeighbour in Hn; try contradiction;
    [destruct Hn as (_ & -> & _)|]; reflexivity.
Qed.

Lemma prevDotPositionsOf_without : prevDotPositionsOf st' = prevDotPositionsOf st.
Proof.
  pose proof prevFrameOf_agree as Hn.
  unfold prevDotPositionsOf.
  change (st_frame st') with frame'. rewrite active.
  change (frame_animateDots frame') with (frame_animateDots frame).
  change (frame_dots frame') with (frame_dots frame).
  change (isFirst st') with (isFirst st).
  change (st_settings st') with (st_settings st).
  destruct (prevFrameOf st') as [f|], (prevFrameOf st) as [g|];
    unfold sameAsNeighbour in Hn; try contradiction;
    [destruct Hn as (-> & _)|]; reflexivity.
Qed.

Lemma nextDotPositionsOf_without : nextDotPositionsOf st' = nextDotPositionsOf st.
Proof.
  pose proof nextFrameOf_agree as Hn.
  unfold nextDotPositionsOf.
  change (st_frame st') with frame'. rewrite active.
  change (frame_animateDots frame') with (frame_animateDots frame).
  change (frame_dots frame') with (frame_dots frame).
  change (isLast st') with (isLast st).
  change (st_settings st') with (st_settings st).
  destruct (nextFrameOf st') as [f|], (nextFrameOf st) as [g|];
    unfold sameAsNeighbour in Hn; try contradiction;
    [destruct Hn as (-> & _)|]; reflexivity.
Qed.

Lemma prevDotColorsOf_without : prevDotColorsOf st' = prevDotColorsOf st.
Proof.
  pose proof prevFrameOf_agree as Hn.
  unfold prevDotColorsOf.
  change (st_frame st') with frame'. rewrite active.
  change (isFirst st') with (isFirst st).
  change (st_settings st') with (st_settings st).
  change (deriveDotColorMap (Some frame')) with (deriveDotColorMap (Some frame)).
  destruct (prevFrameOf st') as [f|], (prevFrameOf st) as [g|];
    unfold sameAsNeighbour in Hn; try contradiction;
    [destruct Hn as (Hd & _)|]; [|reflexivity].
  unfold deriveDotColorMap. now rewrite Hd.
Qed.

Lemma durations_agree :
  map frame_duration frames' = map frame_duration (st_frames st).
Proof.
  apply list_eq. intros j. rewrite !list_lookup_fmap.
  pose proof (agree (Z.of_nat j)) as Hj. unfold frameAt in Hj.
  destruct (Z.of_nat j <? 0)%Z eqn:E; [apply Z.ltb_lt in E; lia|].
  rewrite Nat2Z.id in Hj.
  destruct (frames' !! j) as [f|], (st_frames st !! j) as [g|];
    unfold sameAsNeighbour in Hj; try contradiction; [|reflexivity].
  destruct Hj as (_ & _ & Hd). simpl. now rewrite Hd.
Qed.

Lemma cumulativeTimeOf_durations frames frameIndex playhead :
  cumulativeTimeOf frames frameIndex playhead
  = if (Z.of_nat (length (map frame_duration frames)) <? frameIndex)%Z then None
    else Some (fold_left Qplus
                 (take (Z.to_nat frameIndex) (map frame_duration frames)) 0
               + playhead)%Q.
Proof.
  unfold cumulativeTimeOf. rewrite length_map.
  destruct (_ <? _)%Z; [reflexivity|]. f_equal. f_equal.
  change (map frame_duration frames) with (frame_duration <$> frames).
  rewrite <- fmap_take.
  generalize (take (Z.to_nat frameIndex) frames) 0%Q.
  induction l as [|f rest IH]; intros acc; simpl; [reflexivity|apply IH].
Qed.

Lemma cumulativeTimeOf_without :
  cumulativeTimeOf frames' (st_frameIndex st) (st_playhead st)
  = cumulativeTimeOf (st_frames st) (st_frameIndex st) (st_playhead st).
Proof. now rewrite !cumulativeTimeOf_durations, durations_agree. Qed.

(** Without the dangling connection the render has the same outcome. *)
Lemma renderFrame_without context autoConnections cache :
  renderFrame context st' autoConnections cache
  = renderFrame context st autoConnections cache.
Proof.
  unfold renderFrame, renderConnections, renderAutoPass. cbv zeta.
  rewrite prevConnectionKeysOf_without, nextConnectionKeysOf_without,
    prevDotPositionsOf_without, nextDotPositionsOf_without,
    prevDotColorsOf_without.
  change (st_frame st') with frame'.
  change (st_playhead st') with (st_playhead st).
  change (st_frames st') with frames'.
  change (st_frameIndex st') with (st_frameIndex st).
  rewrite cumulativeTimeOf_without. rewrite active.
  change (frame_dots frame') with (frame_dots frame).
  change (easedTime frame') with (easedTime frame).
  change (colorTransitionProgressOf frame') with (colorTransitionProgressOf frame).
  change (fadeOutDefaultOf frame') with (fadeOutDefaultOf frame).
  change (effectiveDotStagger frame') with (effectiveDotStagger frame).
  change (frame_groups frame') with (frame_groups frame).
  change (frame_animateConnections frame') with (frame_animateConnections frame).
  change (renderDots context frame') with (renderDots context frame).
  change (renderAutoConnections context frame')
    with (renderAutoConnections context frame).
  destruct (easedTime frame (st_playhead st)) as [eased|]; [|reflexivity].
  destruct (colorTransitionProgressOf frame (st_playhead st)) as [ctp|];
    [|reflexivity].
  rewrite renderExistingConnections_without, renderAnimatingConnections_without.
  reflexivity.
Qed.

End Neighbours.

(** X2. A frame holds a connection one of whose endpoint ids names no
    dot of the frame.  The loops skip it: it emits no call as an existing
    connection, it is not among the entering connections, and the path
    builder passes over it.  The outcome of [renderFrame], its calls and
    whether it returns or throws, is the outcome on the same frame with
    that connection removed, whether the frame list still holds the frame
    as it was or holds it with the connection removed as well. *)
Theorem missing_endpoint_same_outcome (context : RenderContext)
  (st : FrameRenderState)
  (autoConnections : option (list AutoConnection)) (cache : gmap string RgbaColor) :
  st_frame st = frame ->
  (forall prev next eased fadeOutDefault groups,
     renderExistingConnection context frame (deriveDotMap (frame_dots frame))
       prev next eased fadeOutDefault groups broken = [])
  /\ (forall prev, isNewConnection (deriveDotMap (frame_dots frame)) prev broken = false)
  /\ (forall state, pathStep (deriveDotMap (frame_dots frame)) state broken = state)
  /\ renderFrame context (withFrame st frame' (st_frames st)) autoConnections cache
     = renderFrame context st autoConnections cache
  /\ (forall n : nat,
        st_frames st !! n = Some frame ->
        renderFrame context (withFrame st frame' (<[n := frame']> (st_frames st)))
          autoConnections cache
        = renderFrame context st autoConnections cache).
Proof.
  intros Hactive. repeat split.
  - intros. apply renderExistingConnection_broken.
  - apply isNewConnection_broken.
  - apply pathStep_broken.
  - apply renderFrame_without; [exact Hactive|apply neighboursAgree_refl].
  - intros n Hn. apply renderFrame_without; [exact Hactive|].
    now apply neighboursAgree_insert.
Qed.

End MissingEndpoint.

Section Throws.
Context `{JsRuntime}.



End Throws.

Lemma missing_endpoint_same_outcome_witness :
  renderFrame sampleContext
    (withFrame ghostState
       (withConnections ghostFrame [chainConnection "ab" "A" "B" 0])
       [ghostFrame]) None ∅
  = renderFrame sampleContext ghostState None ∅.
Proof.
  refine (proj1 (proj2 (proj2 (proj2
           (missing_endpoint_same_outcome (H := sampleRuntime) ghostFrame
              [chainConnection "ab" "A" "B" 0] []
              (chainConnection "ghost" "A" "Z" 1) eq_refl _
              sampleContext ghostState None ∅ eq_refl))))).
  right. vm_compute. reflexivity.
Defined.


(** C9. The frame [ghostFrame] holds a connection to an id no dot has;
    with the easing name ["valueOf"] its render throws: the lookup finds
    the function of that name every object inherits, and its call, which
    has no receiver, is a [TypeError].  The canvas is left cleared, with
    none of the frame drawn. *)
Theorem missing_endpoint_throws :
  dangling (st_frame ghostValueOfState) (chainConnection "ghost" "A" "Z" 1)
  /\ chainConnection "ghost" "A" "Z" 1 ∈ frame_connections (st_frame ghostValueOfState)
  /\ easedTime (st_frame ghostValueOfState) (st_playhead ghostValueOfState)
     = TypeError
  /\ fst (renderFrame (H := sampleRuntime) sampleContext ghostValueOfState None ∅)
     = Threw [ ClearRect 0 0 100 100; Save; Translate 10 10 ].
Proof.
  split; [right; vm_compute; reflexivity|].
  split; [apply list_elem_of_In; vm_compute; tauto|].
  split; vm_compute; reflexivity.
Qed.
(* ================================================================== *)
(** * Paths never cut a corner (C5) *)

Section CornerCutting.
Import Pathfinding.

(** Induction on a node along its chain of parents. *)
Lemma PathNode_chain_ind (P : PathNode -> Prop) :
  (forall x y g h f, P (Build_PathNode x y g h f None)) ->
  (forall x y g h f parent, P parent -> P (Build_PathNode x y g h f (Some parent))) ->
  forall node, P node.
Proof.
  intros Hroot Hstep. fix IH 1.
  intros [x y g h f [parent|]]; [apply Hstep, IH|apply Hroot].
Qed.

Lemma reconstruct_legal wo node path :
  legalNode wo node -> legalPath wo (posOf node :: path) ->
  legalPath wo (reconstruct node path).
Proof.
  revert path. induction node as [x y g h f|x y g h f parent IH]
    using PathNode_chain_ind; intros path Hnode Hpath.
  - exact Hpath.
  - simpl in Hnode. destruct Hnode as [Hstep Hparent].
    simpl. apply IH; [exact Hparent|].
    split; [exact Hstep|exact Hpath].
Qed.

Lemma direction_unit dir :
  dir ∈ DIRECTIONS -> (Z.abs (dir_dx dir) <= 1 /\ Z.abs (dir_dy dir) <= 1)%Z.
Proof.
  unfold DIRECTIONS. rewrite !elem_of_cons, elem_of_nil.
  intros [->|[->|[->|[->|[->|[->|[->|[->|[]]]]]]]]]; simpl; lia.
Qed.

Lemma findIndex_Some {A} (p : A -> bool) (l : list A) (i : nat) :
  findIndex p l = Some i -> exists a, l !! i = Some a /\ p a = true.
Proof.
  revert i. induction l as [|a rest IH]; intros i; simpl; [discriminate|].
  destruct (p a) eqn:E.
  - intros [= <-]. now exists a.
  - destruct (findIndex p rest) as [j|]; [|discriminate].
    intros [= <-]. apply (IH j). reflexivity.
Qed.

Lemma findIndex_None {A} (p : A -> bool) (l : list A) :
  findIndex p l = None -> forall a, a ∈ l -> p a = false.
Proof.
  induction l as [|b rest IH]; simpl; intros Hnone a Hin.
  - now apply elem_of_nil in Hin.
  - destruct (p b) eqn:E; [discriminate|].
    destruct (findIndex p rest); [discriminate|].
    apply elem_of_cons in Hin as [->|Hin]; [exact E|now apply IH].
Qed.

(** Visiting a neighbour keeps every chain in the open set legal. *)
Lemma visit_legal end_ gridSize closedSet wo current openSet dir :
  dir ∈ DIRECTIONS -> legalNode wo current -> Forall (legalNode wo) openSet ->
  Forall (legalNode wo) (visit end_ gridSize closedSet wo current openSet dir).
Proof.
  intros Hdir Hcur Hopen. unfold visit.
  destruct (_ || _ || _ || _); [exact Hopen|].
  destruct (bool_decide (_ ∈ closedSet)); [exact Hopen|].
  destruct (bool_decide (_ ∈ wo)); [exact Hopen|].
  destruct (negb (dir_dx dir =? 0)%Z && negb (dir_dy dir =? 0)%Z && _) eqn:Hcorner;
    [exact Hopen|].
  assert (Hlegal : forall g h f,
             legalNode wo
               {| node_x := (node_x current + dir_dx dir)%Z;
                  node_y := (node_y current + dir_dy dir)%Z;
                  node_g := g; node_h := h; node_f := f;
                  node_parent := Some current |}).
  { intros g h f. simpl. split; [|exact Hcur].
    destruct (direction_unit dir Hdir) as [Hx Hy].
    unfold legalStep, posOf. simpl. repeat split; try lia.
    - apply andb_false_iff in Hcorner as [Hdiag|Hfree].
      + apply andb_false_iff in Hdiag as [E|E];
          apply negb_false_iff, Z.eqb_eq in E; lia.
      + apply orb_false_iff in Hfree as [E _].
        now apply bool_decide_eq_false in E.
    - apply andb_false_iff in Hcorner as [Hdiag|Hfree].
      + apply andb_false_iff in Hdiag as [E|E];
          apply negb_false_iff, Z.eqb_eq in E; lia.
      + apply orb_false_iff in Hfree as [_ E].
        now apply bool_decide_eq_false in E. }
  destruct (findIndex _ openSet) as [existingIndex|] eqn:Hfind.
  - destruct (findIndex_Some _ _ _ Hfind) as (existing & Hex & Hpos).
    rewrite Hex. destruct (Qlt_le_dec _ (node_g existing)); [|exact Hopen].
    apply andb_true_iff in Hpos as [Ex Ey].
    apply Z.eqb_eq in Ex, Ey. rewrite Ex, Ey.
    apply Forall_insert; [exact Hopen|apply Hlegal].
  - apply Forall_app. split; [exact Hopen|]. constructor; [apply Hlegal|constructor].
Qed.

Lemma visits_legal end_ gridSize closedSet wo current dirs openSet :
  (forall dir, dir ∈ dirs -> dir ∈ DIRECTIONS) ->
  legalNode wo current -> Forall (legalNode wo) openSet ->
  Forall (legalNode wo)
    (fold_left (visit end_ gridSize closedSet wo current) dirs openSet).
Proof.
  revert openSet. induction dirs as [|dir dirs IH]; intros openSet Hdirs Hcur Hopen;
    simpl; [exact Hopen|].
  apply IH; [intros d Hd; apply Hdirs; now right|exact Hcur|].
  apply visit_legal; [apply Hdirs; now left|exact Hcur|exact Hopen].
Qed.

(** One turn of the loop. *)
Lemma search_S fuel end_ gridSize wo openSet closedSet :
  search (S fuel) end_ gridSize wo openSet closedSet
  = match openSet !! lowestIndex openSet with
    | None => Some None
    | Some current =>
        if (node_x current =? pos_x end_)%Z && (node_y current =? pos_y end_)%Z
        then Some (Some (reconstruct current []))
        else
          let closedSet' :=
            {[createPositionKey (node_x current) (node_y current)]} ∪ closedSet in
          search fuel end_ gridSize wo
            (fold_left (visit end_ gridSize closedSet' wo current) DIRECTIONS
                       (delete (lowestIndex openSet) openSet))
            closedSet'
    end.
Proof. reflexivity. Qed.

Lemma search_legal fuel end_ gridSize wo openSet closedSet path :
  Forall (legalNode wo) openSet ->
  search fuel end_ gridSize wo openSet closedSet = Some (Some path) ->
  legalPath wo path.
Proof.
  revert openSet closedSet.
  induction fuel as [|fuel IH]; intros openSet closedSet Hopen;
    [discriminate|].
  rewrite search_S.
  destruct (openSet !! lowestIndex openSet) as [current|] eqn:Hcur; [|discriminate].
  assert (Hlegal : legalNode wo current).
  { eapply Forall_lookup_1; [exact Hopen|exact Hcur]. }
  destruct (_ && _).
  - intros [= <-]. apply reconstruct_legal; [exact Hlegal|exact I].
  - apply IH. apply visits_legal; [auto|exact Hlegal|].
    now apply Forall_delete.
Qed.

Lemma findPathFuel_legal fuel start end_ gridSize obstacles path :
  findPathFuel fuel start end_ gridSize obstacles = Some (Some path) ->
  legalPath (workingObstaclesOf start end_ obstacles) path.
Proof.
  unfold findPathFuel. destruct (_ && _).
  - intros [= <-]. exact I.
  - apply search_legal. constructor; [exact I|constructor].
Qed.

Lemma legalPath_lookup wo path i p q :
  legalPath wo path -> path !! i = Some p -> path !! S i = Some q ->
  legalStep wo p q.
Proof.
  revert i. induction path as [|a [|b rest] IH]; intros i Hlegal Hp Hq.
  - discriminate.
  - destruct i; simpl in Hq; discriminate.
  - destruct Hlegal as [Hstep Hrest]. destruct i as [|i].
    + simpl in Hp, Hq. now simplify_eq.
    + apply (IH i Hrest); assumption.
Qed.

(** C5. Whatever the start, the end, the grid size and the obstacles, in
    a path [findPath] returns every step goes to one of the eight
    neighbouring cells, and for every diagonal step neither of the two
    cells orthogonally adjacent to both ends of the step is in the
    working obstacle set (the obstacles without the start and the end).
    This holds of the result of the loop at every bound on its turns. *)
Theorem no_corner_cutting (start end_ : GridPosition) (gridSize : Z)
  (obstacles : gset string) (path : list GridPosition) :
  findPath start end_ gridSize obstacles = Some path
  \/ (exists fuel, findPathFuel fuel start end_ gridSize obstacles = Some (Some path)) ->
  forall (i : nat) (p q : GridPosition),
    path !! i = Some p -> path !! S i = Some q ->
    (Z.abs (pos_x q - pos_x p) <= 1)%Z
    /\ (Z.abs (pos_y q - pos_y p) <= 1)%Z
    /\ (pos_x q <> pos_x p -> pos_y q <> pos_y p ->
        (createPositionKey (pos_x q) (pos_y p)
           ∉ workingObstaclesOf start end_ obstacles)
        /\ (createPositionKey (pos_x p) (pos_y q)
              ∉ workingObstaclesOf start end_ obstacles)).
Proof.
  intros Hfound i p q Hp Hq.
  assert (Hfuel : exists fuel,
             findPathFuel fuel start end_ gridSize obstacles = Some (Some path)).
  { destruct Hfound as [Hfind|Hfuel]; [|exact Hfuel].
    exists (searchBound gridSize). unfold findPath in Hfind.
    destruct (findPathFuel _ _ _ _ _) as [[found|]|]; simpl in Hfind; congruence. }
  destruct Hfuel as [fuel Hfuel].
  exact (legalPath_lookup _ _ _ _ _ (findPathFuel_legal _ _ _ _ _ _ Hfuel) Hp Hq).
Qed.

End CornerCutting.

Lemma no_corner_cutting_witness :
  (createPositionKey 1 0
     ∉ Pathfinding.workingObstaclesOf (cell 0 0) (cell 1 1) {[createPositionKey 3 3]})
  /\ (createPositionKey 0 1
        ∉ Pathfinding.workingObstaclesOf (cell 0 0) (cell 1 1) {[createPositionKey 3 3]}).
Proof.
  refine (proj2 (proj2
            (no_corner_cutting (cell 0 0) (cell 1 1) 5 {[createPositionKey 3 3]}
               [cell 0 0; cell 1 1] (or_introl _) 0%nat (cell 0 0) (cell 1 1)
               eq_refl eq_refl)) _ _).
  - vm_compute. reflexivity.
  - simpl. lia.
  - simpl. lia.
Defined.

(** With both cells beside the diagonal blocked, the end next to the
    start is not reached at all. *)
Example blocked_diagonal_no_path :
  Pathfinding.findPath (cell 0 0) (cell 1 1) 5
    ({[createPositionKey 1 0]} ∪ {[createPositionKey 0 1]}) = None.
Proof. vm_compute. reflexivity. Qed.

(** With one of them blocked the path goes around the other. *)
Example blocked_diagonal_detour :
  Pathfinding.findPath (cell 0 0) (cell 1 1) 5 {[createPositionKey 1 0]}
  = Some [cell 0 0; cell 0 1; cell 1 1].
Proof. vm_compute. reflexivity. Qed.

(* ================================================================== *)
(** * Position keys are injective *)

Section PositionKeys.

Lemma pretty_N_char_no_colon (x : N) : Ascii.eqb (pretty_N_char x) ":" = false.
Proof. unfold pretty_N_char. repeat case_match; reflexivity. Qed.

Lemma pretty_N_go_no_colon (x : N) (s : string) :
  hasColon s = false -> hasColon (pretty_N_go x s) = false.
Proof.
  revert s. induction (N.lt_wf_0 x) as [x _ IH]; intros s Hs.
  destruct (decide (x = 0%N)) as [->|Hx].
  - now rewrite pretty_N_go_0.
  - rewrite pretty_N_go_step by lia. apply IH.
    + apply N.div_lt; lia.
    + simpl. now rewrite pretty_N_char_no_colon.
Qed.

Lemma pretty_N_no_colon (x : N) : hasColon (pretty x) = false.
Proof.
  unfold pretty, pretty_N. case_decide; [reflexivity|].
  now apply pretty_N_go_no_colon.
Qed.

Lemma append_nil (u : string) : "" +:+ u = u.
Proof. reflexivity. Qed.

Lemma append_cons (c : ascii) (s u : string) :
  String c s +:+ u = String c (s +:+ u).
Proof. reflexivity. Qed.

Lemma hasColon_app (s t : string) :
  hasColon (s +:+ t) = hasColon s || hasColon t.
Proof.
  induction s as [|c s IH]; [reflexivity|].
  rewrite append_cons. simpl. now rewrite IH, orb_assoc.
Qed.

Lemma pretty_Z_no_colon (z : Z) : hasColon (pretty z) = false.
Proof.
  destruct z as [|p|p]; unfold pretty, pretty_Z; [reflexivity| |].
  - apply (pretty_N_no_colon (N.pos p)).
  - rewrite hasColon_app. apply (pretty_N_no_colon (N.pos p)).
Qed.

(** Two strings without a colon, each followed by a colon and a rest,
    are equal only part by part. *)
Lemma colon_split (s s' t t' : string) :
  hasColon s = false -> hasColon s' = false ->
  s +:+ String ":" t = s' +:+ String ":" t' -> s = s' /\ t = t'.
Proof.
  revert s'. induction s as [|c s IH]; intros [|c' s'] Hs Hs' Heq;
    rewrite ?append_nil, ?append_cons in Heq; simpl in Hs, Hs'.
  - injection Heq as ->. now split.
  - injection Heq as <- _. now rewrite Ascii.eqb_refl in Hs'.
  - injection Heq as -> _. now rewrite Ascii.eqb_refl in Hs.
  - injection Heq as -> Heq.
    apply orb_false_iff in Hs as [_ Hs]. apply orb_false_iff in Hs' as [_ Hs'].
    destruct (IH s' Hs Hs' Heq) as [-> ->]. now split.
Qed.

Lemma createPositionKey_inj (x y x' y' : Z) :
  createPositionKey x y = createPositionKey x' y' -> x = x' /\ y = y'.
Proof.
  unfold createPositionKey. intros Heq.
  change (":" +:+ pretty y) with (String ":" (pretty y)) in Heq.
  change (":" +:+ pretty y') with (String ":" (pretty y')) in Heq.
  apply colon_split in Heq as [Hx Hy]; try apply pretty_Z_no_colon.
  split; now apply (inj pretty).
Qed.

End PositionKeys.

(* ================================================================== *)
(** * The search on an empty grid (C2) *)

Section LowestIndex.
Import Pathfinding.
Local Open Scope Q_scope.

(** The scan ends on a node that no scanned node undercuts. *)
Lemma scan_minimal (openSet : list PathNode) (indices : list nat)
  (lowest : nat) (best : PathNode) :
  openSet !! lowest = Some best ->
  exists current,
    openSet !! fold_left
      (fun lowest i =>
         match openSet !! i, openSet !! lowest with
         | Some a, Some b => if Qlt_le_dec (node_f a) (node_f b) then i else lowest
         | _, _ => lowest
         end) indices lowest = Some current
    /\ node_f current <= node_f best
    /\ forall i a, i ∈ indices -> openSet !! i = Some a -> node_f current <= node_f a.
Proof.
  revert lowest best. induction indices as [|i rest IH]; intros lowest best Hbest; simpl.
  - exists best. repeat split; [exact Hbest|lra|].
    intros i a Hin. now apply elem_of_nil in Hin.
  - rewrite Hbest. destruct (openSet !! i) as [a|] eqn:Ha.
    + destruct (Qlt_le_dec (node_f a) (node_f best)) as [Hlt|Hle].
      * destruct (IH i a Ha) as (current & Hcur & Hle' & Hall).
        exists current. repeat split; [exact Hcur|lra|].
        intros j b Hin Hb. apply elem_of_cons in Hin as [->|Hin].
        -- rewrite Ha in Hb. injection Hb as <-. exact Hle'.
        -- now apply (Hall j).
      * destruct (IH lowest best Hbest) as (current & Hcur & Hle' & Hall).
        exists current. repeat split; [exact Hcur|exact Hle'|].
        intros j b Hin Hb. apply elem_of_cons in Hin as [->|Hin].
        -- rewrite Ha in Hb. injection Hb as <-. lra.
        -- now apply (Hall j).
    + destruct (IH lowest best Hbest) as (current & Hcur & Hle' & Hall).
      exists current. repeat split; [exact Hcur|exact Hle'|].
      intros j b Hin Hb. apply elem_of_cons in Hin as [->|Hin].
      * congruence.
      * now apply (Hall j).
Qed.

(** On a non-empty open set [lowestIndex] selects a node of least [f]. *)
Lemma lowestIndex_minimal (openSet : list PathNode) (first : PathNode) :
  openSet !! 0%nat = Some first ->
  exists current,
    openSet !! lowestIndex openSet = Some current
    /\ forall node, node ∈ openSet -> node_f current <= node_f node.
Proof.
  intros Hfirst. unfold lowestIndex.
  destruct (scan_minimal openSet (seq 1 (length openSet - 1)) 0%nat first Hfirst)
    as (current & Hcur & Hle & Hall).
  exists current. split; [exact Hcur|].
  intros node Hin. apply list_elem_of_lookup in Hin as [j Hj].
  destruct j as [|j].
  - rewrite Hfirst in Hj. injection Hj as <-. exact Hle.
  - apply (Hall (S j)); [|exact Hj].
    apply elem_of_seq. apply lookup_lt_Some in Hj. lia.
Qed.

Lemma SQRT2_bounds : 1 < SQRT2 /\ SQRT2 < 2.
Proof. split; reflexivity. Qed.

(** The octile distance to a cell that is neither left of nor above the
    node. *)
Lemma octileDistance_towards (x y ex ey : Z) :
  (x <= ex)%Z -> (y <= ey)%Z ->
  octileDistance x y ex ey
  = inject_Z (Z.max (ex - x) (ey - y))
    + (SQRT2 - 1) * inject_Z (Z.min (ex - x) (ey - y)).
Proof.
  intros Hx Hy. unfold octileDistance.
  replace (Z.abs (x - ex)) with (ex - x)%Z by lia.
  replace (Z.abs (y - ey)) with (ey - y)%Z by lia.
  reflexivity.
Qed.

(** The reconstruction prepends the chain of parents to the path. *)
Lemma reconstruct_app (node : PathNode) (path : list GridPosition) :
  reconstruct node path = reconstruct node [] ++ path.
Proof.
  revert path. induction node as [x y g h f|x y g h f parent IH]
    using PathNode_chain_ind; intros path; simpl; [reflexivity|].
  rewrite IH. rewrite (IH [_]). now rewrite <- app_assoc.
Qed.

End LowestIndex.

Section EmptyGrid.
Import Pathfinding.
Local Open Scope Q_scope.

(** The grid has [r + 1] rows and columns; the search goes from the
    corner (0,0) to the corner (r,r). *)
Variable r : nat.
Hypothesis r_positive : (1 <= r)%nat.

Let size : Z := (Z.of_nat r + 1)%Z.
Let goal : GridPosition := cell (Z.of_nat r) (Z.of_nat r).

Lemma onDiag_dec k node : {onDiag k node} + {~ onDiag k node}.
Proof.
  unfold onDiag.
  destruct (Z.eq_dec (node_x node) (Z.of_nat k)), (Z.eq_dec (node_y node) (Z.of_nat k));
    [left|right|right|right]; tauto.
Qed.

(** The node selected for expansion is the one on (k,k). *)
Lemma selected_on_diag k openSet closedSet :
  searchInv r k openSet closedSet ->
  exists current,
    openSet !! lowestIndex openSet = Some current
    /\ onDiag k current /\ alongDiag r k current.
Proof.
  intros ([Hnodup Hok] & (node & Hin & Hdiag) & _).
  assert (Hfirst : exists first, openSet !! 0%nat = Some first).
  { destruct openSet as [|first rest]; [now apply elem_of_nil in Hin|].
    now exists first. }
  destruct Hfirst as [first Hfirst].
  destruct (lowestIndex_minimal openSet first Hfirst) as (current & Hcur & Hmin).
  exists current. split; [exact Hcur|].
  pose proof (proj1 (Forall_forall _ _) Hok) as Hall.
  assert (Hcur_in : current ∈ openSet) by (eapply list_elem_of_lookup_2; exact Hcur).
  destruct (Hall current Hcur_in) as (Hon & Hoff & _).
  destruct (Hall node Hin) as (Hnode & _ & _).
  destruct (onDiag_dec k current) as [Hd|Hd]; [split; [exact Hd|now apply Hon]|].
  exfalso. specialize (Hoff Hd). destruct (Hnode Hdiag) as (Hf & _).
  specialize (Hmin node Hin). revert Hoff Hf Hmin. generalize (diagonalCost r).
  intros b Hoff Hf Hmin. lra.
Qed.

(** The node the expansion of (k,k) writes for the neighbour in a
    direction that stays on the grid. *)
Lemma neighbour_ok k current dir h :
  (k < r)%nat -> onDiag k current -> alongDiag r k current ->
  dir ∈ DIRECTIONS ->
  (0 <= node_x current + dir_dx dir < size)%Z ->
  (0 <= node_y current + dir_dy dir < size)%Z ->
  nodeOk r (S k)
    {| node_x := (node_x current + dir_dx dir)%Z;
       node_y := (node_y current + dir_dy dir)%Z;
       node_g := node_g current + dir_cost dir;
       node_h := h;
       node_f := node_g current + dir_cost dir
                 + octileDistance (node_x current + dir_dx dir)
                     (node_y current + dir_dy dir) (pos_x goal) (pos_y goal);
       node_parent := Some current |}.
Proof.
  intros Hk [Hx Hy] (Hf & Hg & Hpath) Hdir Hbx Hby.
  pose proof SQRT2_bounds as [Hs1 Hs2].
  unfold size in Hbx, Hby. rewrite Hx in Hbx. rewrite Hy in Hby.
  unfold nodeOk, onDiag, alongDiag, within, diagonalCost. simpl.
  rewrite Hx, Hy.
  change (pos_x goal) with (Z.of_nat r). change (pos_y goal) with (Z.of_nat r).
  assert (Hdx : (Z.abs (dir_dx dir) <= 1)%Z /\ (Z.abs (dir_dy dir) <= 1)%Z)
    by now apply direction_unit.
  rewrite octileDistance_towards by lia.
  clear Hdx. unfold DIRECTIONS in Hdir. rewrite !elem_of_cons, elem_of_nil in Hdir.
  destruct Hdir as [->|[->|[->|[->|[->|[->|[->|[->|[]]]]]]]]]; simpl in *;
    (split; [intros [E1 E2]; try lia|split; [intros Hoff; try (exfalso; apply Hoff; lia)|lia]]).
  all: try match goal with
    | |- context [Z.max ?a ?b] =>
        first [ rewrite (Z.max_l a b), (Z.min_r a b) by lia
              | rewrite (Z.max_r a b), (Z.min_l a b) by lia ]
    end.
  all: try (push_inject; rewrite Hg; lra).
  (* the diagonal neighbour *)
  repeat split.
  - push_inject. rewrite Hg. lra.
  - rewrite Hg. rewrite Nat2Z.inj_succ. unfold Z.succ. rewrite inject_Z_plus.
    change (inject_Z 1) with 1. lra.
  - rewrite reconstruct_app, Hpath. unfold diagTo.
    rewrite (seq_S (S k)), map_app. simpl. f_equal. f_equal.
    unfold cell. now rewrite Nat2Z.inj_succ.
Qed.

Lemma onGrid_of_bounds (nx ny : Z) :
  (nx <? 0)%Z || (ny <? 0)%Z || (nx >=? size)%Z || (ny >=? size)%Z = false ->
  (0 <= nx < size)%Z /\ (0 <= ny < size)%Z.
Proof.
  rewrite !orb_false_iff, !Z.ltb_ge, !Z.geb_leb, !Z.leb_gt. lia.
Qed.

(** Visiting a neighbour of (k,k) keeps the open set a frontier for
    (k+1,k+1). *)
Lemma visit_frontier k current closedSet openSet dir :
  (k < r)%nat -> onDiag k current -> alongDiag r k current -> dir ∈ DIRECTIONS ->
  frontier r (S k) openSet ->
  frontier r (S k) (visit goal size closedSet ∅ current openSet dir).
Proof.
  intros Hk Hon Hgood Hdir [Hnodup Hall]. unfold visit.
  destruct (_ || _ || _ || _) eqn:Hbounds; [now split|].
  apply onGrid_of_bounds in Hbounds as [Hbx Hby].
  destruct (bool_decide (_ ∈ closedSet)); [now split|].
  destruct (bool_decide (_ ∈ ∅)); [now split|].
  destruct (negb _ && negb _ && _); [now split|].
  pose proof (fun h => neighbour_ok k current dir h Hk Hon Hgood Hdir Hbx Hby) as Hok.
  destruct (findIndex _ openSet) as [existingIndex|] eqn:Hfind.
  - destruct (findIndex_Some _ _ _ Hfind) as (existing & Hex & Hpos).
    rewrite Hex. destruct (Qlt_le_dec _ (node_g existing)); [|now split].
    apply andb_true_iff in Hpos as [Ex Ey]. apply Z.eqb_eq in Ex, Ey.
    rewrite Ex, Ey. split.
    + rewrite list_fmap_insert, list_insert_id; [exact Hnodup|].
      rewrite list_lookup_fmap, Hex. simpl. unfold posOf. simpl. now rewrite Ex, Ey.
    + apply Forall_insert; [exact Hall|apply Hok].
  - split.
    + rewrite fmap_app. apply NoDup_app. split; [exact Hnodup|]. split.
      * intros pos Hin Hnew. apply list_elem_of_fmap in Hin as (node & -> & Hnode).
        apply list_elem_of_singleton in Hnew.
        pose proof (findIndex_None _ _ Hfind node Hnode) as Hne.
        unfold posOf in Hnew. simpl in Hnew, Hne. injection Hnew as Ex Ey.
        rewrite Ex, Ey, !Z.eqb_refl in Hne. discriminate.
      * apply NoDup_singleton.
    + apply Forall_app. split; [exact Hall|].
      constructor; [apply Hok|constructor].
Qed.

Lemma visits_frontier k current closedSet dirs openSet :
  (k < r)%nat -> onDiag k current -> alongDiag r k current ->
  (forall dir, dir ∈ dirs -> dir ∈ DIRECTIONS) ->
  frontier r (S k) openSet ->
  frontier r (S k) (fold_left (visit goal size closedSet ∅ current) dirs openSet).
Proof.
  intros Hk Hon Hgood. revert openSet.
  induction dirs as [|dir dirs IH]; intros openSet Hdirs Hfr; simpl; [exact Hfr|].
  apply IH; [intros d Hd; apply Hdirs; now right|].
  apply visit_frontier; try assumption. apply Hdirs. now left.
Qed.

(** A cell that has a node in the open set keeps one through a visit. *)
Lemma visit_keeps end_ gridSize closedSet wo current openSet dir pos :
  (exists node, node ∈ openSet /\ posOf node = pos) ->
  exists node,
    node ∈ visit end_ gridSize closedSet wo current openSet dir /\ posOf node = pos.
Proof.
  intros (node & Hin & Hpos). unfold visit.
  destruct (_ || _ || _ || _); [now exists node|].
  destruct (bool_decide (_ ∈ closedSet)); [now exists node|].
  destruct (bool_decide (_ ∈ wo)); [now exists node|].
  destruct (negb _ && negb _ && _); [now exists node|].
  destruct (findIndex _ openSet) as [existingIndex|] eqn:Hfind.
  - destruct (findIndex_Some _ _ _ Hfind) as (existing & Hex & _).
    rewrite Hex. destruct (Qlt_le_dec _ (node_g existing)); [|now exists node].
    apply list_elem_of_lookup in Hin as [j Hj].
    destruct (decide (existingIndex = j)) as [->|Hne].
    + eexists. split.
      * eapply list_elem_of_lookup_2. apply list_lookup_insert_eq.
        now apply lookup_lt_Some in Hj.
      * rewrite Hj in Hex. injection Hex as <-. exact Hpos.
    + exists node. split; [|exact Hpos].
      eapply list_elem_of_lookup_2. rewrite list_lookup_insert_ne by exact Hne.
      exact Hj.
  - exists node. split; [|exact Hpos]. apply elem_of_app. now left.
Qed.

Lemma visits_keep end_ gridSize closedSet wo current dirs openSet pos :
  (exists node, node ∈ openSet /\ posOf node = pos) ->
  exists node,
    node ∈ fold_left (visit end_ gridSize closedSet wo current) dirs openSet
    /\ posOf node = pos.
Proof.
  revert openSet. induction dirs as [|dir dirs IH]; intros openSet Hex; simpl;
    [exact Hex|].
  apply IH. now apply visit_keeps.
Qed.

(** The visit in the direction (1,1) leaves a node on (k+1,k+1). *)
Lemma visit_diagonal k current closedSet openSet :
  (k < r)%nat -> onDiag k current ->
  createPositionKey (Z.of_nat (S k)) (Z.of_nat (S k)) ∉ closedSet ->
  exists node,
    node ∈ visit goal size closedSet ∅ current openSet
             {| dir_dx := 1; dir_dy := 1; dir_cost := SQRT2 |}
    /\ posOf node = cell (Z.of_nat (S k)) (Z.of_nat (S k)).
Proof.
  intros Hk [Hx Hy] Hclosed. unfold visit. simpl dir_dx. simpl dir_dy.
  rewrite Hx, Hy.
  replace (Z.of_nat k + 1)%Z with (Z.of_nat (S k)) by lia.
  assert (Hb : (Z.of_nat (S k) <? 0)%Z || (Z.of_nat (S k) <? 0)%Z
               || (Z.of_nat (S k) >=? size)%Z || (Z.of_nat (S k) >=? size)%Z = false).
  { rewrite !orb_false_iff, !Z.ltb_ge, !Z.geb_leb, !Z.leb_gt. unfold size. lia. }
  rewrite Hb.
  rewrite (bool_decide_eq_false_2 _ Hclosed).
  rewrite !(bool_decide_eq_false_2 (_ ∈ (∅ : gset string)))
    by apply not_elem_of_empty.
  rewrite andb_false_r.
  destruct (findIndex _ openSet) as [existingIndex|] eqn:Hfind.
  - destruct (findIndex_Some _ _ _ Hfind) as (existing & Hex & Hpos).
    rewrite Hex. apply andb_true_iff in Hpos as [Ex Ey]. apply Z.eqb_eq in Ex, Ey.
    destruct (Qlt_le_dec _ (node_g existing)).
    + eexists. split.
      * eapply list_elem_of_lookup_2. apply list_lookup_insert_eq.
        now apply lookup_lt_Some in Hex.
      * unfold posOf, cell. simpl. now rewrite Ex, Ey.
    + exists existing. split; [eapply list_elem_of_lookup_2; exact Hex|].
      unfold posOf, cell. now rewrite Ex, Ey.
  - eexists. split; [apply elem_of_app; right; apply list_elem_of_here|].
    reflexivity.
Qed.

Lemma fold_left_step {A B} (f : A -> B -> A) (b : B) (l : list B) (a : A) :
  fold_left f (b :: l) a = fold_left f l (f a b).
Proof. reflexivity. Qed.

(** Once the node on (k,k) is taken out, the open set is a frontier for
    (k+1,k+1). *)
Lemma delete_frontier k openSet lowest current :
  frontier r k openSet -> openSet !! lowest = Some current -> onDiag k current ->
  frontier r (S k) (delete lowest openSet).
Proof.
  intros [Hnodup Hall] Hcur [Hx Hy]. split.
  - rewrite list_fmap_delete. apply (sublist_NoDup _ _ Hnodup (sublist_delete _ _)).
  - apply Forall_lookup. intros j node Hj.
    assert (Hother : exists j', j' <> lowest /\ openSet !! j' = Some node).
    { destruct (decide (j < lowest)%nat) as [Hlt|Hge].
      - exists j. split; [lia|]. now rewrite list_lookup_delete_lt in Hj.
      - exists (S j). split; [lia|]. rewrite list_lookup_delete_ge in Hj by lia.
        exact Hj. }
    destruct Hother as (j' & Hne & Hj').
    assert (Hoff : ~ onDiag k node).
    { intros [Hx' Hy']. apply Hne.
      apply (NoDup_lookup (posOf <$> openSet) j' lowest (posOf node) Hnodup).
      - now rewrite list_lookup_fmap, Hj'.
      - rewrite list_lookup_fmap, Hcur. simpl. unfold posOf.
        now rewrite Hx, Hy, Hx', Hy'. }
    pose proof (proj1 (Forall_lookup _ _) Hall j' node Hj') as (_ & Hf & [Hwx Hwy]).
    unfold nodeOk. split; [|split].
    + intros [E _]. lia.
    + intros _. now apply Hf.
    + unfold within. lia.
Qed.

(** The expansion of (k,k): after the eight visits the open set is a
    frontier for (k+1,k+1) and holds a node on that cell. *)
Lemma expand_frontier k openSet closedSet lowest current :
  (k < r)%nat -> searchInv r k openSet closedSet ->
  openSet !! lowest = Some current -> onDiag k current -> alongDiag r k current ->
  let closedSet' :=
    {[createPositionKey (node_x current) (node_y current)]} ∪ closedSet in
  searchInv r (S k)
    (fold_left (visit goal size closedSet' ∅ current) DIRECTIONS
               (delete lowest openSet))
    closedSet'.
Proof.
  intros Hk (Hfr & _ & Hclosed) Hcur Hon Hgood closedSet'.
  assert (Hclosed' : forall key, key ∈ closedSet' ->
            exists j : nat, (j < S k)%nat
                            /\ key = createPositionKey (Z.of_nat j) (Z.of_nat j)).
  { intros key Hkey. unfold closedSet' in Hkey.
    apply elem_of_union in Hkey as [Hkey|Hkey].
    - apply elem_of_singleton in Hkey. exists k. split; [lia|].
      destruct Hon as [Hx Hy]. now rewrite Hkey, Hx, Hy.
    - destruct (Hclosed key Hkey) as (j & Hj & ->). exists j. split; [lia|reflexivity]. }
  split; [|split; [|exact Hclosed']].
  - apply visits_frontier; try assumption; [auto|].
    now apply (delete_frontier k openSet lowest current).
  - change DIRECTIONS
      with ([ {| dir_dx := 0; dir_dy := -1; dir_cost := 1 |};
              {| dir_dx := 1; dir_dy := -1; dir_cost := SQRT2 |};
              {| dir_dx := 1; dir_dy := 0; dir_cost := 1 |} ]
            ++ {| dir_dx := 1; dir_dy := 1; dir_cost := SQRT2 |}
            :: [ {| dir_dx := 0; dir_dy := 1; dir_cost := 1 |};
                 {| dir_dx := -1; dir_dy := 1; dir_cost := SQRT2 |};
                 {| dir_dx := -1; dir_dy := 0; dir_cost := 1 |};
                 {| dir_dx := -1; dir_dy := -1; dir_cost := SQRT2 |} ]).
    rewrite fold_left_app.
    rewrite (fold_left_step _ {| dir_dx := 1; dir_dy := 1; dir_cost := SQRT2 |}).
    match goal with
    | |- context [fold_left ?f ?dirs (visit ?e ?g ?c ?w ?cur ?o ?d)] =>
        destruct (visits_keep e g c w cur dirs (visit e g c w cur o d)
                    (cell (Z.of_nat (S k)) (Z.of_nat (S k))))
          as (node & Hin & Hpos)
    end.
    + apply visit_diagonal; [exact Hk|exact Hon|].
      intros Hkey. destruct (Hclosed' _ Hkey) as (j & Hj & Heq).
      apply createPositionKey_inj in Heq as [Heq _]. lia.
    + exists node. split; [exact Hin|].
      unfold posOf, cell in Hpos. injection Hpos as Ex Ey. now split.
Qed.

(** From a state in which (k,k) is the next cell to expand, the loop
    returns the diagonal after [r - k] further turns. *)
Lemma search_diagonal (steps : nat) :
  forall (k : nat) (openSet : list PathNode) (closedSet : gset string) (fuel : nat),
    (k + steps = r)%nat -> (steps < fuel)%nat ->
    searchInv r k openSet closedSet ->
    search fuel goal size ∅ openSet closedSet = Some (Some (diagTo r)).
Proof.
  induction steps as [|steps IH]; intros k openSet closedSet fuel Hsum Hfuel Hinv;
    (destruct fuel as [|fuel]; [lia|]); rewrite search_S;
    destruct (selected_on_diag k openSet closedSet Hinv)
      as (current & Hcur & Hon & Hgood);
    rewrite Hcur;
    destruct ((node_x current =? pos_x goal)%Z && (node_y current =? pos_y goal)%Z)
      eqn:Hend.
  - destruct Hgood as (_ & _ & Hpath). rewrite Hpath. do 3 f_equal. lia.
  - exfalso. destruct Hon as [Hx Hy]. rewrite Hx, Hy in Hend.
    change (pos_x goal) with (Z.of_nat r) in Hend.
    change (pos_y goal) with (Z.of_nat r) in Hend.
    replace k with r in Hend by lia. now rewrite !Z.eqb_refl in Hend.
  - exfalso. destruct Hon as [Hx Hy].
    apply andb_true_iff in Hend as [Hend _]. apply Z.eqb_eq in Hend.
    change (pos_x goal) with (Z.of_nat r) in Hend. lia.
  - apply (IH (S k)); [lia|lia|].
    apply expand_frontier; try assumption. lia.
Qed.

Lemma no_working_obstacles (start end_ : GridPosition) :
  workingObstaclesOf start end_ ∅ = ∅.
Proof. unfold workingObstaclesOf. apply leibniz_equiv. set_solver. Qed.

Lemma octile_corner : octileDistance 0 0 (Z.of_nat r) (Z.of_nat r) == diagonalCost r.
Proof.
  rewrite octileDistance_towards by lia.
  rewrite !Z.sub_0_r, Z.max_id, Z.min_id. unfold diagonalCost. lra.
Qed.

(** The state the search starts from. *)
Lemma start_inv :
  searchInv r 0
    [ {| node_x := 0; node_y := 0; node_g := 0;
         node_h := octileDistance 0 0 (Z.of_nat r) (Z.of_nat r);
         node_f := octileDistance 0 0 (Z.of_nat r) (Z.of_nat r);
         node_parent := None |} ] ∅.
Proof.
  split; [split|split].
  - apply NoDup_singleton.
  - constructor; [|constructor]. split; [|split].
    + intros _. split; [apply octile_corner|]. split; [|reflexivity].
      simpl. change (inject_Z (Z.of_nat 0)) with 0. lra.
    + intros Hoff. exfalso. apply Hoff. now split.
    + split; simpl; lia.
  - eexists. split; [apply list_elem_of_here|]. now split.
  - intros key Hkey. now apply not_elem_of_empty in Hkey.
Qed.

Lemma findPathFuel_diagonal (fuel : nat) :
  (r < fuel)%nat ->
  findPathFuel fuel (cell 0 0) goal size ∅ = Some (Some (diagTo r)).
Proof.
  intros Hfuel. unfold findPathFuel.
  change (pos_x (cell 0 0)) with 0%Z. change (pos_y (cell 0 0)) with 0%Z.
  change (pos_x goal) with (Z.of_nat r). change (pos_y goal) with (Z.of_nat r).
  destruct (Z.eqb_spec 0 (Z.of_nat r)) as [E|_]; [lia|]. simpl.
  rewrite no_working_obstacles.
  apply (search_diagonal r 0%nat); [lia|exact Hfuel|exact start_inv].
Qed.

End EmptyGrid.

Section DiagonalCost.
Import Pathfinding.
Local Open Scope Q_scope.

Lemma stepCost_diagonal (i : nat) :
  stepCost (cell (Z.of_nat i) (Z.of_nat i)) (cell (Z.of_nat (S i)) (Z.of_nat (S i)))
  = SQRT2.
Proof.
  unfold stepCost. simpl pos_x. simpl pos_y.
  replace (Z.of_nat (S i) - Z.of_nat i)%Z with 1%Z by lia. reflexivity.
Qed.

Lemma pathCost_from (start count : nat) :
  pathCost (map (fun i => cell (Z.of_nat i) (Z.of_nat i)) (seq start (S count)))
  == inject_Z (Z.of_nat count) * SQRT2.
Proof.
  revert start. induction count as [|count IH]; intros start.
  - cbn [seq map pathCost]. change (inject_Z (Z.of_nat 0)) with 0. lra.
  - specialize (IH (S start)).
    change (seq start (S (S count))) with (start :: S start :: seq (S (S start)) count).
    change (seq (S start) (S count)) with (S start :: seq (S (S start)) count) in IH.
    cbn [map pathCost] in IH |- *. rewrite stepCost_diagonal.
    rewrite (Nat2Z.inj_succ count). unfold Z.succ. rewrite inject_Z_plus.
    change (inject_Z 1) with 1. lra.
Qed.

Lemma pathCost_diag (k : nat) : pathCost (diagTo k) == inject_Z (Z.of_nat k) * SQRT2.
Proof. apply pathCost_from. Qed.

(** C2. On an empty grid of [R >= 2] rows and columns, [findPath] from
    the corner (0,0) to the opposite corner (R-1,R-1) returns a path: the
    diagonal through the cells (i,i).  Its cost, at 1 per orthogonal step
    and [SQRT2] per diagonal step, is the octile distance between the two
    corners, [(R - 1) * SQRT2].  The loop returns it within [R] turns. *)
Theorem empty_grid_diagonal (R : Z) :
  (2 <= R)%Z ->
  let corner := cell (R - 1) (R - 1) in
  exists path,
    findPath (cell 0 0) corner R ∅ = Some path
    /\ path = diagTo (Z.to_nat (R - 1))
    /\ (forall fuel, (Z.to_nat R <= fuel)%nat ->
          findPathFuel fuel (cell 0 0) corner R ∅ = Some (Some path))
    /\ pathCost path == octileDistance 0 0 (R - 1) (R - 1)
    /\ pathCost path == inject_Z (R - 1) * SQRT2.
Proof.
  intros HR corner.
  set (r := Z.to_nat (R - 1)).
  assert (Hr : (1 <= r)%nat) by (unfold r; lia).
  assert (HR' : R = (Z.of_nat r + 1)%Z) by (unfold r; lia).
  assert (Hcorner : corner = cell (Z.of_nat r) (Z.of_nat r)).
  { unfold corner. f_equal; lia. }
  assert (Hfuel : forall fuel, (Z.to_nat R <= fuel)%nat ->
             findPathFuel fuel (cell 0 0) corner R ∅ = Some (Some (diagTo r))).
  { intros fuel Hle. rewrite Hcorner. rewrite HR' at 1.
    apply findPathFuel_diagonal; [exact Hr|]. lia. }
  exists (diagTo r). split; [|split; [reflexivity|split; [exact Hfuel|split]]].
  - unfold findPath. rewrite Hfuel; [reflexivity|].
    unfold searchBound.
    assert (Z.to_nat R <= Z.to_nat (R * R))%nat by (apply Z2Nat.inj_le; nia).
    lia.
  - rewrite pathCost_diag.
    replace (R - 1)%Z with (Z.of_nat r) by lia.
    symmetry. now apply octile_corner.
  - rewrite pathCost_diag. now replace (R - 1)%Z with (Z.of_nat r) by lia.
Qed.

End DiagonalCost.

Lemma empty_grid_diagonal_witness :
  Pathfinding.findPath (cell 0 0) (cell 3 3) 4 ∅
  = Some [cell 0 0; cell 1 1; cell 2 2; cell 3 3].
Proof.
  destruct (empty_grid_diagonal 4 ltac:(lia)) as (path & Hfind & Hpath & _).
  rewrite Hpath in Hfind. exact Hfind.
Defined.

(* ================================================================== *)
(** * The search ends within its bound *)

Section SearchTerminates.
Import Pathfinding.
Local Open Scope nat_scope.

Lemma size_list_to_set_le (l : list string) :
  size (list_to_set l : gset string) <= length l.
Proof.
  induction l as [|x l IH].
  - rewrite list_to_set_nil, size_empty. reflexivity.
  - rewrite list_to_set_cons, size_union_alt, size_singleton. simpl.
    pose proof (subseteq_size (list_to_set l ∖ {[x]}) (list_to_set l : gset string)
                  ltac:(set_solver)).
    lia.
Qed.

Lemma length_rows {A B} (f : A -> B -> string) (row : list B) (l : list A) :
  length (flat_map (fun x => map (f x) row) l) = (length l * length row)%nat.
Proof.
  induction l as [|x l IH]; simpl; [reflexivity|].
  now rewrite length_app, length_map, IH.
Qed.

Lemma size_gridKeys (gridSize : Z) :
  size (gridKeys gridSize) <= Z.to_nat (gridSize * gridSize).
Proof.
  unfold gridKeys. etransitivity; [apply size_list_to_set_le|].
  rewrite length_rows, length_seqZ.
  destruct (Z.le_gt_cases 0 gridSize).
  - now rewrite Z2Nat.inj_mul.
  - replace (Z.to_nat gridSize) with 0%nat by lia. lia.
Qed.

Lemma elem_of_gridKeys (gridSize x y : Z) :
  (0 <= x < gridSize)%Z -> (0 <= y < gridSize)%Z ->
  createPositionKey x y ∈ gridKeys gridSize.
Proof.
  intros Hx Hy. unfold gridKeys. apply elem_of_list_to_set.
  apply list_elem_of_In, in_flat_map. exists x. split.
  - apply list_elem_of_In, elem_of_seqZ. lia.
  - apply in_map, list_elem_of_In, elem_of_seqZ. lia.
Qed.

(** A visit keeps the open set in order. *)
Lemma visit_openOk end_ gridSize candidates closedSet wo current openSet dir :
  gridKeys gridSize ⊆ candidates ->
  openOk candidates closedSet openSet ->
  openOk candidates closedSet (visit end_ gridSize closedSet wo current openSet dir).
Proof.
  intros Hgrid [Hnodup Hall]. unfold visit.
  destruct (_ || _ || _ || _) eqn:Hbounds; [now split|].
  rewrite !orb_false_iff, !Z.ltb_ge, !Z.geb_leb, !Z.leb_gt in Hbounds.
  destruct (bool_decide (_ ∈ closedSet)) eqn:Hclosed; [now split|].
  apply bool_decide_eq_false in Hclosed.
  destruct (bool_decide (_ ∈ wo)); [now split|].
  destruct (negb _ && negb _ && _); [now split|].
  assert (Hnew : forall g h f parent,
             let node := {| node_x := (node_x current + dir_dx dir)%Z;
                            node_y := (node_y current + dir_dy dir)%Z;
                            node_g := g; node_h := h; node_f := f;
                            node_parent := parent |} in
             keyOf node ∈ candidates /\ keyOf node ∉ closedSet).
  { intros g h f parent node. split; [|exact Hclosed].
    apply Hgrid, elem_of_gridKeys; simpl; lia. }
  destruct (findIndex _ openSet) as [existingIndex|] eqn:Hfind.
  - destruct (findIndex_Some _ _ _ Hfind) as (existing & Hex & Hpos).
    rewrite Hex. destruct (Qlt_le_dec _ (node_g existing)); [|now split].
    apply andb_true_iff in Hpos as [Ex Ey]. apply Z.eqb_eq in Ex, Ey.
    rewrite Ex, Ey. split.
    + rewrite list_fmap_insert, list_insert_id; [exact Hnodup|].
      rewrite list_lookup_fmap, Hex. simpl. unfold keyOf. simpl. now rewrite Ex, Ey.
    + intros node Hin. apply list_elem_of_lookup in Hin as [j Hj].
      destruct (decide (existingIndex = j)) as [->|Hne].
      * rewrite list_lookup_insert_eq in Hj by (now apply lookup_lt_Some in Hex).
        injection Hj as <-. apply Hnew.
      * rewrite list_lookup_insert_ne in Hj by exact Hne.
        apply Hall. eapply list_elem_of_lookup_2. exact Hj.
  - split.
    + rewrite fmap_app. apply NoDup_app. split; [exact Hnodup|]. split.
      * intros key Hin Hkey. apply list_elem_of_fmap in Hin as (node & -> & Hnode).
        apply list_elem_of_singleton in Hkey.
        unfold keyOf in Hkey. simpl in Hkey.
        apply createPositionKey_inj in Hkey as [Ex Ey].
        pose proof (findIndex_None _ _ Hfind node Hnode) as Hne. simpl in Hne.
        rewrite Ex, Ey, !Z.eqb_refl in Hne. discriminate.
      * apply NoDup_singleton.
    + intros node Hin. apply elem_of_app in Hin as [Hin|Hin]; [now apply Hall|].
      apply list_elem_of_singleton in Hin. subst node. apply Hnew.
Qed.

Lemma visits_openOk end_ gridSize candidates closedSet wo current dirs openSet :
  gridKeys gridSize ⊆ candidates ->
  openOk candidates closedSet openSet ->
  openOk candidates closedSet
    (fold_left (visit end_ gridSize closedSet wo current) dirs openSet).
Proof.
  intros Hgrid. revert openSet.
  induction dirs as [|dir dirs IH]; intros openSet Hok; simpl; [exact Hok|].
  apply IH. now apply visit_openOk.
Qed.

(** Closing the selected node leaves the rest of the open set in order. *)
Lemma delete_openOk candidates closedSet openSet lowest current :
  openOk candidates closedSet openSet -> openSet !! lowest = Some current ->
  openOk candidates ({[keyOf current]} ∪ closedSet) (delete lowest openSet).
Proof.
  intros [Hnodup Hall] Hcur. split.
  - rewrite list_fmap_delete. apply (sublist_NoDup _ _ Hnodup (sublist_delete _ _)).
  - intros node Hin. apply list_elem_of_lookup in Hin as [j Hj].
    assert (Hother : exists j', j' <> lowest /\ openSet !! j' = Some node).
    { destruct (decide (j < lowest)%nat) as [Hlt|Hge].
      - exists j. split; [lia|]. now rewrite list_lookup_delete_lt in Hj.
      - exists (S j). split; [lia|]. rewrite list_lookup_delete_ge in Hj by lia.
        exact Hj. }
    destruct Hother as (j' & Hne & Hj').
    destruct (Hall node (list_elem_of_lookup_2 _ _ _ Hj')) as [Hcand Hopen].
    split; [exact Hcand|]. intros Hkey.
    apply elem_of_union in Hkey as [Hkey|Hkey]; [|contradiction].
    apply elem_of_singleton in Hkey. apply Hne.
    apply (NoDup_lookup (keyOf <$> openSet) j' lowest (keyOf node) Hnodup).
    + now rewrite list_lookup_fmap, Hj'.
    + rewrite list_lookup_fmap, Hcur. simpl. now rewrite Hkey.
Qed.

(** With more turns allowed than cells are left to close, the loop
    returns. *)
Lemma search_returns (candidates : gset string) (fuel : nat) :
  forall end_ gridSize wo openSet closedSet,
    gridKeys gridSize ⊆ candidates ->
    openOk candidates closedSet openSet ->
    size (candidates ∖ closedSet) < fuel ->
    exists result, search fuel end_ gridSize wo openSet closedSet = Some result.
Proof.
  induction fuel as [|fuel IH]; intros end_ gridSize wo openSet closedSet Hgrid Hok Hsize;
    [lia|].
  rewrite search_S.
  destruct (openSet !! lowestIndex openSet) as [current|] eqn:Hcur; [|now eexists].
  destruct (_ && _); [now eexists|].
  destruct (proj2 Hok current (list_elem_of_lookup_2 _ _ _ Hcur)) as [Hcand Hopen].
  apply IH; [exact Hgrid| |].
  - apply visits_openOk; [exact Hgrid|]. now apply delete_openOk.
  - assert (Hlt : size (candidates ∖ ({[keyOf current]} ∪ closedSet))
                  < size (candidates ∖ closedSet)).
    { apply subset_size. split; [set_solver|].
      intros Hsub. specialize (Hsub (keyOf current)).
      assert (Hin : keyOf current ∈ candidates ∖ closedSet) by set_solver.
      apply Hsub in Hin. set_solver. }
    unfold keyOf in Hlt. lia.
Qed.

(** A result obtained within some bound is the result within any larger
    bound. *)
Lemma search_more_fuel fuel fuel' end_ gridSize wo openSet closedSet result :
  search fuel end_ gridSize wo openSet closedSet = Some result ->
  (fuel <= fuel')%nat ->
  search fuel' end_ gridSize wo openSet closedSet = Some result.
Proof.
  revert fuel' openSet closedSet.
  induction fuel as [|fuel IH]; intros fuel' openSet closedSet Hres Hle;
    [discriminate|].
  destruct fuel' as [|fuel']; [lia|].
  rewrite search_S in Hres |- *.
  destruct (openSet !! lowestIndex openSet) as [current|]; [|exact Hres].
  destruct (_ && _); [exact Hres|].
  apply IH; [exact Hres|lia].
Qed.

(** X18. The loop of [findPath] ends: [findPath] is its result, the
    bound [searchBound] on its turns is never reached, and every larger
    bound gives the same result. *)
Theorem findPath_total (start end_ : GridPosition) (gridSize : Z)
  (obstacles : gset string) :
  forall fuel, (searchBound gridSize <= fuel)%nat ->
    findPathFuel fuel start end_ gridSize obstacles
    = Some (findPath start end_ gridSize obstacles).
Proof.
  assert (Hbound : exists result,
             findPathFuel (searchBound gridSize) start end_ gridSize obstacles
             = Some result).
  { unfold findPathFuel. destruct (_ && _); [now eexists|].
    apply (search_returns
             ({[createPositionKey (pos_x start) (pos_y start)]} ∪ gridKeys gridSize)).
    - set_solver.
    - split; [apply NoDup_singleton|].
      intros node Hin. apply list_elem_of_singleton in Hin. subst node.
      unfold keyOf. simpl. set_solver.
    - rewrite difference_empty_L.
      rewrite size_union_alt, size_singleton.
      pose proof (size_gridKeys gridSize) as Hgrid.
      pose proof (subseteq_size
                    (gridKeys gridSize
                       ∖ {[createPositionKey (pos_x start) (pos_y start)]})
                    (gridKeys gridSize) ltac:(set_solver)).
      unfold searchBound. lia. }
  destruct Hbound as [result Hresult].
  intros fuel Hfuel. unfold findPath. rewrite Hresult. simpl.
  unfold findPathFuel in Hresult |- *. destruct (_ && _); [exact Hresult|].
  now apply (search_more_fuel (searchBound gridSize)).
Qed.

End SearchTerminates.
(* ================================================================== *)
(** * The heuristic of the pathfinder *)

Section Heuristic.
Import Pathfinding.
Local Open Scope Q_scope.

(** Integer facts as rational facts, for [lra]. *)
Ltac z_to_q :=
  repeat match goal with
         | H : (_ <= _)%Z |- _ => rewrite Zle_Qle in H
         | H : (_ < _)%Z |- _ => apply Z.le_succ_l in H; unfold Z.succ in H
         | H : (_ = _ :> Z) |- _ => apply (f_equal inject_Z) in H
         end;
  repeat match goal with
         | H : _ |- _ => progress (rewrite ?inject_Z_plus, ?inject_Z_opp in H)
         end.

Lemma octile_step (a b a' b' : Z) :
  (0 <= a)%Z -> (0 <= b)%Z -> (0 <= a')%Z -> (0 <= b')%Z ->
  (Z.abs (a - a') <= 1)%Z -> (Z.abs (b - b') <= 1)%Z ->
  inject_Z (Z.max a b) + (SQRT2 - 1) * inject_Z (Z.min a b)
  <= SQRT2 + (inject_Z (Z.max a' b') + (SQRT2 - 1) * inject_Z (Z.min a' b'))
  /\ (a = a' \/ b = b' ->
      inject_Z (Z.max a b) + (SQRT2 - 1) * inject_Z (Z.min a b)
      <= 1 + (inject_Z (Z.max a' b') + (SQRT2 - 1) * inject_Z (Z.min a' b'))).
Proof.
  intros Ha Hb Ha' Hb' Hda Hdb.
  assert (Hca : (a' = a + -1 \/ a' = a \/ a' = a + 1)%Z) by lia.
  assert (Hcb : (b' = b + -1 \/ b' = b \/ b' = b + 1)%Z) by lia.
  clear Hda Hdb.
  pose proof SQRT2_bounds as [Hs1 Hs2].
  destruct (Z.max_spec a b) as [[? ->] | [? ->]];
    destruct (Z.min_spec a b) as [[? ->] | [? ->]]; try lia;
    destruct (Z.max_spec a' b') as [[? ->] | [? ->]];
    destruct (Z.min_spec a' b') as [[? ->] | [? ->]]; try lia;
    (split; [|intros Hsame]).
  all: destruct Hca as [-> | [-> | ->]], Hcb as [-> | [-> | ->]]; try lia.
  all: try (exfalso; lia).
  all: rewrite ?inject_Z_plus; change (inject_Z 1) with 1; change (inject_Z (-1)) with (-(1)).
  all: z_to_q.
  all: change (inject_Z 1) with 1 in *; change (inject_Z (-1)) with (-(1)) in *; change (inject_Z 0) with 0 in *.
  all: try lra.
  all: unfold SQRT2 in *; lra.
Qed.

Lemma octile_nonneg (x y ex ey : Z) : 0 <= octileDistance x y ex ey.
Proof.
  unfold octileDistance. pose proof SQRT2_bounds as [Hs1 Hs2].
  assert (H1 : (0 <= Z.max (Z.abs (x - ex)) (Z.abs (y - ey)))%Z) by lia.
  assert (H2 : (0 <= Z.min (Z.abs (x - ex)) (Z.abs (y - ey)))%Z) by lia.
  rewrite Zle_Qle in H1, H2. change (inject_Z 0) with 0 in *.
  nra.
Qed.

(** The cost the table of directions gives to a step to one of the eight
    neighbours, and to no step at all. *)
Lemma stepCost_cases (p q : GridPosition) :
  (Z.abs (pos_x q - pos_x p) <= 1)%Z -> (Z.abs (pos_y q - pos_y p) <= 1)%Z ->
  (pos_x q = pos_x p /\ pos_y q = pos_y p /\ stepCost p q = 0)
  \/ ((pos_x q = pos_x p \/ pos_y q = pos_y p) /\ stepCost p q = 1)
  \/ (stepCost p q = SQRT2).
Proof.
  intros Hx Hy. unfold stepCost.
  assert (Hcx : (pos_x q - pos_x p = -1 \/ pos_x q - pos_x p = 0
                 \/ pos_x q - pos_x p = 1)%Z) by lia.
  assert (Hcy : (pos_y q - pos_y p = -1 \/ pos_y q - pos_y p = 0
                 \/ pos_y q - pos_y p = 1)%Z) by lia.
  destruct Hcx as [Ex | [Ex | Ex]], Hcy as [Ey | [Ey | Ey]];
    rewrite Ex, Ey; simpl;
    first [ left; repeat split; (lia || reflexivity)
          | right; left; split; [lia|reflexivity]
          | right; right; reflexivity ].
Qed.

Lemma octile_step_cost (p q : GridPosition) (ex ey : Z) :
  (Z.abs (pos_x q - pos_x p) <= 1)%Z -> (Z.abs (pos_y q - pos_y p) <= 1)%Z ->
  octileDistance (pos_x p) (pos_y p) ex ey
  <= stepCost p q + octileDistance (pos_x q) (pos_y q) ex ey.
Proof.
  intros Hx Hy.
  pose proof (octile_step (Z.abs (pos_x p - ex)) (Z.abs (pos_y p - ey))
                (Z.abs (pos_x q - ex)) (Z.abs (pos_y q - ey))
                ltac:(lia) ltac:(lia) ltac:(lia) ltac:(lia) ltac:(lia) ltac:(lia))
    as [Hdiag Hstraight].
  unfold octileDistance.
  destruct (stepCost_cases p q Hx Hy) as [(Ex & Ey & ->) | [[Hs ->] | ->]].
  - rewrite Ex, Ey. lra.
  - apply Hstraight. destruct Hs as [E | E]; rewrite E; tauto.
  - exact Hdiag.
Qed.

(** X4. The octile distance is 0 from a cell to itself, is never negative,
    is symmetric, and drops by at most the cost of the move on each of the
    eight moves of the table (it is a consistent heuristic). *)
Theorem octile_consistent (x y ex ey : Z) :
  octileDistance ex ey ex ey == 0
  /\ 0 <= octileDistance x y ex ey
  /\ octileDistance x y ex ey = octileDistance ex ey x y
  /\ Forall (fun dir =>
               octileDistance x y ex ey
               <= dir_cost dir
                  + octileDistance (x + dir_dx dir) (y + dir_dy dir) ex ey)
            DIRECTIONS.
Proof.
  split; [|split; [|split]].
  - unfold octileDistance. rewrite !Z.sub_diag. reflexivity.
  - apply octile_nonneg.
  - unfold octileDistance.
    replace (Z.abs (x - ex)) with (Z.abs (ex - x)) by lia.
    replace (Z.abs (y - ey)) with (Z.abs (ey - y)) by lia. reflexivity.
  - unfold DIRECTIONS. repeat apply Forall_cons_2; try apply Forall_nil_2;
      cbv [dir_cost dir_dx dir_dy];
      match goal with
      | |- _ <= _ + octileDistance (_ + ?dx) (_ + ?dy) _ _ =>
          pose proof (octile_step_cost {| pos_x := x; pos_y := y |}
                        {| pos_x := x + dx; pos_y := y + dy |} ex ey) as Hstep;
          cbv [pos_x pos_y] in Hstep;
          specialize (Hstep ltac:(lia) ltac:(lia));
          unfold stepCost in Hstep; cbv [pos_x pos_y] in Hstep;
          replace (x + dx - x)%Z with dx in Hstep by lia;
          replace (y + dy - y)%Z with dy in Hstep by lia;
          simpl in Hstep; exact Hstep
      end.
Qed.

(** The cost of a path bounds the octile distance between its ends. *)
Lemma octile_le_pathCost (wo : gset string) (path : list GridPosition)
  (p q : GridPosition) :
  legalPath wo path -> head path = Some p -> last path = Some q ->
  octileDistance (pos_x p) (pos_y p) (pos_x q) (pos_y q) <= pathCost path.
Proof.
  revert p. induction path as [|a [|b rest] IH]; intros p Hlegal Hhead Hlast.
  - discriminate.
  - simpl in *. injection Hhead as <-. injection Hlast as <-.
    unfold octileDistance. rewrite !Z.sub_diag. vm_compute. discriminate.
  - injection Hhead as <-.
    destruct Hlegal as [(Hx & Hy & _) Hrest].
    specialize (IH b Hrest eq_refl Hlast).
    change (pathCost (a :: b :: rest)) with (stepCost a b + pathCost (b :: rest)).
    pose proof (octile_step_cost a b (pos_x q) (pos_y q) Hx Hy). lra.
Qed.

End Heuristic.
(* ================================================================== *)
(** * The maps and sets derived from the dots *)

Section DerivedMaps.

(** A map filled by a loop of [map.set(key(item), value(item))] holds,
    under a key, the value of the last item with that key. *)
Lemma fold_insert_lookup {A V} (key : A -> string) (value : A -> V)
  (items : list A) (m : gmap string V) (k : string) :
  fold_left (fun m item => <[key item := value item]> m) items m !! k
  = match last (filter (fun item => key item = k) items) with
    | Some item => Some (value item)
    | None => m !! k
    end.
Proof.
  revert m. induction items as [|item items IH]; intros m; [reflexivity|].
  simpl. rewrite IH. rewrite filter_cons.
  destruct (decide (key item = k)) as [E | E].
  - destruct (filter _ items) as [|b rest] eqn:Hf.
    + simpl. subst k. now rewrite lookup_insert_eq.
    + rewrite last_cons_cons.
      destruct (last (b :: rest)) eqn:Hl; [reflexivity|].
      now apply last_None in Hl.
  - destruct (last _); [reflexivity|]. now rewrite lookup_insert_ne.
Qed.

(** A set filled by a loop of [set.add(key(item))] holds the keys of the
    items. *)
Lemma fold_add_elem {A} (key : A -> string) (items : list A) (s : gset string)
  (k : string) :
  k ∈ fold_left (fun s item => {[key item]} ∪ s) items s
  <-> k ∈ s \/ exists item, item ∈ items /\ key item = k.
Proof.
  revert s. induction items as [|item items IH]; intros s; simpl.
  - split; [now left|]. intros [Hs | (item & Hin & _)]; [exact Hs|].
    now apply elem_of_nil in Hin.
  - rewrite IH. rewrite elem_of_union, elem_of_singleton. split.
    + intros [[-> | Hs] | (i & Hin & Hk)].
      * right. exists item. split; [apply list_elem_of_here|reflexivity].
      * now left.
      * right. exists i. split; [now apply list_elem_of_further|exact Hk].
    + intros [Hs | (i & Hin & Hk)]; [left; now right|].
      apply elem_of_cons in Hin as [-> | Hin].
      * left. left. now symmetry.
      * right. now exists i.
Qed.

(** X5. [deriveDotMap] maps an id to the last dot of the array with that
    id, and to nothing when no dot has it. *)
Theorem deriveDotMap_last_wins (dots : list DotPlayerDot) (id : string) :
  deriveDotMap dots !! id = last (filter (fun dot => dot_id dot = id) dots).
Proof.
  unfold deriveDotMap.
  rewrite (fold_insert_lookup dot_id (fun dot => dot) dots ∅ id).
  destruct (last _); [reflexivity|apply lookup_empty].
Qed.

(** X6. The position set of the renderer and the obstacle set of the
    pathfinder are the same set; it holds the key of a cell exactly when
    some dot sits on that cell. *)
Theorem position_set_holds_cells (dots : list DotPlayerDot) (x y : Z) :
  Pathfinding.buildObstacleSet dots = deriveDotPositionSet dots
  /\ (createPositionKey x y ∈ deriveDotPositionSet dots
      <-> exists dot, dot ∈ dots /\ dot_x dot = x /\ dot_y dot = y).
Proof.
  split; [reflexivity|].
  unfold deriveDotPositionSet.
  rewrite (fold_add_elem (fun dot => createPositionKey (dot_x dot) (dot_y dot))).
  split.
  - intros [Hempty | (dot & Hin & Hkey)]; [now apply elem_of_empty in Hempty|].
    apply createPositionKey_inj in Hkey as [Hx Hy]. now exists dot.
  - intros (dot & Hin & <- & <-). right. now exists dot.
Qed.

(** X7. [deriveDotColorMap] maps the key of a cell to the colour of the
    last dot of the frame on that cell; without a frame the map is
    empty. *)
Theorem deriveDotColorMap_last_wins (frame : DotPlayerFrame) (x y : Z) :
  deriveDotColorMap None = ∅
  /\ deriveDotColorMap (Some frame) !! createPositionKey x y
     = dot_color
         <$> last (filter (fun dot => dot_x dot = x /\ dot_y dot = y)
                          (frame_dots frame)).
Proof.
  split; [reflexivity|].
  unfold deriveDotColorMap.
  rewrite (fold_insert_lookup
             (fun dot => createPositionKey (dot_x dot) (dot_y dot)) dot_color).
  rewrite lookup_empty.
  assert (Hfilter :
    filter (fun dot => createPositionKey (dot_x dot) (dot_y dot)
                       = createPositionKey x y) (frame_dots frame)
    = filter (fun dot => dot_x dot = x /\ dot_y dot = y) (frame_dots frame)).
  { apply list_filter_iff. intros dot. split.
    - apply createPositionKey_inj.
    - now intros [-> ->]. }
  rewrite Hfilter. now destruct (last _).
Qed.

End DerivedMaps.
(* ================================================================== *)
(** * The order and the paths of the connections *)

Section Ordering.
Context `{JsRuntime}.

Lemma sortByOrder_of_sorted l : StronglySorted orderLe l -> sortByOrder l = l.
Proof.
  induction 1 as [|c rest Hs IH Hall]; simpl; [reflexivity|].
  rewrite IH. destruct rest as [|d rest']; simpl; [reflexivity|].
  apply Forall_cons in Hall as [Hcd _]. unfold orderLe in Hcd.
  destruct (Z.leb_spec (conn_order c) (conn_order d)); [reflexivity|lia].
Qed.

(** Connections numbered upwards from [start] are sorted. *)
Lemma numbered_sorted (l : list DotPlayerConnection) (start : nat) :
  StronglySorted orderLe
    (imap (fun index connection => withOrder connection (Z.of_nat (start + index))) l).
Proof.
  revert start. induction l as [|c rest IH]; intros start; simpl; [constructor|].
  constructor.
  - specialize (IH (S start)).
    erewrite imap_ext; [exact IH|]. intros i x _. simpl. do 2 f_equal. lia.
  - apply Forall_forall. intros d Hd.
    apply elem_of_lookup_imap in Hd as (i & x & -> & _).
    unfold orderLe. simpl. lia.
Qed.

Lemma withOrder_twice c i j : withOrder (withOrder c i) j = withOrder c j.
Proof. reflexivity. Qed.

(** X8. [ensureFrameOrder] keeps the connections, numbers them 0, 1, 2,
    ... in the [order] field, and changes nothing when applied again. *)
Theorem ensureFrameOrder_numbers_and_settles (l : list DotPlayerConnection) :
  Permutation (map (fun c => withOrder c 0) (ensureFrameOrder l))
              (map (fun c => withOrder c 0) l)
  /\ map conn_order (ensureFrameOrder l) = map Z.of_nat (seq 0 (length l))
  /\ ensureFrameOrder (ensureFrameOrder l) = ensureFrameOrder l.
Proof.
  split; [|split].
  - unfold ensureFrameOrder.
    assert (Hids : map (fun c => withOrder c 0)
                       (imap (fun index connection =>
                                withOrder connection (Z.of_nat index))
                             (sortByOrder l))
                   = map (fun c => withOrder c 0) (sortByOrder l)).
    { apply list_eq. intros i.
      rewrite !list_lookup_fmap, list_lookup_imap.
      now destruct (sortByOrder l !! i). }
    rewrite Hids. apply Permutation_map, sortByOrder_perm.
  - apply ensureFrameOrder_numbers.
  - unfold ensureFrameOrder at 1.
    rewrite sortByOrder_of_sorted.
    + unfold ensureFrameOrder. apply list_eq. intros i.
      rewrite !list_lookup_imap. now destruct (sortByOrder l !! i).
    + unfold ensureFrameOrder. apply (numbered_sorted _ 0).
Qed.
End Ordering.

Section Paths.
Context `{JsRuntime}.

Lemma chained_single (s : ConnectionSegment) : chained [s].
Proof. intros [|i] a b Ha Hb; simpl in *; discriminate. Qed.

Lemma chained_snoc (path : list ConnectionSegment) (l s : ConnectionSegment) :
  chained path -> last path = Some l -> sharesEndpoint l s = true ->
  chained (path ++ [s]).
Proof.
  intros Hc Hl Hs i a b Ha Hb.
  rewrite last_lookup in Hl.
  assert (Hlen : (S i < length path \/ S i = length path)%nat).
  { apply lookup_lt_Some in Hb. rewrite length_app in Hb. simpl in Hb. lia. }
  destruct Hlen as [Hlt | Heq].
  - rewrite lookup_app_l in Ha by lia. rewrite lookup_app_l in Hb by lia.
    now apply (Hc i).
  - rewrite lookup_app_l in Ha by lia.
    rewrite lookup_app_r in Hb by lia.
    replace (S i - length path)%nat with 0%nat in Hb by lia. simpl in Hb.
    injection Hb as <-.
    replace (pred (length path)) with i in Hl by lia. congruence.
Qed.

Lemma pushPath_nonempty paths current :
  current <> [] -> pushPath paths current = paths ++ [current].
Proof. now destruct current. Qed.

Lemma pathsOk_snoc_same paths current (l s : ConnectionSegment) :
  pathsOk (paths ++ [current]) -> last current = Some l ->
  sharesEndpoint l s = true ->
  pathsOk (paths ++ [current ++ [s]]).
Proof.
  intros (Hne & Hch & Hsep) Hl Hs.
  apply Forall_app in Hne as [Hne1 _]. apply Forall_app in Hch as [Hch1 Hch2].
  rewrite Forall_singleton in Hch2.
  split; [|split].
  - apply Forall_app. split; [exact Hne1|]. apply Forall_singleton.
    now destruct current.
  - apply Forall_app. split; [exact Hch1|]. apply Forall_singleton.
    now apply (chained_snoc current l s).
  - intros i p q a b Hp Hq Ha Hb.
    assert (Hlen : (S i < length paths \/ S i = length paths)%nat).
    { apply lookup_lt_Some in Hq. rewrite length_app in Hq. simpl in Hq. lia. }
    destruct Hlen as [Hlt | Heq].
    + rewrite lookup_app_l in Hp by lia. rewrite lookup_app_l in Hq by lia.
      apply (Hsep i p q a b); try assumption.
      * rewrite lookup_app_l by lia. exact Hp.
      * rewrite lookup_app_l by lia. exact Hq.
    + rewrite lookup_app_l in Hp by lia.
      rewrite lookup_app_r in Hq by lia.
      replace (S i - length paths)%nat with 0%nat in Hq by lia. simpl in Hq.
      injection Hq as <-.
      apply (Hsep i p current a b); try assumption.
      * rewrite lookup_app_l by lia. exact Hp.
      * rewrite lookup_app_r by lia.
        now replace (S i - length paths)%nat with 0%nat by lia.
      * destruct current; [discriminate|exact Hb].
Qed.

Lemma pathsOk_snoc_new paths current (l s : ConnectionSegment) :
  pathsOk (paths ++ [current]) -> last current = Some l ->
  sharesEndpoint l s = false ->
  pathsOk ((paths ++ [current]) ++ [[s]]).
Proof.
  intros (Hne & Hch & Hsep) Hl Hs.
  split; [|split].
  - apply Forall_app. split; [exact Hne|]. now apply Forall_singleton.
  - apply Forall_app. split; [exact Hch|]. apply Forall_singleton, chained_single.
  - intros i p q a b Hp Hq Ha Hb.
    assert (Hlen : (S i < length (paths ++ [current])
                    \/ S i = length (paths ++ [current]))%nat).
    { apply lookup_lt_Some in Hq. rewrite length_app in Hq. simpl in Hq. lia. }
    destruct Hlen as [Hlt | Heq].
    + rewrite lookup_app_l in Hp by lia. rewrite lookup_app_l in Hq by lia.
      now apply (Hsep i p q a b).
    + rewrite lookup_app_l in Hp by lia.
      rewrite lookup_app_r in Hq by lia.
      replace (S i - length (paths ++ [current]))%nat with 0%nat in Hq by lia.
      simpl in Hq. injection Hq as <-. simpl in Hb. injection Hb as <-.
      rewrite length_app in Heq. simpl in Heq.
      rewrite lookup_app_r in Hp by lia.
      replace (i - length paths)%nat with 0%nat in Hp by lia. simpl in Hp.
      injection Hp as <-. congruence.
Qed.

Lemma resolvedSegments_snoc (dotMap : gmap string DotPlayerDot)
  (seen : list DotPlayerConnection) (c : DotPlayerConnection) :
  resolvedSegments dotMap (seen ++ [c])
  = resolvedSegments dotMap seen
    ++ match dotMap !! conn_from c, dotMap !! conn_to c with
       | Some from, Some to => [makeSegment c from to]
       | _, _ => []
       end.
Proof.
  unfold resolvedSegments. rewrite omap_app. f_equal. simpl.
  destruct (dotMap !! conn_from c); [|reflexivity].
  now destruct (dotMap !! conn_to c).
Qed.

(** What one turn of the loop of [buildConnectionPaths] keeps: the paths
    so far hold the segments seen so far and are well formed, and a path
    is being built whenever one was finished. *)
Lemma pathStep_inv (dotMap : gmap string DotPlayerDot)
  (state : list (list ConnectionSegment) * list ConnectionSegment)
  (seen : list DotPlayerConnection) (c : DotPlayerConnection) :
  (snd state = [] -> fst state = []) ->
  pathsOk (pathsOf state) ->
  concat (pathsOf state) = resolvedSegments dotMap seen ->
  (snd (pathStep dotMap state c) = [] -> fst (pathStep dotMap state c) = [])
  /\ pathsOk (pathsOf (pathStep dotMap state c))
  /\ concat (pathsOf (pathStep dotMap state c))
     = resolvedSegments dotMap (seen ++ [c]).
Proof.
  destruct state as [paths current]. unfold pathsOf. cbn [fst snd].
  intros Hcur Hok Hcat.
  rewrite resolvedSegments_snoc. unfold pathStep.
  destruct (dotMap !! conn_from c) as [from|];
    [destruct (dotMap !! conn_to c) as [to|]|];
    [|now rewrite app_nil_r..].
  destruct (last current) as [l|] eqn:Hlast.
  - assert (Hne : current <> []) by (intros ->; discriminate).
    rewrite (pushPath_nonempty _ _ Hne) in Hok, Hcat.
    destruct (sharesEndpoint l (makeSegment c from to)) eqn:Hshare; cbn [fst snd].
    + split; [intros Happ; now destruct current|].
      rewrite pushPath_nonempty by now destruct current.
      split; [now apply (pathsOk_snoc_same paths current l)|].
      rewrite concat_app in *. simpl in *. rewrite !app_nil_r in *.
      rewrite <- Hcat. now rewrite app_assoc.
    + split; [discriminate|].
      rewrite (pushPath_nonempty _ _ Hne). simpl.
      split; [now apply (pathsOk_snoc_new paths current l)|].
      rewrite concat_app. simpl. now rewrite Hcat.
  - apply last_None in Hlast. subst current. rewrite (Hcur eq_refl) in *.
    cbn [fst snd]. split; [discriminate|]. simpl in *. rewrite <- Hcat.
    split; [|reflexivity]. repeat split.
    + now apply Forall_singleton.
    + apply Forall_singleton, chained_single.
    + intros [|i] p q a b Hp Hq; simpl in *; discriminate.
Qed.

Lemma pathLoop_inv (dotMap : gmap string DotPlayerDot)
  (connections : list DotPlayerConnection)
  (state : list (list ConnectionSegment) * list ConnectionSegment)
  (seen : list DotPlayerConnection) :
  (snd state = [] -> fst state = []) ->
  pathsOk (pathsOf state) ->
  concat (pathsOf state) = resolvedSegments dotMap seen ->
  pathsOk (pathsOf (fold_left (pathStep dotMap) connections state))
  /\ concat (pathsOf (fold_left (pathStep dotMap) connections state))
     = resolvedSegments dotMap (seen ++ connections).
Proof.
  revert state seen.
  induction connections as [|c rest IH]; intros state seen Hcur Hok Hcat.
  - simpl. now rewrite app_nil_r.
  - cbn [fold_left].
    replace (seen ++ c :: rest) with ((seen ++ [c]) ++ rest)
      by now rewrite <- app_assoc.
    destruct (pathStep_inv dotMap state seen c Hcur Hok Hcat) as (H1 & H2 & H3).
    now apply IH.
Qed.

Lemma buildConnectionPaths_inv (connections : list DotPlayerConnection)
  (dotMap : gmap string DotPlayerDot) :
  pathsOk (buildConnectionPaths connections dotMap)
  /\ concat (buildConnectionPaths connections dotMap)
     = resolvedSegments dotMap (ensureFrameOrder connections).
Proof.
  unfold buildConnectionPaths.
  pose proof (pathLoop_inv dotMap (ensureFrameOrder connections) ([], []) [])
    as Hloop.
  destruct (fold_left _ _ _) as [paths current].
  apply Hloop.
  - reflexivity.
  - repeat split; try constructor.
    intros i p q a b Hp. now destruct i.
  - reflexivity.
Qed.

(** X9. The paths of [buildConnectionPaths], laid end to end, are the
    segments of the connections with both endpoints among the dots, in
    ascending [order]; no path is empty. *)
Theorem connection_paths_partition (connections : list DotPlayerConnection)
  (dotMap : gmap string DotPlayerDot) :
  concat (buildConnectionPaths connections dotMap)
  = resolvedSegments dotMap (ensureFrameOrder connections)
  /\ Forall (fun path => path <> []) (buildConnectionPaths connections dotMap).
Proof.
  destruct (buildConnectionPaths_inv connections dotMap) as [(Hne & _) Hcat].
  now split.
Qed.

(** X10. Within a path of [buildConnectionPaths] each segment shares an
    endpoint with the next, and the last segment of a path shares none
    with the first segment of the next path. *)
Theorem connection_paths_maximal (connections : list DotPlayerConnection)
  (dotMap : gmap string DotPlayerDot) :
  Forall chained (buildConnectionPaths connections dotMap)
  /\ separated (buildConnectionPaths connections dotMap).
Proof.
  destruct (buildConnectionPaths_inv connections dotMap) as [(_ & Hch & Hsep) _].
  now split.
Qed.

End Paths.
(* ================================================================== *)
(** * The easings and the eased time *)

Section EasingFacts.
Local Open Scope Q_scope.

Lemma easing_clamp_bounds t : 0 <= Easing.clamp t /\ Easing.clamp t <= 1.
Proof. unfold Easing.clamp. minmax_cases; lra. Qed.

Lemma easing_clamp_inside t : 0 <= t -> t <= 1 -> Easing.clamp t == t.
Proof. intros. unfold Easing.clamp. minmax_cases; lra. Qed.

Lemma easing_clamp_mono t u : t <= u -> Easing.clamp t <= Easing.clamp u.
Proof. intros. unfold Easing.clamp. minmax_cases; lra. Qed.




Lemma easeOf_named (name : string) :
  (name = "backIn" /\ easeOf name = Easing.backIn)
  \/ (name <> "backIn"
      /\ (easeOf name = Easing.linear \/ easeOf name = Easing.easeIn
          \/ easeOf name = Easing.easeOut \/ easeOf name = Easing.easeInOut
          \/ easeOf name = Easing.cubic
          \/ easeOf name = Easing.backOut \/ easeOf name = Easing.backInOut)).
Proof.
  destruct (String.eqb name "backIn") eqn:Hb.
  - left. apply String.eqb_eq in Hb. subst. split; reflexivity.
  - right. split; [now apply String.eqb_neq|].
    unfold easeOf, Easing.easingFunctions. rewrite Hb. clear Hb.
    repeat (destruct (String.eqb name _); [simpl; tauto|]).
    destruct (existsb _ _); simpl; tauto.
Qed.







(** The cubic [x * x * ((s + 1) * x - s)] of the back easings grows from
    its zero [s / (s + 1)] on. *)
Lemma back_cubic_mono (s x y : Q) :
  0 <= s -> 0 <= x -> x <= y -> 0 <= (s + 1) * x - s ->
  x * x * ((s + 1) * x - s) <= y * y * ((s + 1) * y - s).
Proof.
  intros Hs Hx Hxy Hz.
  assert (H1 : x * x <= y * y) by nra.
  assert (H2 : (s + 1) * x - s <= (s + 1) * y - s) by nra.
  assert (H3 : 0 <= x * x) by nra.
  nra.
Qed.

Lemma easeInOut_mono t u :
  0 <= t -> t <= u -> u <= 1 -> Easing.easeInOut t <= Easing.easeInOut u.
Proof.
  intros Ht Htu Hu. unfold Easing.easeInOut. cbv zeta.
  pose proof (easing_clamp_inside t) as Hct.
  pose proof (easing_clamp_inside u) as Hcu.
  set (c := Easing.clamp t) in *. set (d := Easing.clamp u) in *.
  assert (Hc : c == t) by (apply Hct; lra).
  assert (Hd : d == u) by (apply Hcu; lra).
  clearbody c d. clear Hct Hcu.
  destruct (Qlt_le_dec c (1 # 2)), (Qlt_le_dec d (1 # 2)); rewrite ?Qdiv_const; nra.
Qed.

Lemma backOut_mono t u :
  0 <= t -> t <= u -> u <= 1 -> Easing.backOut t <= Easing.backOut u.
Proof.
  intros Ht Htu Hu. unfold Easing.backOut. cbv zeta.
  pose proof (easing_clamp_inside t) as Hct.
  pose proof (easing_clamp_inside u) as Hcu.
  set (c := Easing.clamp t) in *. set (d := Easing.clamp u) in *.
  assert (Hc : c == t) by (apply Hct; lra).
  assert (Hd : d == u) by (apply Hcu; lra).
  clearbody c d. clear Hct Hcu.
  set (s := 170158 # 100000).
  assert (Hs : 0 <= s) by (unfold s; lra).
  destruct (Qlt_le_dec ((s + 1) * (d - 1) + s) 0) as [Hneg | Hpos].
  - apply easing_clamp_mono.
    pose proof (back_cubic_mono s (1 - d) (1 - c) Hs) as Hm.
    assert (Hm' : (1 - d) * (1 - d) * ((s + 1) * (1 - d) - s)
                  <= (1 - c) * (1 - c) * ((s + 1) * (1 - c) - s))
      by (apply Hm; lra).
    nra.
  - assert (Hge : 1 <= 1 + (d - 1) * (d - 1) * ((s + 1) * (d - 1) + s)).
    { assert (0 <= (d - 1) * (d - 1)) by nra. nra. }
    pose proof (easing_clamp_bounds
                  (1 + (c - 1) * (c - 1) * ((s + 1) * (c - 1) + s))) as [_ Hle].
    unfold Easing.clamp at 2. revert Hge Hle. generalize (Easing.clamp
      (1 + (c - 1) * (c - 1) * ((s + 1) * (c - 1) + s))).
    intros q Hge Hle. minmax_cases; lra.
Qed.


Lemma easing_clamp_of_le_0 x : x <= 0 -> Easing.clamp x == 0.
Proof. intros. unfold Easing.clamp. minmax_cases; lra. Qed.

Lemma easing_clamp_of_ge_1 x : 1 <= x -> Easing.clamp x == 1.
Proof. intros. unfold Easing.clamp. minmax_cases; lra. Qed.

Lemma backInOut_mono t u :
  0 <= t -> t <= u -> u <= 1 -> Easing.backInOut t <= Easing.backInOut u.
Proof.
  intros Ht Htu Hu. unfold Easing.backInOut. cbv zeta.
  pose proof (easing_clamp_inside t) as Hct.
  pose proof (easing_clamp_inside u) as Hcu.
  set (c := Easing.clamp t) in *. set (d := Easing.clamp u) in *.
  assert (Hc : c == t) by (apply Hct; lra).
  assert (Hd : d == u) by (apply Hcu; lra).
  clearbody c d. clear Hct Hcu.
  set (s := (170158 # 100000) * (1525 # 1000)).
  assert (Hs : 0 <= s) by (unfold s; lra).
  destruct (Qlt_le_dec (c * 2) 1) as [Hc1 | Hc1], (Qlt_le_dec (d * 2) 1) as [Hd1 | Hd1];
    try lra.
  - (* both in the first half *)
    destruct (Qlt_le_dec ((s + 1) * (c * 2) - s) 0) as [Hneg | Hpos].
    + assert (Hle : (1 # 2) * (c * 2 * (c * 2) * ((s + 1) * (c * 2) - s)) <= 0).
      { assert (0 <= c * 2 * (c * 2)) by nra. nra. }
      rewrite (easing_clamp_of_le_0 _ Hle). apply easing_clamp_bounds.
    + apply easing_clamp_mono.
      pose proof (back_cubic_mono s (c * 2) (d * 2) Hs) as Hm.
      assert (c * 2 * (c * 2) * ((s + 1) * (c * 2) - s)
              <= d * 2 * (d * 2) * ((s + 1) * (d * 2) - s)) by (apply Hm; lra).
      lra.
  - (* first half, then second half *)
    assert (Hlow : (1 # 2) * (c * 2 * (c * 2) * ((s + 1) * (c * 2) - s)) <= 1 # 2).
    { assert (0 <= c * 2 * (c * 2)) by nra.
      assert (c * 2 * (c * 2) <= 1) by nra.
      assert ((s + 1) * (c * 2) - s <= 1) by nra.
      nra. }
    assert (Hhigh : 1 # 2 <= (1 # 2) * ((d * 2 - 2) * (d * 2 - 2)
                                        * ((s + 1) * (d * 2 - 2) + s) + 2)).
    { assert (0 <= (d * 2 - 2) * (d * 2 - 2)) by nra.
      assert ((d * 2 - 2) * (d * 2 - 2) <= 1) by nra.
      assert (-1 <= (s + 1) * (d * 2 - 2) + s) by nra.
      nra. }
    apply easing_clamp_mono. lra.
  - (* both in the second half *)
    destruct (Qlt_le_dec ((s + 1) * (d * 2 - 2) + s) 0) as [Hneg | Hpos].
    + apply easing_clamp_mono.
      pose proof (back_cubic_mono s (2 - d * 2) (2 - c * 2) Hs) as Hm.
      assert ((2 - d * 2) * (2 - d * 2) * ((s + 1) * (2 - d * 2) - s)
              <= (2 - c * 2) * (2 - c * 2) * ((s + 1) * (2 - c * 2) - s))
        by (apply Hm; lra).
      nra.
    + assert (Hge : 1 <= (1 # 2) * ((d * 2 - 2) * (d * 2 - 2)
                                    * ((s + 1) * (d * 2 - 2) + s) + 2)).
      { assert (0 <= (d * 2 - 2) * (d * 2 - 2)) by nra. nra. }
      rewrite (easing_clamp_of_ge_1 _ Hge). apply easing_clamp_bounds.
Qed.

(** X12. On the interval from 0 to 1, which is where the renderer applies
    them, all easings but [backIn] are non-decreasing. *)
Theorem easing_monotone (name : string) (t u : Q) :
  name <> "backIn" -> 0 <= t -> t <= u -> u <= 1 ->
  easeOf name t <= easeOf name u.
Proof.
  intros Hname Ht Htu Hu.
  destruct (easeOf_named name) as [[Hn _] | [_ Hcase]]; [contradiction|].
  destruct Hcase as [-> | [-> | [-> | [-> | [-> | [-> | ->]]]]]].
  - now apply easing_clamp_mono.
  - apply easing_clamp_mono. nra.
  - apply easing_clamp_mono. nra.
  - now apply easeInOut_mono.
  - apply easing_clamp_mono.
    assert (t * t <= u * u) by nra. assert (0 <= t * t) by nra. nra.
  - now apply backOut_mono.
  - now apply backInOut_mono.
Qed.

End EasingFacts.

Lemma easing_monotone_witness :
  (easeOf "easeInOut" (1 # 4) <= easeOf "easeInOut" (3 # 4))%Q.
Proof.
  apply (easing_monotone "easeInOut" (1 # 4) (3 # 4)).
  - discriminate.
  - vm_compute; discriminate.
  - vm_compute; discriminate.
  - vm_compute; discriminate.
Defined.


Section EasedTime.
Local Open Scope Q_scope.









End EasedTime.



Section Windows.
Local Open Scope Q_scope.

(** X14. The window of the route an auto-connection draws is a non-empty
    part of the interval from 0 to 1. *)
Theorem auto_window_within_route (autoConn : AutoConnection) (elapsed : Q)
  (window : Window) :
  visibleWindow autoConn elapsed = Some window ->
  0 <= progressStart window
  /\ progressStart window < progressEnd window
  /\ progressEnd window <= 1.
Proof.
  unfold visibleWindow. destruct (phaseWindow autoConn elapsed) as [w|] eqn:Hw;
    [|discriminate].
  destruct (Qle_bool (progressEnd w) (progressStart w)) eqn:Hcmp; [discriminate|].
  intros [= <-].
  assert (Hlt : progressStart w < progressEnd w).
  { apply Qnot_le_lt. intros Hle. apply Qle_bool_iff in Hle. congruence. }
  split; [|split; [exact Hlt|]].
  all: unfold phaseWindow in Hw; destruct (autoPhase autoConn elapsed);
    try discriminate;
    repeat match type of Hw with
           | context [if ?b then _ else _] => destruct b
           end;
    injection Hw as <-; simpl in *;
    try lra;
    match goal with
    | |- context [clamp ?x 0 1] =>
        pose proof (clamp_bounds x 0 1 ltac:(lra)); lra
    | H : context [clamp ?x 0 1] |- _ =>
        pose proof (clamp_bounds x 0 1 ltac:(lra)); lra
    end.
Qed.

(** X15. An auto-connection that lacks a stay duration or a trace-out
    duration never traces out: from the end of its trace-in on, the whole
    route is drawn and no pen tip is shown. *)
Theorem auto_connection_stays_without_durations (autoConn : AutoConnection)
  (elapsed : Q) :
  ac_stayDuration autoConn = None \/ ac_traceOutDuration autoConn = None ->
  0 <= elapsed -> ac_traceInDuration autoConn <= elapsed ->
  visibleWindow autoConn elapsed
  = Some {| progressStart := 0; progressEnd := 1; isTracing := false |}.
Proof.
  intros Hmissing H0 Hin.
  assert (Hphase : autoPhase autoConn elapsed = Stay
                   \/ autoPhase autoConn elapsed = Permanent).
  { unfold autoPhase.
    destruct (Qlt_le_dec elapsed 0); [lra|].
    destruct (Qlt_le_dec elapsed (ac_traceInDuration autoConn)); [lra|].
    destruct Hmissing as [-> | ->].
    - left. reflexivity.
    - destruct (nlt _ _); [now left|now right]. }
  unfold visibleWindow, phaseWindow.
  destruct Hphase as [-> | ->]; reflexivity.
Qed.

End Windows.

Lemma auto_window_within_route_witness :
  (0 <= 0 /\ 0 < 250 # 500 /\ 250 # 500 <= 1)%Q.
Proof.
  exact (auto_window_within_route scheduleExample 250
           {| progressStart := 0; progressEnd := 250 # 500; isTracing := true |}
           eq_refl).
Defined.

Lemma auto_connection_stays_without_durations_witness :
  visibleWindow permanentTrace 5000
  = Some {| progressStart := 0; progressEnd := 1; isTracing := false |}.
Proof.
  apply auto_connection_stays_without_durations.
  - left; reflexivity.
  - vm_compute; discriminate.
  - vm_compute; discriminate.
Defined.
(* ================================================================== *)
(** * The colours [parseColor] returns *)

Section Colours.
Context `{JsRuntime}.
Local Open Scope Q_scope.

Lemma Math_round_bounds (x : Q) (lo hi : Z) :
  inject_Z lo <= x -> x <= inject_Z hi -> (lo <= Math_round x <= hi)%Z.
Proof.
  intros Hlo Hhi. unfold Math_round.
  pose proof (Qfloor_le (x + (1 # 2))) as Hfl.
  pose proof (Qlt_floor (x + (1 # 2))) as Hlt.
  rewrite inject_Z_plus in Hlt. change (inject_Z 1) with 1 in Hlt.
  split.
  - assert (Hq : inject_Z lo < inject_Z (Qfloor (x + (1 # 2))) + 1) by lra.
    rewrite <- (inject_Z_plus _ 1) in Hq. rewrite <- Zlt_Qlt in Hq. lia.
  - assert (Hq : inject_Z (Qfloor (x + (1 # 2))) < inject_Z hi + 1) by lra.
    rewrite <- (inject_Z_plus _ 1) in Hq. rewrite <- Zlt_Qlt in Hq. lia.
Qed.

Lemma parseRgbColor_ranges (value : string) (c : RgbaColor) :
  parseRgbColor value = Some c ->
  wholeChannels c /\ channelsInRange c /\ 0 <= rgba_a c /\ rgba_a c <= 1.
Proof.
  unfold parseRgbColor.
  destruct (match_rgb _) as [inner|]; [|discriminate].
  destruct (map String_trim (splitComma inner)) as [|p0 [|p1 [|p2 more]]];
    try discriminate.
  destruct (Number_finite p0) as [r|]; [|discriminate].
  destruct (Number_finite p1) as [g|]; [|discriminate].
  destruct (Number_finite p2) as [b|]; [|discriminate].
  destruct (match more with [] => _ | _ => _ end) as [a|]; [|discriminate].
  intros [= <-]. simpl.
  pose proof (clamp_bounds r 0 255 ltac:(lra)) as Hr.
  pose proof (clamp_bounds g 0 255 ltac:(lra)) as Hg.
  pose proof (clamp_bounds b 0 255 ltac:(lra)) as Hb.
  pose proof (Math_round_bounds (clamp r 0 255) 0 255 (proj1 Hr) (proj2 Hr)) as Hr'.
  pose proof (Math_round_bounds (clamp g 0 255) 0 255 (proj1 Hg) (proj2 Hg)) as Hg'.
  pose proof (Math_round_bounds (clamp b 0 255) 0 255 (proj1 Hb) (proj2 Hb)) as Hb'.
  split; [|split].
  - eexists _, _, _. repeat split; reflexivity.
  - unfold channelsInRange. simpl.
    rewrite !Zle_Qle in Hr', Hg', Hb'. tauto.
  - apply clamp_bounds. lra.
Qed.

Lemma hexChannels_ranges (channel : Z -> Q) (r g b : option Z) (a : option Q)
  (c : RgbaColor) :
  (forall z, exists w, channel z == inject_Z w) ->
  match r, g, b, a with
  | Some r, Some g, Some b, Some a =>
      Some {| rgba_r := channel r; rgba_g := channel g; rgba_b := channel b;
              rgba_a := clamp a 0 1 |}
  | _, _, _, _ => None
  end = Some c ->
  wholeChannels c /\ 0 <= rgba_a c /\ rgba_a c <= 1.
Proof.
  intros Hwhole.
  destruct r as [r|], g as [g|], b as [b|], a as [a|]; try discriminate.
  intros [= <-]. split; [|apply clamp_bounds; lra].
  destruct (Hwhole r) as [r' Hr], (Hwhole g) as [g' Hg], (Hwhole b) as [b' Hb].
  exists r', g', b'. cbn [rgba_r rgba_g rgba_b]. now repeat split.
Qed.

Lemma parseHexColor_ranges (value : string) (c : RgbaColor) :
  parseHexColor value = Some c ->
  wholeChannels c /\ 0 <= rgba_a c /\ rgba_a c <= 1.
Proof.
  unfold parseHexColor. cbv zeta.
  destruct (negb _); [discriminate|].
  destruct (_ || _).
  - apply (hexChannels_ranges (fun z => inject_Z z * 17)).
    intros z. exists (z * 17)%Z. now rewrite inject_Z_mult.
  - apply (hexChannels_ranges inject_Z).
    intros z. now exists z.
Qed.

Lemma parseUncached_ranges (trimmed : string) (c : RgbaColor) :
  parseUncached trimmed = Some c ->
  wholeChannels c /\ (0 <= rgba_a c /\ rgba_a c <= 1)
  /\ (String.prefix "#" trimmed = false -> channelsInRange c).
Proof.
  unfold parseUncached. destruct (String.prefix "#" trimmed); intros Hp.
  - apply parseHexColor_ranges in Hp as [Hw Ha].
    split; [exact Hw|]. split; [exact Ha|]. discriminate.
  - apply parseRgbColor_ranges in Hp as (Hw & Hr & Ha).
    split; [exact Hw|]. split; [exact Ha|]. now intros _.
Qed.

(** X16. A colour [parseColor] returns, after any calls of [renderFrame],
    has whole-number channels and an alpha between 0 and 1; when it was
    read from a string that does not start with [#] its channels are
    between 0 and 255. *)
Theorem parsed_colour_ranges (history : list RenderCall) (value : string)
  (c : RgbaColor) :
  fst (parseColor value (cacheAfter history)) = Some c ->
  wholeChannels c
  /\ (0 <= rgba_a c /\ rgba_a c <= 1)
  /\ (String.prefix "#" (String_trim value) = false -> channelsInRange c).
Proof.
  rewrite parseColor_result by apply cacheAfter_consistent.
  apply parseUncached_ranges.
Qed.

(** X17. [parseColor] memoizes: the cache it leaves behind answers the
    same question with the same result and is left as it is; it holds the
    colour returned, under the trimmed string, and everything the cache
    held before. *)
Theorem parseColor_memoizes (value : string) (cache : gmap string RgbaColor) :
  parseColor value (snd (parseColor value cache)) = parseColor value cache
  /\ cache ⊆ snd (parseColor value cache)
  /\ (forall c, fst (parseColor value cache) = Some c ->
        snd (parseColor value cache) !! String_trim value = Some c)
  /\ (fst (parseColor value cache) = None -> snd (parseColor value cache) = cache).
Proof.
  unfold parseColor.
  destruct (cache !! String_trim value) as [cached|] eqn:E; simpl.
  - rewrite E. repeat split; try reflexivity; try discriminate.
    now intros c [= <-].
  - destruct (parseUncached (String_trim value)) as [parsed|] eqn:P; simpl.
    + rewrite lookup_insert_eq.
      split; [reflexivity|]. split; [now apply insert_subseteq|].
      split; [tauto|discriminate].
    + rewrite ?E, ?P. repeat split; try reflexivity; discriminate.
Qed.

End Colours.

Lemma parsed_colour_ranges_witness :
  wholeChannels {| rgba_r := 249; rgba_g := 115; rgba_b := 22; rgba_a := clamp 1 0 1 |}
  /\ ((0 <= clamp 1 0 1)%Q /\ (clamp 1 0 1 <= 1)%Q)
  /\ (String.prefix "#" "#f97316" = false ->
      channelsInRange
        {| rgba_r := 249; rgba_g := 115; rgba_b := 22; rgba_a := clamp 1 0 1 |}).
Proof.
  exact (parsed_colour_ranges (H := sampleRuntime)
           [(sampleContext, blendState, None)] "#f97316" _ eq_refl).
Defined.
(* ================================================================== *)
(** * The ends and the cost of a path found *)

Section Route.
Import Pathfinding.
Local Open Scope Q_scope.

(** The reconstruction of a node goes from the root of its chain to the
    node. *)
Lemma reconstruct_ends (start : GridPosition) (node : PathNode) :
  rootedAt start node ->
  (exists p, head (reconstruct node []) = Some p
             /\ pos_x p = pos_x start /\ pos_y p = pos_y start)
  /\ last (reconstruct node []) = Some (posOf node).
Proof.
  induction node as [x y g h f|x y g h f parent IH] using PathNode_chain_ind;
    intros Hroot.
  - simpl in *. split; [|reflexivity]. eexists. split; [reflexivity|].
    simpl. tauto.
  - simpl in Hroot. destruct (IH Hroot) as [(p & Hhead & Hp) _].
    cbn [reconstruct node_parent node_x node_y]. rewrite reconstruct_app.
    split.
    + exists p. split; [|exact Hp].
      destruct (reconstruct parent []); [discriminate|exact Hhead].
    + now rewrite last_snoc.
Qed.

Lemma visit_rooted start end_ gridSize closedSet wo current openSet dir :
  rootedAt start current -> Forall (rootedAt start) openSet ->
  Forall (rootedAt start) (visit end_ gridSize closedSet wo current openSet dir).
Proof.
  intros Hcur Hopen. unfold visit.
  destruct (_ || _ || _ || _); [exact Hopen|].
  destruct (bool_decide (_ ∈ closedSet)); [exact Hopen|].
  destruct (bool_decide (_ ∈ wo)); [exact Hopen|].
  destruct (negb (dir_dx dir =? 0)%Z && negb (dir_dy dir =? 0)%Z && _);
    [exact Hopen|].
  destruct (findIndex _ openSet) as [existingIndex|].
  - destruct (openSet !! existingIndex) as [existing|]; [|exact Hopen].
    destruct (Qlt_le_dec _ (node_g existing)); [|exact Hopen].
    apply Forall_insert; [exact Hopen|exact Hcur].
  - apply Forall_app. split; [exact Hopen|]. constructor; [exact Hcur|constructor].
Qed.

Lemma visits_rooted start end_ gridSize closedSet wo current dirs openSet :
  rootedAt start current -> Forall (rootedAt start) openSet ->
  Forall (rootedAt start)
    (fold_left (visit end_ gridSize closedSet wo current) dirs openSet).
Proof.
  revert openSet. induction dirs as [|dir dirs IH]; intros openSet Hcur Hopen;
    simpl; [exact Hopen|].
  apply IH; [exact Hcur|]. now apply visit_rooted.
Qed.

Lemma search_found start fuel end_ gridSize wo openSet closedSet path :
  Forall (rootedAt start) openSet ->
  search fuel end_ gridSize wo openSet closedSet = Some (Some path) ->
  exists node,
    rootedAt start node
    /\ node_x node = pos_x end_ /\ node_y node = pos_y end_
    /\ path = reconstruct node [].
Proof.
  revert openSet closedSet.
  induction fuel as [|fuel IH]; intros openSet closedSet Hopen;
    [discriminate|].
  rewrite search_S.
  destruct (openSet !! lowestIndex openSet) as [current|] eqn:Hcur; [|discriminate].
  assert (Hroot : rootedAt start current).
  { eapply Forall_lookup_1; [exact Hopen|exact Hcur]. }
  destruct (_ && _) eqn:Hend.
  - intros [= <-]. exists current.
    apply andb_true_iff in Hend as [Ex Ey]. apply Z.eqb_eq in Ex, Ey.
    now repeat split.
  - apply IH. apply visits_rooted; [exact Hroot|]. now apply Forall_delete.
Qed.

(** X20. A path [findPath] returns goes from the start cell to the end
    cell, and its cost, 1 for a step along a row or a column and [SQRT2]
    for a diagonal step, is at least the octile distance between the two:
    the heuristic never overestimates. *)
Theorem route_ends_and_cost (start end_ : GridPosition) (gridSize : Z)
  (obstacles : gset string) (path : list GridPosition) :
  findPath start end_ gridSize obstacles = Some path ->
  (exists p, head path = Some p
             /\ pos_x p = pos_x start /\ pos_y p = pos_y start)
  /\ (exists q, last path = Some q
                /\ pos_x q = pos_x end_ /\ pos_y q = pos_y end_)
  /\ octileDistance (pos_x start) (pos_y start) (pos_x end_) (pos_y end_)
     <= pathCost path.
Proof.
  intros Hfind.
  assert (Hfuel : findPathFuel (searchBound gridSize) start end_ gridSize obstacles
                  = Some (Some path)).
  { unfold findPath in Hfind.
    destruct (findPathFuel _ _ _ _ _) as [[found|]|]; simpl in Hfind; congruence. }
  pose proof (findPathFuel_legal _ _ _ _ _ _ Hfuel) as Hlegal.
  assert (Hends : (exists p, head path = Some p
                             /\ pos_x p = pos_x start /\ pos_y p = pos_y start)
                  /\ (exists q, last path = Some q
                                /\ pos_x q = pos_x end_ /\ pos_y q = pos_y end_)).
  { unfold findPathFuel in Hfuel.
    destruct (_ && _) eqn:Hsame.
    - injection Hfuel as <-.
      apply andb_true_iff in Hsame as [Ex Ey]. apply Z.eqb_eq in Ex, Ey.
      split; eexists; (split; [reflexivity|]); simpl; auto.
    - apply (search_found start) in Hfuel
        as (node & Hroot & Hx & Hy & ->).
      + destruct (reconstruct_ends start node Hroot) as [Hhead Hlast].
        split; [exact Hhead|]. exists (posOf node). now split.
      + constructor; [simpl; tauto|constructor]. }
  split; [apply Hends|]. split; [apply Hends|].
  destruct Hends as [(p & Hhead & Hpx & Hpy) (q & Hlast & Hqx & Hqy)].
  rewrite <- Hpx, <- Hpy, <- Hqx, <- Hqy.
  exact (octile_le_pathCost _ path p q Hlegal Hhead Hlast).
Qed.

End Route.

Lemma route_ends_and_cost_witness :
  (Pathfinding.octileDistance
     (Pathfinding.pos_x (cell 0 0)) (Pathfinding.pos_y (cell 0 0))
     (Pathfinding.pos_x (cell 3 3)) (Pathfinding.pos_y (cell 3 3))
   <= Pathfinding.pathCost [cell 0 0; cell 1 1; cell 2 2; cell 3 3])%Q.
Proof.
  assert (Hfind : Pathfinding.findPath (cell 0 0) (cell 3 3) 4 ∅
                  = Some [cell 0 0; cell 1 1; cell 2 2; cell 3 3])
    by (vm_compute; reflexivity).
  destruct (route_ends_and_cost (cell 0 0) (cell 3 3) 4 ∅ _ Hfind)
    as (_ & _ & Hcost).
  exact Hcost.
Defined.

Lemma findPath_total_witness :
  Pathfinding.findPathFuel 40 (cell 0 0) (cell 1 1) 2 ∅
  = Some (Pathfinding.findPath (cell 0 0) (cell 1 1) 2 ∅).
Proof.
  apply (findPath_total (cell 0 0) (cell 1 1) 2 ∅ 40). vm_compute. lia.
Defined.
(* ================================================================== *)
(** * The part of a route an auto-connection strokes *)

Section StrokeWindow.
Context `{JsRuntime}.
Import Pathfinding.
Local Open Scope Q_scope.

(** X19. With square roots that are not negative, the calls that stroke
    a route between two lengths, the first of them not negative, the
    second at most the length of the route, draw the visible parts of its
    segments in their order: the pen moves to the point at the first
    length and draws a line to the end of each part, and the lengths of
    the parts add up to the distance between the two lengths.  No pen tip
    is drawn when the route is not being traced. *)
Theorem stroke_covers_window (context : RenderContext) (color : string)
  (tracing : bool) (first : GridPosition) (rest : list GridPosition)
  (startLength endLength : Q) :
  (forall x, 0 <= x -> 0 <= Math_sqrt x) ->
  0 <= startLength -> startLength <= endLength ->
  endLength <= routeLength first rest 0 ->
  exists pen : list CanvasCmd,
    strokeRoute context color tracing first rest (routeLength first rest 0)
                startLength endLength
    = [ Save; SetStrokeStyle color; SetLineWidth (strokeWidth context);
        SetLineCap "round"; BeginPath ]
      ++ claimedStroke context (visibleParts startLength endLength first rest)
      ++ [ Stroke ] ++ pen ++ [ Restore ]
    /\ (tracing = false -> pen = [])
    /\ visibleLength (visibleParts startLength endLength first rest)
       == endLength - startLength.
Proof.
  intros Hsqrt H0 Hle Htotal.
  destruct (strokeRoute_shape Hsqrt context color tracing first rest
              (routeLength first rest 0) startLength endLength)
    as (pen & Hcalls & Hpen).
  exists pen. split; [exact Hcalls|]. split; [exact Hpen|].
  unfold visibleParts. rewrite (visibleLength_parts Hsqrt) by exact Hle.
  minmax_cases; lra.
Qed.

End StrokeWindow.

Lemma stroke_covers_window_witness :
  exists pen : list CanvasCmd,
    strokeRoute (H := sampleRuntime) sampleContext "#f97316" false
      (cell 0 0) [cell 1 1; cell 2 2]
      (routeLength (H := sampleRuntime) (cell 0 0) [cell 1 1; cell 2 2] 0)
      1 2
    = [ Save; SetStrokeStyle "#f97316"; SetLineWidth (strokeWidth sampleContext);
        SetLineCap "round"; BeginPath ]
      ++ claimedStroke (H := sampleRuntime) sampleContext
           (visibleParts (H := sampleRuntime) 1 2 (cell 0 0) [cell 1 1; cell 2 2])
      ++ [ Stroke ] ++ pen ++ [ Restore ]
    /\ (false = false -> pen = [])
    /\ (visibleLength
          (visibleParts (H := sampleRuntime) 1 2 (cell 0 0) [cell 1 1; cell 2 2])
        == 2 - 1)%Q.
Proof.
  apply (stroke_covers_window (H := sampleRuntime) sampleContext "#f97316" false
           (cell 0 0) [cell 1 1; cell 2 2] 1 2 sampleSqrt_nonneg).
  - vm_compute; discriminate.
  - vm_compute; discriminate.
  - vm_compute; discriminate.
Defined.
